(** * TWS trade book extractor: the ledger core of [main.py]

    A shallow embedding of the three functions that turn raw executions
    into the exported ledger,

      - [process_executions]     (main.py, lines 83-182)
      - [mark_assigned_options]  (main.py, lines 184-204)
      - [process_combos]         (main.py, lines 206-288)

    and of the code around them, as far as it handles data:

      - the callbacks of [TradingApp]          (lines 11-37)
      - [get_trade_data_from_connection]       (lines 39-81)
      - [save_to_excel] up to the rows it hands to [pandas] (lines 290-297)
      - [main]                                 (lines 323-347)

    together with the properties stated about them.  The socket, the API
    thread and the spreadsheet are outside: a connection is what it has
    delivered when [process_executions] reads the object.

    Conventions.
      - A Python [float] is a binary64 value: Rocq's primitive [float].
      - A Python [str] is a [string]; every character is read as the code
        point of its byte (all literals of the program are ASCII).
      - The trade dictionaries built by [process_executions] have a fixed
        set of keys, so a trade is a record; the dictionaries of one batch
        are distinct objects, so in-place updates of one trade are updates
        of one list position.
      - A function that can raise returns a [result]; the exception classes
        are those the code can meet.
      - Library routines of the Python runtime whose text is not part of the
        repository ([datetime.strptime], [float(str)], [sorted], ...) are
        the fields of a [PyBuiltins] record.  Definitions and theorems are
        stated for an arbitrary such record; [py_ref] is an executable
        instance used to evaluate the functions on concrete batches. *)

From Stdlib Require Import ZArith String Ascii List Floats Lia Permutation Bool Sorted.
From stdpp Require Import base option list strings pretty gmap.

Local Open Scope string_scope.
Local Open Scope list_scope.

(** ** Exceptions and results *)

Inductive exn : Set :=
| ValueError
| IndexError
| OverflowError
| UnboundLocalError.

Inductive result (A : Type) : Type :=
| Ok (a : A)
| Raise (e : exn).

Arguments Ok {A} a.
Arguments Raise {A} e.

Definition bind {A C : Type} (r : result A) (k : A -> result C) : result C :=
  match r with
  | Ok a => k a
  | Raise e => Raise e
  end.

Notation "'do' x <- r ; k" := (bind r (fun x => k))
  (at level 10, x name, r at level 100, k at level 200).

(** [opt_or o e]: the value of a partial library call, or the exception it
    raises. *)
Definition opt_or {A : Type} (o : option A) (e : exn) : result A :=
  match o with
  | Some a => Ok a
  | None => Raise e
  end.

Fixpoint mapM {A C : Type} (f : A -> result C) (l : list A) : result (list C) :=
  match l with
  | [] => Ok []
  | x :: l' => do y <- f x; do ys <- mapM f l'; Ok (y :: ys)
  end.

Definition is_ok {A : Type} (r : result A) : bool :=
  match r with
  | Ok _ => true
  | Raise _ => false
  end.

(** ** Strings as Python reads them *)

(** [str.isspace] on the code points below 256. *)
Definition py_isspace (c : ascii) : bool :=
  let n := nat_of_ascii c in
  ((9 <=? n)%nat && (n <=? 13)%nat) || ((28 <=? n)%nat && (n <=? 32)%nat)
  || (n =? 133)%nat || (n =? 160)%nat.

(** [s.split()]: the maximal runs of non-blank characters.  [cur] is the
    token being read, reversed. *)
Fixpoint split_go (cur : list ascii) (s : string) : list string :=
  let flush := match cur with
               | [] => []
               | _ => [string_of_list_ascii (rev cur)]
               end in
  match s with
  | EmptyString => flush
  | String c s' =>
      if py_isspace c then flush ++ split_go [] s'
      else split_go (c :: cur) s'
  end.

Definition split (s : string) : list string := split_go [] s.

(** Truth value of a string and of a list: not empty. *)
Definition nonempty_str (s : string) : bool :=
  match s with
  | EmptyString => false
  | String _ _ => true
  end.

Definition nonempty_list {A : Type} (l : list A) : bool :=
  match l with
  | [] => false
  | _ :: _ => true
  end.

(** [l[i]] for a non-negative literal index [i]. *)
Definition index {A : Type} (l : list A) (i : nat) : result A :=
  opt_or (l !! i) IndexError.

(** [l[i]] for a computed index: negative indices count from the end. *)
Definition index_Z {A : Type} (l : list A) (i : Z) : result A :=
  let n := Z.of_nat (length l) in
  if (0 <=? i)%Z && (i <? n)%Z then opt_or (l !! Z.to_nat i) IndexError
  else if (- n <=? i)%Z && (i <? 0)%Z then opt_or (l !! Z.to_nat (n + i)) IndexError
  else Raise IndexError.

(** [s[a:b]] for literal bounds [0 <= a <= b]. *)
Definition slice (a b : nat) (s : string) : string := substring a (b - a) s.

(** [s[-2:]]. *)
Definition last_two (s : string) : string :=
  substring (String.length s - 2) 2 s.

(** [sep.join(l)]. *)
Definition join (sep : string) (l : list string) : string := String.concat sep l.

(** [needle in s]. *)
Fixpoint contains (needle s : string) : bool :=
  String.prefix needle s ||
  match s with
  | EmptyString => false
  | String _ s' => contains needle s'
  end.

(** [str(n)] for an [int]. *)
Definition str_of_int (n : Z) : string := pretty n.

(** [f"{n:02d}"]: the sign counts in the width. *)
Definition format_02d (n : Z) : string :=
  if (0 <=? n)%Z && (n <? 10)%Z then "0" +:+ str_of_int n else str_of_int n.

(** ** Floats as Python reads them *)

(** Truth value of a float: everything but the two zeros. *)
Definition truthy (x : float) : bool := negb (x =? 0)%float.

(** [int(x)]: truncation towards zero; [nan] raises [ValueError] and an
    infinity raises [OverflowError]. *)
Definition int_of_float (x : float) : result Z :=
  match Prim2SF x with
  | S754_zero _ => Ok 0%Z
  | S754_infinity _ => Raise OverflowError
  | S754_nan => Raise ValueError
  | S754_finite s m e =>
      let a := match e with
               | Z0 => Zpos m
               | Zpos p => Z.shiftl (Zpos m) (Zpos p)
               | Zneg p => Z.shiftr (Zpos m) (Zpos p)
               end in
      Ok (if s then (- a)%Z else a)
  end.

(** The "not applicable" marker of the platform, 1.7976931348623157e+308:
    the largest finite binary64 value. *)
Definition MAX_FLOAT_SENTINEL : float := 0x1.fffffffffffffp+1023%float.

(** ** Library routines *)

Record datetime : Set := mk_datetime {
  dt_year : Z; dt_month : Z; dt_day : Z;
  dt_hour : Z; dt_minute : Z; dt_second : Z
}.

Record PyBuiltins : Type := {
  (** [datetime.strptime(s, fmt)]; [None] when it raises. *)
  strptime : string -> string -> option datetime;
  (** [dt.strftime(fmt)]. *)
  strftime : datetime -> string -> string;
  (** [int(s)] on a string; [None] for [ValueError]. *)
  int_of_str : string -> option Z;
  (** [float(s)] on a string; [None] for [ValueError]. *)
  float_of_str : string -> option float;
  (** [str(x)] on a float, as an f-string renders it. *)
  str_of_float : float -> string;
  (** [sorted(l, key=key, reverse=rev)]. *)
  sorted : forall A : Type, (A -> float) -> bool -> list A -> list A
}.

Arguments sorted _ {A} _ _ _.

(** ** Data model *)

(** The [Contract] and [Execution] objects the terminal hands to
    [execDetails]: the attributes [process_executions] reads. *)
Record Contract : Set := {
  symbol : string;
  secType : string;
  currency : string;
  exchange : string;
  lastTradeDateOrContractMonth : string;
  strike : float;
  right : string
}.

Record Execution : Set := {
  acctNumber : string;
  side : string;
  time : string;
  shares : float;
  price : float;
  execId : string;
  orderRef : string
}.

(** The value stored under ['realizedPNL']: the code asks whether it is
    [None], whether it is a [float], and otherwise converts it. *)
Inductive pnl_value : Set :=
| PnlNone
| PnlFloat (x : float)
| PnlStr (s : string).

(** One entry of [app.commission_report], written by [commissionReport]. *)
Record CommissionEntry : Set := {
  commission : float;
  cr_currency : string;
  realizedPNL : pnl_value
}.

(** [TradingApp]: the two feeds collected from one connection. *)
Record TradingApp : Type := {
  executions : list (Contract * Execution);
  commission_report : gmap string CommissionEntry
}.

(** A trade of the ledger.  [None] in the two PnL fields is the empty
    string [''] of the code. *)
Record Trade : Set := mk_trade {
  Account : string;
  Action : string;
  Date_Time : string;
  Quantity : float;
  Symbol : string;
  Security_Info : string;
  Currency : string;
  Price : float;
  Commission : float;
  Unrealized_PnL : option float;
  Realized_PnL : option float;
  Exchange : string
}.

(** [trade['Action'] = a], [trade['Security_Info'] = s] and
    [trade['Realized_PnL'] = x]. *)
Definition set_Action (a : string) (t : Trade) : Trade :=
  mk_trade (Account t) a (Date_Time t) (Quantity t) (Symbol t)
    (Security_Info t) (Currency t) (Price t) (Commission t)
    (Unrealized_PnL t) (Realized_PnL t) (Exchange t).

Definition set_Security_Info (s : string) (t : Trade) : Trade :=
  mk_trade (Account t) (Action t) (Date_Time t) (Quantity t) (Symbol t)
    s (Currency t) (Price t) (Commission t)
    (Unrealized_PnL t) (Realized_PnL t) (Exchange t).

Definition set_Realized_PnL (x : float) (t : Trade) : Trade :=
  mk_trade (Account t) (Action t) (Date_Time t) (Quantity t) (Symbol t)
    (Security_Info t) (Currency t) (Price t) (Commission t)
    (Unrealized_PnL t) (Some x) (Exchange t).

Definition month_names : list string :=
  ["JAN"; "FEB"; "MAR"; "APR"; "MAY"; "JUN";
   "JUL"; "AUG"; "SEP"; "OCT"; "NOV"; "DEC"].

Definition TWS_FORMAT : string := "%Y%m%d  %H:%M:%S".
Definition DISPLAY_FORMAT : string := "%d.%m.%Y %H:%M:%S".

(** ** [TradingApp]: the callbacks

    The object of class [TradingApp] while its connection runs, and the
    three callbacks of lines 20-37.  The calls to [super()] log the
    answer and change nothing. *)

(** The argument of [commissionReport]: the attributes the callback
    reads. *)
Record CommissionReport : Set := {
  report_execId : string;
  report_commission : float;
  report_currency : string;
  report_realizedPNL : pnl_value
}.

Record Client : Type := {
  client_id : Z;
  port : Z;
  feeds : TradingApp;
  is_ready : bool
}.

(** Lines 12-18. *)
Definition TradingApp_init (client_id port : Z) : Client :=
  {| client_id := client_id;
     port := port;
     feeds := {| executions := []; commission_report := ∅ |};
     is_ready := false |}.

(** Lines 20-25. *)
Definition execDetails (self : Client) (reqId : Z) (contract : Contract)
    (execution : Execution) : Client :=
  {| client_id := client_id self;
     port := port self;
     feeds := {| executions := executions (feeds self) ++ [(contract, execution)];
                 commission_report := commission_report (feeds self) |};
     is_ready := is_ready self |}.

(** Lines 27-29. *)
Definition execDetailsEnd (self : Client) (reqId : Z) : Client :=
  {| client_id := client_id self;
     port := port self;
     feeds := feeds self;
     is_ready := true |}.

(** Lines 33-37: the entry stored under the [execId] of the report. *)
Definition entry_of (commreport : CommissionReport) : CommissionEntry :=
  {| commission := report_commission commreport;
     cr_currency := report_currency commreport;
     realizedPNL := report_realizedPNL commreport |}.

(** Lines 31-37. *)
Definition commissionReport (self : Client) (commreport : CommissionReport) : Client :=
  {| client_id := client_id self;
     port := port self;
     feeds := {| executions := executions (feeds self);
                 commission_report :=
                   <[report_execId commreport := entry_of commreport]>
                     (commission_report (feeds self)) |};
     is_ready := is_ready self |}.

(** One call the API thread makes on the object. *)
Inductive callback : Set :=
| ExecDetails (reqId : Z) (contract : Contract) (execution : Execution)
| ExecDetailsEnd (reqId : Z)
| CommissionReportOf (commreport : CommissionReport).

Definition deliver (self : Client) (m : callback) : Client :=
  match m with
  | ExecDetails reqId contract execution => execDetails self reqId contract execution
  | ExecDetailsEnd reqId => execDetailsEnd self reqId
  | CommissionReportOf commreport => commissionReport self commreport
  end.

(** The calls of a run of the API thread, in the order they are made. *)
Definition receive (self : Client) (ms : list callback) : Client :=
  fold_left deliver ms self.

(** The executions, the reports and the end marks among the calls. *)
Definition exec_details (ms : list callback) : list (Contract * Execution) :=
  flat_map (fun m => match m with
                     | ExecDetails _ contract execution => [(contract, execution)]
                     | _ => []
                     end) ms.

Definition reports (ms : list callback) : list CommissionReport :=
  flat_map (fun m => match m with
                     | CommissionReportOf commreport => [commreport]
                     | _ => []
                     end) ms.

Definition ended (ms : list callback) : bool :=
  existsb (fun m => match m with ExecDetailsEnd _ => true | _ => false end) ms.

(** The last report the calls carry for an [execId]. *)
Definition last_report (id : string) (ms : list callback) : option CommissionReport :=
  list.last (List.filter (fun r => String.eqb (report_execId r) id) (reports ms)).

(** What lines 45-70 of [get_trade_data_from_connection] leave of a
    connection: [connect] raised, the socket is not connected at line 54,
    or the calls the API thread has made on the object when line 72 reads
    it.  [print], [sleep] and [disconnect] are taken to return. *)
Inductive link : Set :=
| ConnectRaises
| NotConnected
| Delivered (ms : list callback).

(** ** Sorting by a float key

    [sorted] computes the keys once and compares them with [<] only; it is
    stable, and [reverse=True] keeps the order of equal keys.  On keys
    without a [nan] the outcome does not depend on the algorithm: it is
    the one of the insertion sort below. *)

Fixpoint insert_by {A : Type} (key : A -> float) (x : A) (l : list A) : list A :=
  match l with
  | [] => [x]
  | y :: l' => if (key x <? key y)%float then x :: l else y :: insert_by key x l'
  end.

Definition stable_sort {A : Type} (key : A -> float) (reverse : bool) (l : list A)
  : list A :=
  if reverse
  then rev (fold_left (fun acc x => insert_by key x acc) (rev l) [])
  else fold_left (fun acc x => insert_by key x acc) l [].

(** ** An executable instance of the library routines

    [py_ref] follows CPython on strings of code points below 256; it is
    what the concrete batches further down are evaluated with. *)

Module PyRef.

Definition is_digit (c : ascii) : bool :=
  let n := nat_of_ascii c in (48 <=? n)%nat && (n <=? 57)%nat.

Definition digit_val (c : ascii) : Z := Z.of_nat (nat_of_ascii c - 48).

Fixpoint lstrip (s : list ascii) : list ascii :=
  match s with
  | c :: s' => if py_isspace c then lstrip s' else s
  | [] => []
  end.

(** [s.strip()]. *)
Definition strip (s : list ascii) : list ascii := rev (lstrip (rev (lstrip s))).

(** A run of digits, single underscores allowed between two digits: the
    digits read (most significant first) and the rest of the input. *)
Fixpoint digit_run (acc : list Z) (s : list ascii) : list Z * list ascii :=
  match s with
  | c :: s' =>
      if is_digit c then digit_run (acc ++ [digit_val c]) s'
      else if Ascii.eqb c "_" && nonempty_list acc then
        match s' with
        | d :: s'' =>
            if is_digit d then digit_run (acc ++ [digit_val d]) s'' else (acc, s)
        | [] => (acc, s)
        end
      else (acc, s)
  | [] => (acc, s)
  end.

Definition digits_value (ds : list Z) : Z :=
  fold_left (fun n d => (10 * n + d)%Z) ds 0%Z.

(** An optional sign: [true] for a minus. *)
Definition read_sign (s : list ascii) : bool * list ascii :=
  match s with
  | c :: s' =>
      if Ascii.eqb c "-" then (true, s')
      else if Ascii.eqb c "+" then (false, s')
      else (false, s)
  | [] => (false, s)
  end.

(** [int(s)] in base ten. *)
Definition int_of_str (s : string) : option Z :=
  let '(neg, body) := read_sign (strip (list_ascii_of_string s)) in
  match digit_run [] body with
  | ((_ :: _) as ds, []) => Some (if neg then (- digits_value ds)%Z else digits_value ds)
  | _ => None
  end.

(** The binary64 value nearest to [m * 10^e10] (ties to even), for
    [m > 0]: the quotient is cut far below the last kept bit and the cut
    is remembered in a sticky bit. *)
Definition of_decimal_pos (neg : bool) (m e10 : Z) : float :=
  let sgn (z : Z) := if neg then (- z)%Z else z in
  if (310 <? e10)%Z then (if neg then neg_infinity else infinity)
  else if (e10 <? - (Z.log2 m + 400))%Z then (if neg then neg_zero else zero)
  else if (0 <=? e10)%Z then
    SF2Prim (binary_normalize prec emax (sgn (m * 10 ^ e10)%Z) 0 neg)
  else
    let den := (10 ^ (- e10))%Z in
    let s := (Z.log2 den + 1200)%Z in
    let num := Z.shiftl m s in
    let q := (num / den)%Z in
    let sticky := if (num mod den =? 0)%Z then 0%Z else 1%Z in
    SF2Prim (binary_normalize prec emax (sgn (2 * q + sticky)%Z) (- (s + 1)) neg).

Definition of_decimal (neg : bool) (m e10 : Z) : float :=
  if (m =? 0)%Z then (if neg then neg_zero else zero)
  else of_decimal_pos neg m e10.

Definition lower (c : ascii) : ascii :=
  let n := nat_of_ascii c in
  if (65 <=? n)%nat && (n <=? 90)%nat then ascii_of_nat (n + 32) else c.

(** The exponent part of a decimal literal, if there is one. *)
Definition read_exponent (s : list ascii) : option Z :=
  match s with
  | [] => Some 0%Z
  | c :: s' =>
      if Ascii.eqb (lower c) "e" then
        let '(neg, body) := read_sign s' in
        match digit_run [] body with
        | ((_ :: _) as ds, []) => Some (if neg then (- digits_value ds)%Z else digits_value ds)
        | _ => None
        end
      else None
  end.

(** [float(s)]. *)
Definition float_of_str (s : string) : option float :=
  let '(neg, body) := read_sign (strip (list_ascii_of_string s)) in
  let word := string_of_list_ascii (map lower body) in
  if String.eqb word "inf" || String.eqb word "infinity"
  then Some (if neg then neg_infinity else infinity)
  else if String.eqb word "nan" then Some nan
  else
    let '(ip, rest) := digit_run [] body in
    let '(fp, rest) :=
      match rest with
      | c :: rest' => if Ascii.eqb c "." then digit_run [] rest' else ([], rest)
      | [] => ([], rest)
      end in
    match ip ++ fp with
    | [] => None
    | _ :: _ =>
        match read_exponent rest with
        | Some e => Some (of_decimal neg (digits_value (ip ++ fp)) (e - Z.of_nat (length fp)))
        | None => None
        end
    end.

(** *** [datetime.strptime] and [strftime]

    The directives are those of the two formats of the program.  A
    directive matches as its regular expression in [_strptime] does:
    two digits before one. *)

Inductive fmt_token : Set :=
| Directive (d : ascii)
| Blank
| Literal (c : ascii).

Fixpoint tokenize (after_blank : bool) (fmt : list ascii) : list fmt_token :=
  match fmt with
  | [] => []
  | c :: rest =>
      if py_isspace c then
        if after_blank then tokenize true rest else Blank :: tokenize true rest
      else if Ascii.eqb c "%" then
        match rest with
        | d :: rest' => Directive d :: tokenize false rest'
        | [] => [Literal c]
        end
      else Literal c :: tokenize false rest
  end.

Definition two_digits (lo hi : Z) (s : list ascii) : list (Z * list ascii) :=
  match s with
  | a :: b :: rest =>
      let v := (10 * digit_val a + digit_val b)%Z in
      if is_digit a && is_digit b && (lo <=? v)%Z && (v <=? hi)%Z then [(v, rest)] else []
  | _ => []
  end.

Definition one_digit (lo : Z) (s : list ascii) : list (Z * list ascii) :=
  match s with
  | a :: rest => if is_digit a && (lo <=? digit_val a)%Z then [(digit_val a, rest)] else []
  | [] => []
  end.

Definition four_digits (s : list ascii) : list (Z * list ascii) :=
  match s with
  | a :: b :: c :: d :: rest =>
      if is_digit a && is_digit b && is_digit c && is_digit d
      then [(digits_value [digit_val a; digit_val b; digit_val c; digit_val d], rest)]
      else []
  | _ => []
  end.

(** The readings of a directive at the head of [s], first choice first. *)
Definition candidates (d : ascii) (s : list ascii) : list (Z * list ascii) :=
  if Ascii.eqb d "d" then
    two_digits 1 31 s ++ one_digit 1 s
    ++ match s with
       | sp :: rest => if Ascii.eqb sp " " then one_digit 1 rest else []
       | [] => []
       end
  else if Ascii.eqb d "m" then two_digits 1 12 s ++ one_digit 1 s
  else if Ascii.eqb d "Y" then four_digits s
  else if Ascii.eqb d "H" then two_digits 0 23 s ++ one_digit 0 s
  else if Ascii.eqb d "M" then two_digits 0 59 s ++ one_digit 0 s
  else if Ascii.eqb d "S" then two_digits 0 61 s ++ one_digit 0 s
  else [].

Definition set_field (d : ascii) (v : Z) (t : datetime) : datetime :=
  if Ascii.eqb d "d" then
    mk_datetime (dt_year t) (dt_month t) v (dt_hour t) (dt_minute t) (dt_second t)
  else if Ascii.eqb d "m" then
    mk_datetime (dt_year t) v (dt_day t) (dt_hour t) (dt_minute t) (dt_second t)
  else if Ascii.eqb d "Y" then
    mk_datetime v (dt_month t) (dt_day t) (dt_hour t) (dt_minute t) (dt_second t)
  else if Ascii.eqb d "H" then
    mk_datetime (dt_year t) (dt_month t) (dt_day t) v (dt_minute t) (dt_second t)
  else if Ascii.eqb d "M" then
    mk_datetime (dt_year t) (dt_month t) (dt_day t) (dt_hour t) v (dt_second t)
  else
    mk_datetime (dt_year t) (dt_month t) (dt_day t) (dt_hour t) (dt_minute t) v.

Fixpoint first_some {A C : Type} (f : A -> option C) (l : list A) : option C :=
  match l with
  | [] => None
  | x :: l' => match f x with Some y => Some y | None => first_some f l' end
  end.

(** The whole input has to be consumed. *)
Fixpoint strp_match (toks : list fmt_token) (s : list ascii) (acc : datetime)
  : option datetime :=
  match toks with
  | [] => match s with [] => Some acc | _ :: _ => None end
  | Literal c :: toks' =>
      match s with
      | a :: s' => if Ascii.eqb a c then strp_match toks' s' acc else None
      | [] => None
      end
  | Blank :: toks' =>
      match s with
      | a :: s' => if py_isspace a then strp_match toks' (lstrip s') acc else None
      | [] => None
      end
  | Directive d :: toks' =>
      first_some (fun vr => strp_match toks' vr.2 (set_field d vr.1 acc)) (candidates d s)
  end.

Definition is_leap (y : Z) : bool :=
  ((y mod 4 =? 0)%Z && negb (y mod 100 =? 0)%Z) || (y mod 400 =? 0)%Z.

Definition days_in_month (y m : Z) : Z :=
  if (m =? 2)%Z then (if is_leap y then 29%Z else 28%Z)
  else if (m =? 4)%Z || (m =? 6)%Z || (m =? 9)%Z || (m =? 11)%Z then 30%Z
  else 31%Z.

(** What the [datetime] constructor accepts. *)
Definition valid_datetime (t : datetime) : bool :=
  (1 <=? dt_year t)%Z && (dt_day t <=? days_in_month (dt_year t) (dt_month t))%Z
  && (dt_second t <=? 59)%Z.

Definition strptime (s fmt : string) : option datetime :=
  match strp_match (tokenize false (list_ascii_of_string fmt)) (list_ascii_of_string s)
          (mk_datetime 1900 1 1 0 0 0) with
  | Some t => if valid_datetime t then Some t else None
  | None => None
  end.

(** Two digits for the day, the month and the clock; the year as the C
    library of the platform prints it, without padding. *)
Definition pad2 (n : Z) : string := format_02d n.


Definition get_field (d : ascii) (t : datetime) : string :=
  if Ascii.eqb d "d" then pad2 (dt_day t)
  else if Ascii.eqb d "m" then pad2 (dt_month t)
  else if Ascii.eqb d "Y" then str_of_int (dt_year t)
  else if Ascii.eqb d "H" then pad2 (dt_hour t)
  else if Ascii.eqb d "M" then pad2 (dt_minute t)
  else if Ascii.eqb d "S" then pad2 (dt_second t)
  else String "%" (String d EmptyString).

Fixpoint strf_go (fmt : list ascii) (t : datetime) : string :=
  match fmt with
  | [] => ""
  | c :: rest =>
      if Ascii.eqb c "%" then
        match rest with
        | d :: rest' => get_field d t +:+ strf_go rest' t
        | [] => String c EmptyString
        end
      else String c (strf_go rest t)
  end.

Definition strftime (t : datetime) (fmt : string) : string :=
  strf_go (list_ascii_of_string fmt) t.

(** *** [repr] of a float: the shortest decimal that reads back as the
    same value, the nearest one among the shortest. *)

(** [num / den < 10^k]. *)
Definition below_pow10 (num den k : Z) : bool :=
  if (0 <=? k)%Z then (num <? den * 10 ^ k)%Z else (num * 10 ^ (- k) <? den)%Z.

(** The least [k] with [num / den < 10^k]: the position of the point. *)
Definition decimal_point (num den : Z) : Z :=
  let k0 := ((Z.log2 num - Z.log2 den - 1) * 30103 / 100000 - 1)%Z in
  match List.find (below_pow10 num den) (map (fun i => (k0 + Z.of_nat i)%Z) (seq 0 6)) with
  | Some k => k
  | None => (k0 + 6)%Z
  end.

(** The [n]-digit decimal for [x = num / den], if one reads back as [x]:
    its digits as an integer [c], standing for [c * 10^(k - n)]. *)
Definition try_digits (x : float) (num den k : Z) (n : Z) : option Z :=
  let p := (n - k)%Z in
  let N := if (0 <=? p)%Z then (num * 10 ^ p)%Z else num in
  let D := if (0 <=? p)%Z then den else (den * 10 ^ (- p))%Z in
  let lo := (N / D)%Z in
  let r := (N mod D)%Z in
  let back c := PrimFloat.eqb (of_decimal false c (k - n)) x in
  let lo_ok := back lo in
  let hi_ok := negb (r =? 0)%Z && back (lo + 1)%Z in
  if lo_ok && hi_ok then
    if (2 * r <? D)%Z then Some lo
    else if (D <? 2 * r)%Z then Some (lo + 1)%Z
    else Some (if Z.even lo then lo else (lo + 1)%Z)
  else if lo_ok then Some lo
  else if hi_ok then Some (lo + 1)%Z
  else None.

Fixpoint strip_zeros (rev_digits : list ascii) : list ascii :=
  match rev_digits with
  | c :: rest => if Ascii.eqb c "0" then strip_zeros rest else rev_digits
  | [] => []
  end.

Definition zeros (n : Z) : string := string_of_list_ascii (repeat "0"%char (Z.to_nat n)).

(** The layout [repr] gives to the digits [ds] with the point after
    [decpt] of them. *)
Definition layout (ds : string) (decpt : Z) : string :=
  let n := Z.of_nat (String.length ds) in
  if (decpt <=? -4)%Z || (16 <? decpt)%Z then
    let e := (decpt - 1)%Z in
    let mant := substring 0 1 ds +:+ (if (1 <? n)%Z then "." +:+ substring 1 (String.length ds - 1) ds else "") in
    let ea := Z.abs e in
    mant +:+ "e" +:+ (if (e <? 0)%Z then "-" else "+")
         +:+ (if (ea <? 10)%Z then "0" else "") +:+ str_of_int ea
  else if (decpt <=? 0)%Z then "0." +:+ zeros (- decpt) +:+ ds
  else if (n <=? decpt)%Z then ds +:+ zeros (decpt - n) +:+ ".0"
  else substring 0 (Z.to_nat decpt) ds +:+ "." +:+ substring (Z.to_nat decpt) (String.length ds - Z.to_nat decpt) ds.

Definition repr_finite (x : float) (m : positive) (e : Z) : string :=
  let num := match e with Zpos p => Z.shiftl (Zpos m) (Zpos p) | _ => Zpos m end in
  let den := match e with Zneg p => Z.shiftl 1 (Zpos p) | _ => 1%Z end in
  let k := decimal_point num den in
  match first_some (fun n => option_map (fun c => (c, n)) (try_digits x num den k n))
          (map Z.of_nat (seq 1 17)) with
  | Some (c, n) =>
      let all := str_of_int c in
      let ds := string_of_list_ascii (rev (strip_zeros (rev (list_ascii_of_string all)))) in
      layout ds (k - n + Z.of_nat (String.length all))
  | None => ""
  end.

Definition str_of_float (x : float) : string :=
  match Prim2SF x with
  | S754_nan => "nan"
  | S754_infinity s => if s then "-inf" else "inf"
  | S754_zero s => if s then "-0.0" else "0.0"
  | S754_finite s m e => (if s then "-" else "") +:+ repr_finite (abs x) m e
  end.

(** *** [sorted] *)

Definition sorted {A : Type} (key : A -> float) (reverse : bool) (l : list A) : list A :=
  stable_sort key reverse l.

End PyRef.

Definition py_ref : PyBuiltins := {|
  strptime := PyRef.strptime;
  strftime := PyRef.strftime;
  int_of_str := PyRef.int_of_str;
  float_of_str := PyRef.float_of_str;
  str_of_float := PyRef.str_of_float;
  sorted := @PyRef.sorted
|}.

(** ** Concrete records and batches

    The inputs the functions are evaluated on further down. *)

(** The legs of the combo netting example and primary legs for them. *)
Definition ex_leg_100 : Trade :=
  mk_trade "U100" "SLD" "01.03.2024 15:30:00" 1 "XYZ" "MAR'15'24 100 CALL"
    "USD" (-2.5) 1 None (Some 50%float) "CBOE".

Definition ex_leg_105 : Trade :=
  mk_trade "U100" "BOT" "01.03.2024 15:30:00" 1 "XYZ" "MAR'15'24 105 CALL"
    "USD" 1.25 1 None (Some (-20)%float) "CBOE".

Definition ex_primary : Trade :=
  mk_trade "U100" "BOT" "01.03.2024 15:30:00" 1 "XYZ" "MAR'15'24 100 CALL"
    "USD" 1.25 0 None (Some 12.5%float) "SMART".

(** The same primary leg carrying the plural marker. *)
Definition ex_primary_stocks : Trade :=
  set_Security_Info "STOCKS" ex_primary.

(** A second primary leg, and a stock record as primary leg. *)
Definition ex_primary_b : Trade :=
  mk_trade "U100" "SLD" "01.03.2024 15:30:00" 2 "XYZ" "MAR'15'24 105 CALL"
    "USD" 0.5 0 None None "SMART".

Definition two_primaries : list Trade := [ex_primary; ex_primary_b; ex_leg_100].

Definition ex_stock_primary : Trade :=
  mk_trade "U100" "BOT" "01.03.2024 15:30:00" 100 "XYZ" "STOCK"
    "USD" 99.5 0 None None "SMART".

Definition stock_combo : list Trade := [ex_stock_primary; ex_leg_100; ex_leg_105].

Definition ex_key : string * string := ("XYZ", "01.03.2024 15:30:00").

(** A leg whose descriptor stops after the strike. *)
Definition ex_leg_two_tokens : Trade :=
  mk_trade "U100" "SLD" "01.03.2024 15:30:00" 1 "XYZ" "MAR'15'24 100"
    "USD" (-2.5) 1 None (Some 50%float) "CBOE".

(** A batch of raw executions: a call delivered at expiry, the shares
    that change hands with it, and the sale that opened the position. *)
Definition xyz_call : Contract :=
  {| symbol := "XYZ"; secType := "OPT"; currency := "USD"; exchange := "CBOE";
     lastTradeDateOrContractMonth := "20240315"; strike := 100; right := "C" |}.

Definition xyz_stock : Contract :=
  {| symbol := "XYZ"; secType := "STK"; currency := "USD"; exchange := "NYSE";
     lastTradeDateOrContractMonth := ""; strike := 0; right := "" |}.

(** The option delivered at expiry: no price, no commission report. *)
Definition exec_delivery : Execution :=
  {| acctNumber := "U100"; side := "BOT"; time := "20240315  16:00:00";
     shares := 1; price := 0; execId := "0001"; orderRef := "" |}.

Definition exec_shares : Execution :=
  {| acctNumber := "U100"; side := "SLD"; time := "20240315  16:00:00";
     shares := 100; price := 100; execId := "0002"; orderRef := "" |}.

Definition exec_opening : Execution :=
  {| acctNumber := "U100"; side := "SLD"; time := "20240301  15:30:00";
     shares := 1; price := 2.5; execId := "0003"; orderRef := "OptTrader-7" |}.

Definition entry_shares : CommissionEntry :=
  {| commission := 1; cr_currency := "USD"; realizedPNL := PnlFloat 37.5 |}.

Definition entry_opening : CommissionEntry :=
  {| commission := 1.25; cr_currency := "USD";
     realizedPNL := PnlFloat MAX_FLOAT_SENTINEL |}.

Definition assignment_app : TradingApp :=
  {| executions := [(xyz_call, exec_delivery); (xyz_stock, exec_shares);
                    (xyz_call, exec_opening)];
     commission_report := <["0002" := entry_shares]> (<["0003" := entry_opening]> ∅) |}.

(** The records [process_executions] builds for them. *)
Definition rec_delivery : Trade :=
  mk_trade "U100" "EXPIRED" "15.03.2024 16:00:00" 1 "XYZ" "MAR'15'24 100.0 CALL"
    "USD" 0 0 None None "CBOE".

Definition rec_shares : Trade :=
  mk_trade "U100" "SLD" "15.03.2024 16:00:00" 100 "XYZ" "STOCK"
    "USD" 100 1 None (Some 37.5%float) "NYSE".

Definition rec_opening : Trade :=
  mk_trade "U100" "SLD" "01.03.2024 15:30:00" 1 "XYZ" "MAR'15'24 100.0 CALL"
    "USD" 2.5 1.25 (Some 248.75%float) None "CBOE".

Definition assignment_ledger : list Trade := [rec_delivery; rec_shares; rec_opening].

(** A currency pair: an instrument class the branch of lines 119-132 has
    no case for. *)
Definition eur_usd : Contract :=
  {| symbol := "EUR"; secType := "CASH"; currency := "USD"; exchange := "IDEALPRO";
     lastTradeDateOrContractMonth := ""; strike := 0; right := "" |}.

(** An option whose expiry came empty, and one whose month is 13. *)
Definition xyz_call_no_expiry : Contract :=
  {| symbol := "XYZ"; secType := "OPT"; currency := "USD"; exchange := "CBOE";
     lastTradeDateOrContractMonth := ""; strike := 100; right := "C" |}.

Definition xyz_call_month_13 : Contract :=
  {| symbol := "XYZ"; secType := "OPT"; currency := "USD"; exchange := "CBOE";
     lastTradeDateOrContractMonth := "20241315"; strike := 100; right := "C" |}.

(** A combination whose leg off [SMART] has an infinite strike. *)
Definition xyz_call_unbounded : Contract :=
  {| symbol := "XYZ"; secType := "OPT"; currency := "USD"; exchange := "CBOE";
     lastTradeDateOrContractMonth := "20240315"; strike := infinity; right := "C" |}.

Definition xyz_call_smart : Contract :=
  {| symbol := "XYZ"; secType := "OPT"; currency := "USD"; exchange := "SMART";
     lastTradeDateOrContractMonth := "20240315"; strike := 100; right := "C" |}.

Definition exec_credit : Execution :=
  {| acctNumber := "U100"; side := "SLD"; time := "20240301  15:30:00";
     shares := 1; price := -1.5; execId := "0004"; orderRef := "" |}.

Definition one_execution (contract : Contract) : TradingApp :=
  {| executions := [(contract, exec_opening)]; commission_report := ∅ |}.

Definition unbounded_app : TradingApp :=
  {| executions := [(xyz_call_unbounded, exec_credit); (xyz_call_smart, exec_opening)];
     commission_report := ∅ |}.

(** Group [ABC]: a stock leg off [SMART], whose descriptor has no second
    token, with an option at a negative price. *)
Definition abc_stock_leg : Trade :=
  mk_trade "U100" "BOT" "01.03.2024 15:30:00" 100 "ABC" "STOCK"
    "USD" 50 1 None None "NYSE".

Definition abc_option : Trade :=
  mk_trade "U100" "SLD" "01.03.2024 15:30:00" 1 "ABC" "MAR'15'24 55.0 CALL"
    "USD" (-1.5) 1 None None "SMART".

(** Group [XYZ]: a leg off [SMART] whose strike reads as an infinity. *)
Definition xyz_unbounded_leg : Trade :=
  mk_trade "U100" "SLD" "01.03.2024 15:30:00" 1 "XYZ" "MAR'15'24 inf CALL"
    "USD" (-1.5) 0 None None "CBOE".

Definition overflow_batch : list Trade :=
  [abc_stock_leg; abc_option; xyz_unbounded_leg; ex_primary].

(** A stock followed by a currency pair, and the records
    [process_executions] builds for them. *)
Definition mixed_app : TradingApp :=
  {| executions := [(xyz_stock, exec_shares); (eur_usd, exec_opening)];
     commission_report := ∅ |}.

Definition mixed_ledger : list Trade :=
  [mk_trade "U100" "SLD" "15.03.2024 16:00:00" 100 "XYZ" "STOCK"
     "USD" 100 0 None None "NYSE";
   mk_trade "U100" "SLD" "01.03.2024 15:30:00" 1 "EUR" "STOCK"
     "USD" 2.5 0 (Some 250%float) None "IDEALPRO"].

(** The calls of one connection: a report comes before its execution, and
    the report of the shares comes twice. *)
Definition report_opening : CommissionReport :=
  {| report_execId := "0003"; report_commission := 1.25; report_currency := "USD";
     report_realizedPNL := PnlFloat MAX_FLOAT_SENTINEL |}.

Definition report_shares_early : CommissionReport :=
  {| report_execId := "0002"; report_commission := 0; report_currency := "USD";
     report_realizedPNL := PnlFloat MAX_FLOAT_SENTINEL |}.

Definition report_shares : CommissionReport :=
  {| report_execId := "0002"; report_commission := 1; report_currency := "USD";
     report_realizedPNL := PnlFloat 37.5 |}.

Definition assignment_calls : list callback :=
  [CommissionReportOf report_opening;
   ExecDetails 1 xyz_call exec_delivery;
   ExecDetails 1 xyz_stock exec_shares;
   CommissionReportOf report_shares_early;
   ExecDetails 1 xyz_call exec_opening;
   CommissionReportOf report_shares;
   ExecDetailsEnd 1].

Definition unbounded_calls : list callback :=
  [ExecDetails 1 xyz_call_unbounded exec_credit;
   ExecDetails 1 xyz_call_smart exec_opening;
   ExecDetailsEnd 1].

(** The ports of two accounts, the second of which does not answer. *)
Definition two_ports : list (Z * link) :=
  [(7496%Z, Delivered assignment_calls); (7497%Z, NotConnected)].

Definition unbounded_port : list (Z * link) :=
  [(7496%Z, NotConnected); (7497%Z, Delivered unbounded_calls)].

(** The ledger of the combo netting example. *)
Definition ex_merged : Trade :=
  set_Realized_PnL 42.5 (set_Security_Info "MAR'15'24 105/100" ex_primary).

Section Ledger.

Variable B : PyBuiltins.

(** ** [process_executions] *)

(** Line 95. *)
Definition initial_action (execution : Execution) : string :=
  if String.eqb (side execution) "BOT" then "BOT" else "SLD".

(** Lines 98-103: a time that does not parse is kept as it is. *)
Definition exec_time (execution : Execution) : string :=
  match strptime B (time execution) TWS_FORMAT with
  | Some dt => strftime B dt DISPLAY_FORMAT
  | None => time execution
  end.

(** Lines 122-132: the descriptor of an option or a future option. *)
Definition option_security_info (contract : Contract) : result string :=
  let expiry_date_str := lastTradeDateOrContractMonth contract in
  do year <- opt_or (int_of_str B (slice 0 4 expiry_date_str)) ValueError;
  do month <- opt_or (int_of_str B (slice 4 6 expiry_date_str)) ValueError;
  do day <- opt_or (int_of_str B (slice 6 8 expiry_date_str)) ValueError;
  do month_name <- index_Z month_names (month - 1);
  let formatted_date :=
    month_name +:+ "'" +:+ format_02d day +:+ "'" +:+ last_two (str_of_int year) in
  let option_strike := strike contract in
  let option_right := if String.eqb (right contract) "C" then "CALL" else "PUT" in
  Ok (formatted_date +:+ " " +:+ str_of_float B option_strike +:+ " " +:+ option_right).

(** Lines 119-132.  [security_info] is a local of the function and the
    branch has no [else]: for another instrument class the name keeps the
    value of the previous iteration ([None]: never assigned). *)
Definition security_info_after (prev : option string) (contract : Contract)
  : result (option string) :=
  let sec_type := secType contract in
  if String.eqb sec_type "STK" then Ok (Some "STOCK")
  else if String.eqb sec_type "OPT" || String.eqb sec_type "FOP" then
    do s <- option_security_info contract; Ok (Some s)
  else Ok prev.

(** Lines 135-139. *)
Definition commission_lookup (app : TradingApp) (execution : Execution)
  : float * pnl_value :=
  match commission_report app !! execId execution with
  | Some entry => (commission entry, realizedPNL entry)
  | None => (0%float, PnlNone)
  end.

(** Lines 152-165; a [ValueError] of the conversion is caught. *)
Definition realized_pnl_of (realized_pnl_from_tws : pnl_value) : option float :=
  match realized_pnl_from_tws with
  | PnlNone => None
  | PnlFloat x =>
      if negb (abs x =? MAX_FLOAT_SENTINEL)%float then Some x else None
  | PnlStr s => float_of_str B s
  end.

(** Lines 141-142. *)
Definition expired_override (price commission_value : float) (action : string) : string :=
  if (price =? 0)%float && (commission_value =? 0)%float then "EXPIRED" else action.

(** One iteration of the loop of lines 87-180: the trade appended and the
    value [security_info] is left with. *)
Definition normalize (app : TradingApp) (prev : option string)
    (exec_info : Contract * Execution) : result (Trade * option string) :=
  let contract := exec_info.1 in
  let execution := exec_info.2 in
  let account := acctNumber execution in
  let action := initial_action execution in
  let quantity := shares execution in
  let price := price execution in
  do bound <- security_info_after prev contract;
  let commission_value := (commission_lookup app execution).1 in
  let realized_pnl_from_tws := (commission_lookup app execution).2 in
  let action := expired_override price commission_value action in
  let unrealized_pnl :=
    if contains "OptTrader" (orderRef execution)
    then Some (price * 100 - commission_value)%float else None in
  let realized_pnl := realized_pnl_of realized_pnl_from_tws in
  do security_info <- opt_or bound UnboundLocalError;
  Ok (mk_trade account action (exec_time execution) quantity (symbol contract)
        security_info (currency contract) price commission_value
        unrealized_pnl realized_pnl (exchange contract),
      bound).

Fixpoint process_loop (app : TradingApp) (prev : option string)
    (l : list (Contract * Execution)) (trade_data : list Trade)
  : result (list Trade) :=
  match l with
  | [] => Ok trade_data
  | exec_info :: l' =>
      do r <- normalize app prev exec_info;
      process_loop app r.2 l' (trade_data ++ [r.1])
  end.

Definition process_executions (app : TradingApp) : result (list Trade) :=
  process_loop app None (executions app) [].

(** ** [mark_assigned_options] *)

Definition has_key (key : string * string)
    (stock_trades : gmap (string * string) (list Trade)) : bool :=
  match stock_trades !! key with
  | Some _ => true
  | None => false
  end.

(** Lines 188-193. *)
Definition stock_index_step (stock_trades : gmap (string * string) (list Trade))
    (trade : Trade) : gmap (string * string) (list Trade) :=
  if String.eqb (Security_Info trade) "STOCK" then
    let key := (Symbol trade, Date_Time trade) in
    let stock_trades :=
      if has_key key stock_trades then stock_trades else <[key := []]> stock_trades in
    <[key := default [] (stock_trades !! key) ++ [trade]]> stock_trades
  else stock_trades.

Definition stock_index (trade_data : list Trade) : gmap (string * string) (list Trade) :=
  fold_left stock_index_step trade_data ∅.

(** [action in ['ASSIGNED', 'BOT', 'SLD']]. *)
Definition classified (action : string) : bool :=
  existsb (String.eqb action) ["ASSIGNED"; "BOT"; "SLD"].

(** Lines 196-202: the label written to [trade['Action']], if one is. *)
Definition relabel (stock_trades : gmap (string * string) (list Trade))
    (trade : Trade) : option string :=
  if negb (String.eqb (Security_Info trade) "STOCK")
     && (Price trade =? 0)%float && (Commission trade =? 0)%float then
    let key := (Symbol trade, Date_Time trade) in
    if has_key key stock_trades then Some "ASSIGNED"
    else if negb (classified (Action trade)) then Some "EXPIRED"
    else None
  else None.

(** The second loop visits the positions of the list in order; the state
    is the list, updated in place, and the log of the writes to
    ['Action']: position and label. *)
Definition mark_step (stock_trades : gmap (string * string) (list Trade))
    (st : list Trade * list (nat * string)) (i : nat)
  : list Trade * list (nat * string) :=
  match st.1 !! i with
  | Some trade =>
      match relabel stock_trades trade with
      | Some a => (<[i := set_Action a trade]> st.1, st.2 ++ [(i, a)])
      | None => st
      end
  | None => st
  end.

Definition mark_assigned_options_log (trade_data : list Trade)
  : list Trade * list (nat * string) :=
  fold_left (mark_step (stock_index trade_data))
    (seq 0 (length trade_data)) (trade_data, []).

Definition mark_assigned_options (trade_data : list Trade) : list Trade :=
  (mark_assigned_options_log trade_data).1.

(** ** [process_combos] *)

(** The three destinations of the first loop (lines 214-224). *)
Inductive bucket : Set :=
| Stocks
| Grouped (time_key : string * string)
| ParseError.

Definition time_key_eqb (k1 k2 : string * string) : bool :=
  String.eqb k1.1 k2.1 && String.eqb k1.2 k2.2.

Definition classify (trade : Trade) : bucket :=
  if String.eqb (Security_Info trade) "STOCKS" then Stocks
  else
    match strptime B (Date_Time trade) DISPLAY_FORMAT with
    | Some trade_time => Grouped (Symbol trade, strftime B trade_time DISPLAY_FORMAT)
    | None => ParseError
    end.

(** [trade_groups[time_key].append(trade)] on a [defaultdict(list)]: the
    keys stay in the order of their first insertion. *)
Fixpoint groups_append (time_key : string * string) (trade : Trade)
    (trade_groups : list ((string * string) * list Trade))
  : list ((string * string) * list Trade) :=
  match trade_groups with
  | [] => [(time_key, [trade])]
  | (k, trades) :: rest =>
      if time_key_eqb time_key k then (k, trades ++ [trade]) :: rest
      else (k, trades) :: groups_append time_key trade rest
  end.

Record buckets : Set := mk_buckets {
  trade_groups : list ((string * string) * list Trade);
  stocks_trades : list Trade;
  parse_error_trades : list Trade
}.

Definition bucket_step (st : buckets) (trade : Trade) : buckets :=
  match classify trade with
  | Stocks =>
      mk_buckets (trade_groups st) (stocks_trades st ++ [trade]) (parse_error_trades st)
  | Grouped time_key =>
      mk_buckets (groups_append time_key trade (trade_groups st))
        (stocks_trades st) (parse_error_trades st)
  | ParseError =>
      mk_buckets (trade_groups st) (stocks_trades st) (parse_error_trades st ++ [trade])
  end.

Definition fill_buckets (trade_data : list Trade) : buckets :=
  fold_left bucket_step trade_data (mk_buckets [] [] []).

Definition is_smart (trade : Trade) : bool := String.eqb (Exchange trade) "SMART".

(** [float(x['Security_Info'].split()[1])]. *)
Definition strike_of (trade : Trade) : result float :=
  do token <- index (split (Security_Info trade)) 1;
  opt_or (float_of_str B token) ValueError.

(** Lines 239-249: the descriptor of the combination. *)
Definition combined_info (non_smart_trades : list Trade) : result string :=
  do sorted_trades <-
    match non_smart_trades with
    | [] => Ok []
    | _ :: _ =>
        do keys <- mapM strike_of non_smart_trades;
        Ok (map snd (sorted B fst false (combine keys non_smart_trades)))
    end;
  do strikes <- mapM strike_of sorted_trades;
  do types <- mapM (fun trade => index (split (Security_Info trade)) 2) sorted_trades;
  do expiry_date <-
    match sorted_trades with
    | first :: _ => index (split (Security_Info first)) 0
    | [] => Ok ""
    end;
  if nonempty_list strikes && nonempty_str expiry_date then
    do first_two_strikes <-
      mapM (fun s => do n <- int_of_float s; Ok (str_of_int n))
           (take 2 (sorted B (fun s => s) true strikes));
    let strike_str := join "/" first_two_strikes in
    Ok (expiry_date +:+ " " +:+ strike_str)
  else Ok "".

(** Lines 251-257. *)
Definition pnl_step (pnl_sum : float) (trade : Trade) : float :=
  match Realized_PnL trade with
  | Some x => if truthy x then (pnl_sum + x)%float else pnl_sum
  | None => pnl_sum
  end.

Definition net_pnl (non_smart_trades : list Trade) : float :=
  fold_left pnl_step non_smart_trades 0%float.

(** Lines 261-271: the updates of one primary leg. *)
Definition fold_into (combined_security_info : string) (pnl_sum : float)
    (trade : Trade) : Trade :=
  let trade :=
    if nonempty_str combined_security_info
    then set_Security_Info combined_security_info trade else trade in
  if negb (pnl_sum =? 0)%float then
    match Realized_PnL trade with
    | Some current_pnl =>
        if truthy current_pnl
        then set_Realized_PnL (current_pnl + pnl_sum)%float trade
        else set_Realized_PnL pnl_sum trade
    | None => set_Realized_PnL pnl_sum trade
    end
  else trade.

(** Line 236. *)
Definition non_smart (trades : list Trade) : list Trade :=
  List.filter (fun t => negb (is_smart t)) trades.

(** The body of the [try] (lines 239-276): what the group appends to
    [processed_trades]. *)
Definition merge_combo (trades : list Trade) : result (list Trade) :=
  let non_smart_trades := non_smart trades in
  do combined_security_info <- combined_info non_smart_trades;
  let pnl_sum := net_pnl non_smart_trades in
  Ok (map (fold_into combined_security_info pnl_sum) (List.filter is_smart trades)
      ++ (if existsb is_smart trades then [] else trades)).

(** Line 233. *)
Definition has_negative (trades : list Trade) : bool :=
  existsb (fun trade => (Price trade <? 0)%float) trades.

(** Lines 228-283: one group.  The handler of line 278 catches
    [IndexError] and [ValueError]; nothing has been appended or updated
    when one of them is raised. *)
Definition process_group (trades : list Trade) : result (list Trade) :=
  if (length trades <=? 1)%nat then Ok trades
  else if has_negative trades then
    match merge_combo trades with
    | Ok out => Ok out
    | Raise IndexError => Ok trades
    | Raise ValueError => Ok trades
    | Raise e => Raise e
    end
  else Ok trades.

Fixpoint process_groups (groups : list ((string * string) * list Trade))
    (processed_trades : list Trade) : result (list Trade) :=
  match groups with
  | [] => Ok processed_trades
  | (_, trades) :: rest =>
      do out <- process_group trades;
      process_groups rest (processed_trades ++ out)
  end.

Definition process_combos (trade_data : list Trade) : result (list Trade) :=
  let st := fill_buckets trade_data in
  do processed_trades <- process_groups (trade_groups st) [];
  Ok (processed_trades ++ stocks_trades st ++ parse_error_trades st).

(** ** The core: the three stages in sequence *)

Definition core_pipeline (app : TradingApp) : result (list Trade) :=
  do trade_data <- process_executions app;
  process_combos (mark_assigned_options trade_data).

(** ** [get_trade_data_from_connection], [save_to_excel] and [main] *)

(** Lines 39-81; every exception of the model is an [Exception], and the
    handler of line 76 takes it. *)
Definition get_trade_data_from_connection (port client_id : Z) (l : link)
  : list Trade :=
  let app := TradingApp_init client_id port in
  match l with
  | ConnectRaises => []
  | NotConnected => []
  | Delivered ms =>
      match process_executions (feeds (receive app ms)) with
      | Ok trade_data => trade_data
      | Raise _ => []
      end
  end.

(** Lines 290-297: the rows [save_to_excel] hands to [pandas], [None]
    when it returns at line 294. *)
Definition save_to_excel_rows (data : list Trade) : result (option (list Trade)) :=
  if negb (nonempty_list data) then Ok None
  else
    let data := mark_assigned_options data in
    do processed_data <- process_combos data;
    Ok (Some processed_data).

(** Lines 331-340: [i] counts the ports from 0. *)
Fixpoint main_loop (i : Z) (links : list (Z * link)) (all_trade_data : list Trade)
  : list Trade :=
  match links with
  | [] => all_trade_data
  | (port, l) :: links' =>
      let trade_data := get_trade_data_from_connection port (i + 1) l in
      main_loop (i + 1) links'
        (if nonempty_list trade_data then all_trade_data ++ trade_data
         else all_trade_data)
  end.

(** Lines 323-347, for the ports of [links] and what each connection
    leaves. *)
Definition main (links : list (Z * link)) : result (option (list Trade)) :=
  let all_trade_data := main_loop 0 links [] in
  if nonempty_list all_trade_data then save_to_excel_rows all_trade_data
  else Ok None.

(** ** Vocabulary of the statements *)

(** The three kinds of record the first loop of [process_combos] tells
    apart. *)
Definition is_stocks (trade : Trade) : bool :=
  String.eqb (Security_Info trade) "STOCKS".

Definition unparsed (trade : Trade) : bool :=
  negb (is_stocks trade)
  && match strptime B (Date_Time trade) DISPLAY_FORMAT with
     | Some _ => false
     | None => true
     end.

Definition in_group (time_key : string * string) (trade : Trade) : bool :=
  match classify trade with
  | Grouped k => time_key_eqb k time_key
  | _ => false
  end.

(** Floats [int] converts, and floats it overflows on. *)
Definition is_finite (x : float) : bool :=
  match Prim2SF x with
  | S754_zero _ | S754_finite _ _ _ => true
  | _ => false
  end.

Definition is_inf (x : float) : bool :=
  match Prim2SF x with
  | S754_infinity _ => true
  | _ => false
  end.

(** No strike token of the batch reads as an infinity. *)
Definition finite_strikes (trade_data : list Trade) : Prop :=
  forall trade x, In trade trade_data -> strike_of trade = Ok x -> is_inf x = false.

(** The group is merged into its primary legs: more than one member, a
    negative price, a member on [SMART], and a descriptor computed
    without an exception. *)
Definition merged (trades : list Trade) : bool :=
  (1 <? length trades)%nat && has_negative trades && existsb is_smart trades
  && is_ok (combined_info (non_smart trades)).

(** The number of records a group leaves in the ledger. *)
Definition ledger_share (trades : list Trade) : nat :=
  if merged trades then length (List.filter is_smart trades) else length trades.

(** What the statements below use of [sorted]: it permutes its input, and
    on keys that are all numbers it is the stable sort. *)
Record PyLaws : Prop := {
  sorted_perm :
    forall (A : Type) (key : A -> float) (reverse : bool) (l : list A),
      Permutation (sorted B key reverse l) l;
  sorted_stable :
    forall (A : Type) (key : A -> float) (reverse : bool) (l : list A),
      Forall (fun x => is_nan (key x) = false) l ->
      sorted B key reverse l = stable_sort key reverse l
}.


(** ** Groups, legs and descriptors, read off the batch

    The vocabulary of section 4.3 of the specification, defined on the
    batch alone. *)

(** The key a record is grouped under: its symbol and its time, read in
    the display format and printed back.  A [STOCKS] record and a record
    whose time does not read have none. *)
Definition group_key (trade : Trade) : option (string * string) :=
  if is_stocks trade then None
  else
    match strptime B (Date_Time trade) DISPLAY_FORMAT with
    | Some dt => Some (Symbol trade, strftime B dt DISPLAY_FORMAT)
    | None => None
    end.

Definition keyed (k : string * string) (trade : Trade) : bool :=
  match group_key trade with
  | Some k' => time_key_eqb k' k
  | None => false
  end.

(** The group of a key: the records of the batch under it, in the order
    of the batch. *)
Definition members (k : string * string) (trade_data : list Trade) : list Trade :=
  List.filter (keyed k) trade_data.

(** The keys of the batch, each once. *)
Definition batch_keys (trade_data : list Trade) : list (string * string) :=
  remove_dups (omap group_key trade_data).

(** The members of a group on [SMART], its primary legs, and the other
    members, its legs. *)
Definition on_smart (trade : Trade) : bool := String.eqb (Exchange trade) "SMART".

Definition primaries_of (g : list Trade) : list Trade := List.filter on_smart g.

Definition legs_of (g : list Trade) : list Trade :=
  List.filter (fun trade => negb (on_smart trade)) g.

(** What a leg reads as: the expiry token and the strike of a descriptor
    of three tokens at least, the second of which is a number. *)
Definition leg_reads (trade : Trade) : option (string * float) :=
  match split (Security_Info trade) with
  | expiry :: strike :: _ :: _ =>
      match float_of_str B strike with
      | Some x => Some (expiry, x)
      | None => None
      end
  | _ => None
  end.

Definition reads (trade : Trade) : bool :=
  match leg_reads trade with
  | Some _ => true
  | None => false
  end.

(** The strikes of the legs, in the order of the legs. *)
Definition leg_strikes (legs : list Trade) : list float :=
  omap (fun trade => option_map snd (leg_reads trade)) legs.

(** Every second token of the batch that is a number is a finite one. *)
Definition numeric_strikes (trade_data : list Trade) : Prop :=
  forall trade x, In trade trade_data -> strike_of trade = Ok x -> is_finite x = true.

(** The group folds into its primary legs: more than one member, a member
    at a negative price, a member on [SMART], and legs that all read. *)
Definition folds (g : list Trade) : bool :=
  (1 <? length g)%nat
  && existsb (fun trade => (Price trade <? 0)%float) g
  && existsb on_smart g
  && forallb reads (legs_of g).

(** The number of records a group leaves in the ledger: its primary legs
    when it folds, all its members when it does not. *)
Definition group_share (g : list Trade) : nat :=
  if folds g then length (primaries_of g) else length g.

(** A list of strikes from the highest down: no strike is less than a
    later one. *)
Definition highest_first (s : list float) : Prop :=
  StronglySorted (fun a b => (a <? b)%float = false) s.

(** [d] is the descriptor of the combination of [legs]: the expiry token
    of the leg of lowest strike, the first of them in the order of the
    legs, a space, and the two highest strikes, the highest first, as
    integers with [/] between them (the one strike of a single leg). *)
Definition combo_descriptor (legs : list Trade) (d : string) : Prop :=
  exists before low after expiry x s strs,
    legs = before ++ low :: after
    /\ leg_reads low = Some (expiry, x)
    /\ (forall t e y, In t before -> leg_reads t = Some (e, y) -> (x <? y)%float = true)
    /\ (forall t e y, In t after -> leg_reads t = Some (e, y) -> (y <? x)%float = false)
    /\ Permutation s (leg_strikes legs)
    /\ highest_first s
    /\ Forall2 (fun y str => exists n, int_of_float y = Ok n /\ str = str_of_int n)
         (take 2 s) strs
    /\ d = expiry +:+ " " +:+ join "/" strs.

(** The net of the legs: the sum, from 0 and in the order of the legs, of
    the realized PnL of the legs that have one; a PnL equal to zero adds
    nothing and is left out. *)
Definition legs_net (legs : list Trade) : float :=
  fold_left (fun sum x => (sum + x)%float)
    (omap (fun trade =>
             match Realized_PnL trade with
             | Some x => if (x =? 0)%float then None else Some x
             | None => None
             end) legs)
    0%float.

(** A primary leg once the combination is folded into it: [d] for
    [Security_Info], [pnl] for [Realized_PnL], every other field as it
    was. *)
Definition absorbed (d : string) (pnl : option float) (trade : Trade) : Trade :=
  mk_trade (Account trade) (Action trade) (Date_Time trade) (Quantity trade)
    (Symbol trade) d (Currency trade) (Price trade) (Commission trade)
    (Unrealized_PnL trade) pnl (Exchange trade).

(** The count of the ledger when every group is taken to leave either one
    record (when [collapses] says so) or all of its records. *)
Definition one_or_all_count (collapses : list Trade -> bool)
    (trade_data : list Trade) : nat :=
  length (List.filter is_stocks trade_data)
  + length (List.filter unparsed trade_data)
  + list_sum (map (fun k => if collapses (members k trade_data) then 1%nat
                            else length (members k trade_data))
                (batch_keys trade_data)).


(** A leg whose descriptor has its three tokens, the second a number. *)
Definition well_formed_leg (trade : Trade) : Prop :=
  exists x ty, strike_of trade = Ok x /\ is_finite x = true
               /\ index (split (Security_Info trade)) 2 = Ok ty.

(** [Realized_PnL] of a primary leg once the net [pnl_sum] of the other
    legs has been folded into it: untouched for a zero net, else the net
    added to the value it had, or the net alone if it was empty. *)
Definition folded_pnl (pnl_sum : float) (current : option float) : option float :=
  if (pnl_sum =? 0)%float then current
  else Some match current with
            | Some current_pnl => (current_pnl + pnl_sum)%float
            | None => pnl_sum
            end.

(** What the second loop does to one trade. *)
Definition mark_one (stock_trades : gmap (string * string) (list Trade))
    (trade : Trade) : Trade :=
  match relabel stock_trades trade with
  | Some a => set_Action a trade
  | None => trade
  end.

(** The writes of the second loop on the trades [l], the first of which
    stands at position [n]. *)
Fixpoint writes (stock_trades : gmap (string * string) (list Trade))
    (n : nat) (l : list Trade) : list (nat * string) :=
  match l with
  | [] => []
  | trade :: l' =>
      match relabel stock_trades trade with
      | Some a => (n, a) :: writes stock_trades (S n) l'
      | None => writes stock_trades (S n) l'
      end
  end.

(** A stock trade filed under [key]. *)
Definition stock_at (key : string * string) (trade : Trade) : bool :=
  String.eqb (Security_Info trade) "STOCK"
  && time_key_eqb (Symbol trade, Date_Time trade) key.

(** The records [process_executions] can produce. *)
Definition normalized (trade : Trade) : Prop :=
  exists app out, process_executions app = Ok out /\ In trade out.

(** The batch holds a stock record with the symbol and the time of
    [trade]. *)
Definition stock_at_same_key (trade_data : list Trade) (trade : Trade) : Prop :=
  exists stock, In stock trade_data /\ Security_Info stock = "STOCK"
                /\ Symbol stock = Symbol trade /\ Date_Time stock = Date_Time trade.

(** What the buckets hold once the records [seen] have been read. *)
Definition buckets_inv (seen : list Trade) (st : buckets) : Prop :=
  stocks_trades st = List.filter is_stocks seen
  /\ parse_error_trades st = List.filter unparsed seen
  /\ NoDup (map fst (trade_groups st))
  /\ (forall k g, In (k, g) (trade_groups st) ->
        g = List.filter (in_group k) seen /\ g <> [])
  /\ (forall k, ~ In k (map fst (trade_groups st)) ->
        List.filter (in_group k) seen = []).


(** [r] is [t] but for [Security_Info] and [Realized_PnL]: the two fields
    [process_combos] writes. *)
Definition same_but_info_pnl (t r : Trade) : Prop :=
  Account r = Account t /\ Action r = Action t /\ Date_Time r = Date_Time t
  /\ Quantity r = Quantity t /\ Symbol r = Symbol t /\ Currency r = Currency t
  /\ Price r = Price t /\ Commission r = Commission t
  /\ Unrealized_PnL r = Unrealized_PnL t /\ Exchange r = Exchange t.

(** [r] is [t] but for [Action]: the field [mark_assigned_options]
    writes. *)
Definition same_but_action (t r : Trade) : Prop :=
  Account r = Account t /\ Date_Time r = Date_Time t
  /\ Quantity r = Quantity t /\ Symbol r = Symbol t
  /\ Security_Info r = Security_Info t /\ Currency r = Currency t
  /\ Price r = Price t /\ Commission r = Commission t
  /\ Unrealized_PnL r = Unrealized_PnL t /\ Realized_PnL r = Realized_PnL t
  /\ Exchange r = Exchange t.

(** All the records the buckets hold, groups first. *)
Definition bucket_contents (st : buckets) : list Trade :=
  concat (map snd (trade_groups st)) ++ stocks_trades st ++ parse_error_trades st.


(** The string holds a space. *)
Fixpoint has_blank (s : string) : bool :=
  match s with
  | EmptyString => false
  | String c s' => Ascii.eqb c " " || has_blank s'
  end.


(** The instrument classes the branch of lines 119-132 has a case for. *)
Definition known_class (contract : Contract) : bool :=
  String.eqb (secType contract) "STK" || String.eqb (secType contract) "OPT"
  || String.eqb (secType contract) "FOP".

Definition is_option_class (contract : Contract) : bool :=
  negb (String.eqb (secType contract) "STK")
  && (String.eqb (secType contract) "OPT" || String.eqb (secType contract) "FOP").

(** The expiry of the contract reads: its three slices are integers to
    [int], and the month is an index of [month_names] (1 to 12, or 0 down
    to -11, which Python counts from the end). *)
Definition expiry_reads (contract : Contract) : bool :=
  let expiry_date_str := lastTradeDateOrContractMonth contract in
  match int_of_str B (slice 0 4 expiry_date_str),
        int_of_str B (slice 4 6 expiry_date_str),
        int_of_str B (slice 6 8 expiry_date_str) with
  | Some _, Some month, Some _ => (-11 <=? month)%Z && (month <=? 12)%Z
  | _, _, _ => false
  end.

(** The descriptor of the execution can be built: always, but for an
    option whose expiry does not read. *)
Definition descriptor_ok (exec_info : Contract * Execution) : bool :=
  if is_option_class exec_info.1 then expiry_reads exec_info.1 else true.

(** The batches [process_executions] returns on. *)
Definition can_normalize (app : TradingApp) : bool :=
  match executions app with
  | [] => true
  | exec_info :: _ => known_class exec_info.1
  end
  && forallb descriptor_ok (executions app).

(** The commission entry of an execution, if its report has come. *)
Definition report_of (app : TradingApp) (execution : Execution) : option CommissionEntry :=
  commission_report app !! execId execution.

(** The records [main] has collected when its loop ends: those of each
    connection, in the order of the ports; the client id of a port is its
    rank, counted from 1. *)
Definition pooled (links : list (Z * link)) : list Trade :=
  concat (imap (fun i pl =>
                  get_trade_data_from_connection pl.1 (Z.of_nat i + 1) pl.2)
               links).

(** * Properties *)

(** ** The assignment classifier as a map *)

Lemma time_key_eqb_eq k1 k2 : time_key_eqb k1 k2 = true <-> k1 = k2.
Proof.
  destruct k1 as [a1 b1], k2 as [a2 b2]. unfold time_key_eqb. simpl.
  rewrite andb_true_iff, !String.eqb_eq. split.
  - intros [-> ->]. reflexivity.
  - intros [= -> ->]. auto.
Qed.

Lemma time_key_eqb_refl k : time_key_eqb k k = true.
Proof. apply time_key_eqb_eq. reflexivity. Qed.

Lemma time_key_eqb_neq k1 k2 : time_key_eqb k1 k2 = false <-> k1 <> k2.
Proof.
  rewrite <- time_key_eqb_eq. destruct (time_key_eqb k1 k2); split; congruence.
Qed.

Lemma mark_fold stock_trades (post : list Trade) :
  forall (pre : list Trade) (log : list (nat * string)),
    fold_left (mark_step stock_trades) (seq (length pre) (length post)) (pre ++ post, log)
    = (pre ++ map (mark_one stock_trades) post,
       log ++ writes stock_trades (length pre) post).
Proof.
  induction post as [|t post IH]; intros pre log; simpl.
  - rewrite !app_nil_r. reflexivity.
  - unfold mark_step at 2. simpl.
    rewrite list_lookup_middle by reflexivity.
    assert (Hone : mark_one stock_trades t
                   = match relabel stock_trades t with
                     | Some a => set_Action a t
                     | None => t
                     end) by reflexivity.
    rewrite Hone. clear Hone.
    destruct (relabel stock_trades t) as [a|].
    + rewrite insert_app_r_alt by lia.
      rewrite Nat.sub_diag. simpl.
      specialize (IH (pre ++ [set_Action a t]) (log ++ [(length pre, a)])).
      rewrite length_app in IH. simpl in IH.
      rewrite Nat.add_1_r in IH. rewrite <- !app_assoc in IH. simpl in IH.
      exact IH.
    + specialize (IH (pre ++ [t]) log).
      rewrite length_app in IH. simpl in IH.
      rewrite Nat.add_1_r in IH. rewrite <- !app_assoc in IH. simpl in IH.
      exact IH.
Qed.

Lemma mark_assigned_options_log_eq (trade_data : list Trade) :
  mark_assigned_options_log trade_data
  = (map (mark_one (stock_index trade_data)) trade_data,
     writes (stock_index trade_data) 0 trade_data).
Proof.
  unfold mark_assigned_options_log.
  apply (mark_fold (stock_index trade_data) trade_data [] []).
Qed.

Lemma mark_assigned_options_map (trade_data : list Trade) :
  mark_assigned_options trade_data
  = map (mark_one (stock_index trade_data)) trade_data.
Proof.
  unfold mark_assigned_options. rewrite mark_assigned_options_log_eq. reflexivity.
Qed.

Lemma has_key_step key stock_trades trade :
  has_key key (stock_index_step stock_trades trade)
  = has_key key stock_trades || stock_at key trade.
Proof.
  unfold stock_index_step, stock_at.
  destruct (String.eqb (Security_Info trade) "STOCK"); simpl.
  2: { rewrite orb_false_r. reflexivity. }
  unfold has_key at 1.
  destruct (time_key_eqb (Symbol trade, Date_Time trade) key) eqn:E.
  - apply time_key_eqb_eq in E. subst key.
    rewrite lookup_insert_eq. rewrite orb_true_r. reflexivity.
  - apply time_key_eqb_neq in E.
    rewrite lookup_insert_ne by exact E.
    rewrite orb_false_r.
    destruct (has_key (Symbol trade, Date_Time trade) stock_trades); [reflexivity|].
    rewrite lookup_insert_ne by exact E. reflexivity.
Qed.

Lemma has_key_fold key (l : list Trade) :
  forall stock_trades,
    has_key key (fold_left stock_index_step l stock_trades)
    = has_key key stock_trades || existsb (stock_at key) l.
Proof.
  induction l as [|t l IH]; intros m; simpl.
  - rewrite orb_false_r. reflexivity.
  - rewrite IH, has_key_step, orb_assoc. reflexivity.
Qed.

Lemma has_key_stock_index key (trade_data : list Trade) :
  has_key key (stock_index trade_data) = existsb (stock_at key) trade_data.
Proof.
  unfold stock_index. rewrite has_key_fold. unfold has_key.
  rewrite lookup_empty. reflexivity.
Qed.


Lemma stock_at_mark_one key stock_trades trade :
  stock_at key (mark_one stock_trades trade) = stock_at key trade.
Proof.
  unfold mark_one. destruct (relabel stock_trades trade); reflexivity.
Qed.

Lemma existsb_stock_at_marked key stock_trades (l : list Trade) :
  existsb (stock_at key) (map (mark_one stock_trades) l) = existsb (stock_at key) l.
Proof.
  induction l as [|t l IH]; simpl; [reflexivity|].
  rewrite stock_at_mark_one, IH. reflexivity.
Qed.

Lemma relabel_ext m1 m2 trade :
  (forall key, has_key key m1 = has_key key m2) ->
  relabel m1 trade = relabel m2 trade.
Proof. intros H. unfold relabel. rewrite H. reflexivity. Qed.

Lemma mark_one_ext m1 m2 trade :
  (forall key, has_key key m1 = has_key key m2) ->
  mark_one m1 trade = mark_one m2 trade.
Proof. intros H. unfold mark_one. rewrite (relabel_ext m1 m2 trade H). reflexivity. Qed.

Lemma mark_one_twice stock_trades trade :
  mark_one stock_trades (mark_one stock_trades trade) = mark_one stock_trades trade.
Proof.
  unfold mark_one, relabel.
  destruct (negb (String.eqb (Security_Info trade) "STOCK")
            && (Price trade =? 0)%float && (Commission trade =? 0)%float) eqn:Ezero.
  - destruct (has_key (Symbol trade, Date_Time trade) stock_trades) eqn:Ekey.
    + simpl. rewrite Ezero, Ekey. reflexivity.
    + destruct (classified (Action trade)) eqn:Ecl; simpl.
      * rewrite Ezero, Ekey, Ecl. reflexivity.
      * rewrite Ezero, Ekey. reflexivity.
  - rewrite Ezero. reflexivity.
Qed.

(** ** One record per execution *)

Lemma process_loop_spec (app : TradingApp) (l : list (Contract * Execution)) :
  forall prev acc out,
    process_loop app prev l acc = Ok out ->
    exists news,
      out = acc ++ news /\ length news = length l /\
      forall i x, l !! i = Some x ->
        exists prev' r, normalize app prev' x = Ok r /\ news !! i = Some r.1.
Proof.
  induction l as [|x l IH]; intros prev acc out H; simpl in H.
  - injection H as <-. exists []. rewrite app_nil_r.
    repeat split. intros i y Hy. rewrite lookup_nil in Hy. discriminate.
  - destruct (normalize app prev x) as [r|e] eqn:En; simpl in H; [|discriminate].
    destruct (IH _ _ _ H) as (news & -> & Hlen & Hall).
    exists (r.1 :: news). rewrite <- app_assoc. simpl.
    repeat split; [congruence|].
    intros [|i] y Hy; simpl in Hy.
    + injection Hy as <-. exists prev, r. split; [exact En|reflexivity].
    + apply Hall. exact Hy.
Qed.

Lemma process_executions_spec (app : TradingApp) (out : list Trade) :
  process_executions app = Ok out ->
  length out = length (executions app) /\
  forall i x, executions app !! i = Some x ->
    exists prev r, normalize app prev x = Ok r /\ out !! i = Some r.1.
Proof.
  intros H. destruct (process_loop_spec _ _ _ _ _ H) as (news & -> & Hlen & Hall).
  simpl. split; assumption.
Qed.

Lemma normalize_fields app prev x r :
  normalize app prev x = Ok r ->
  Action r.1 = expired_override (price x.2) (commission_lookup app x.2).1
                 (initial_action x.2)
  /\ Price r.1 = price x.2
  /\ Commission r.1 = (commission_lookup app x.2).1
  /\ Realized_PnL r.1 = realized_pnl_of (commission_lookup app x.2).2.
Proof.
  unfold normalize.
  destruct (security_info_after prev x.1) as [bound|e]; simpl; [|discriminate].
  destruct bound as [s|]; simpl; [|discriminate].
  intros [= <-]. simpl. repeat split.
Qed.

Lemma normalized_from_step trade :
  normalized trade ->
  exists app prev x r, normalize app prev x = Ok r /\ trade = r.1.
Proof.
  intros (app & out & Hout & Hin).
  destruct (process_executions_spec app out Hout) as [Hlen Hall].
  apply list_elem_of_In, list_elem_of_lookup in Hin. destruct Hin as [i Hi].
  assert (Hlt : (i < length (executions app))%nat).
  { rewrite <- Hlen. eapply lookup_lt_Some. exact Hi. }
  destruct (lookup_lt_is_Some_2 _ _ Hlt) as [x Hx].
  destruct (Hall i x Hx) as (prev & r & Hn & Hr).
  exists app, prev, x, r. split; [exact Hn|congruence].
Qed.

Lemma initial_action_cases (execution : Execution) :
  initial_action execution = "BOT" \/ initial_action execution = "SLD".
Proof. unfold initial_action. destruct (String.eqb _ _); auto. Qed.

(** On a normalized record the label tells the zero test: the record is
    [EXPIRED] exactly when price and commission are both zero. *)
Lemma normalized_action trade :
  normalized trade ->
  ((Price trade =? 0)%float && (Commission trade =? 0)%float = true ->
   Action trade = "EXPIRED")
  /\ ((Price trade =? 0)%float && (Commission trade =? 0)%float = false ->
      Action trade = "BOT" \/ Action trade = "SLD").
Proof.
  intros Hn. destruct (normalized_from_step trade Hn) as (app & prev & x & r & Hr & ->).
  destruct (normalize_fields _ _ _ _ Hr) as (Ha & Hp & Hc & _).
  rewrite Ha, Hp, Hc. unfold expired_override.
  split; intros ->; [reflexivity|apply initial_action_cases].
Qed.


(** ** The assignment classifier *)

(** C9.  Idempotence of the assignment classifier: on every batch, running
    [mark_assigned_options] on its own result changes no field of any
    record. *)
Theorem mark_assigned_options_idempotent (trade_data : list Trade) :
  mark_assigned_options (mark_assigned_options trade_data)
  = mark_assigned_options trade_data.
Proof.
  rewrite (mark_assigned_options_map (mark_assigned_options trade_data)).
  rewrite (mark_assigned_options_map trade_data).
  set (idx := stock_index trade_data).
  rewrite map_map. apply map_ext. intros t.
  rewrite (mark_one_ext _ idx).
  - apply mark_one_twice.
  - intros key. unfold idx. rewrite !has_key_stock_index.
    apply existsb_stock_at_marked.
Qed.

Lemma stock_at_same_key_iff (trade_data : list Trade) (trade : Trade) :
  stock_at_same_key trade_data trade
  <-> has_key (Symbol trade, Date_Time trade) (stock_index trade_data) = true.
Proof.
  rewrite has_key_stock_index, existsb_exists. unfold stock_at_same_key, stock_at.
  split.
  - intros (s & Hin & Hsi & Hsym & Hdt). exists s. split; [exact Hin|].
    rewrite Hsi, Hsym, Hdt. simpl. apply time_key_eqb_refl.
  - intros (s & Hin & H). apply andb_true_iff in H. destruct H as [Hsi Hk].
    apply String.eqb_eq in Hsi. apply time_key_eqb_eq in Hk.
    injection Hk as Hsym Hdt. exists s. auto.
Qed.

(** C5.  Assignment versus expiration: a record produced by normalization
    that is not a stock and has zero price and zero commission is labelled
    [ASSIGNED] by [mark_assigned_options] when the batch holds a stock
    record with the same symbol and time, and [EXPIRED] when it holds
    none. *)
Theorem assigned_or_expired (trade_data : list Trade) (i : nat) (trade : Trade) :
  trade_data !! i = Some trade ->
  normalized trade ->
  Security_Info trade <> "STOCK" ->
  (Price trade =? 0)%float = true ->
  (Commission trade =? 0)%float = true ->
  exists trade',
    mark_assigned_options trade_data !! i = Some trade'
    /\ (stock_at_same_key trade_data trade -> Action trade' = "ASSIGNED")
    /\ (~ stock_at_same_key trade_data trade -> Action trade' = "EXPIRED").
Proof.
  intros Hi Hn Hsi Hp Hc.
  exists (mark_one (stock_index trade_data) trade).
  split.
  { rewrite mark_assigned_options_map, list_lookup_fmap, Hi. reflexivity. }
  destruct (normalized_action trade Hn) as [Hexp _].
  specialize (Hexp ltac:(rewrite Hp, Hc; reflexivity)).
  rewrite stock_at_same_key_iff.
  unfold mark_one, relabel. rewrite Hp, Hc.
  apply String.eqb_neq in Hsi. rewrite Hsi. simpl.
  destruct (has_key (Symbol trade, Date_Time trade) (stock_index trade_data)).
  - split; [reflexivity|congruence].
  - split; [discriminate|]. intros _.
    rewrite Hexp. reflexivity.
Qed.

Lemma filter_none {A : Type} (f : A -> bool) (l : list A) :
  (forall x, In x l -> f x = false) -> List.filter f l = [].
Proof.
  induction l as [|x l IH]; intros H; simpl; [reflexivity|].
  rewrite (H x (or_introl eq_refl)). apply IH.
  intros y Hy. apply H. right. exact Hy.
Qed.

Lemma writes_positions stock_trades (l : list Trade) :
  forall n i a, In (i, a) (writes stock_trades n l) ->
    (n <= i)%nat /\ exists t, l !! (i - n)%nat = Some t /\ relabel stock_trades t = Some a.
Proof.
  induction l as [|t l IH]; intros n i a Hin; simpl in Hin; [contradiction|].
  assert (Hrest : In (i, a) (writes stock_trades (S n) l) ->
          (n <= i)%nat /\ exists t0, (t :: l) !! (i - n)%nat = Some t0
                                     /\ relabel stock_trades t0 = Some a).
  { intros H. destruct (IH _ _ _ H) as (Hle & t0 & Ht0 & Hr).
    split; [lia|]. exists t0. split; [|exact Hr].
    replace (i - n)%nat with (S (i - S n)) by lia. exact Ht0. }
  destruct (relabel stock_trades t) as [a0|] eqn:Er.
  - destruct Hin as [[= <- <-]|Hin]; [|auto].
    split; [lia|]. exists t. rewrite Nat.sub_diag. auto.
  - auto.
Qed.

Lemma writes_once stock_trades (l : list Trade) :
  forall n i,
    (length (List.filter (fun w => Nat.eqb w.1 i) (writes stock_trades n l)) <= 1)%nat.
Proof.
  induction l as [|t l IH]; intros n i; simpl; [lia|].
  destruct (relabel stock_trades t) as [a|]; [|apply IH].
  simpl. destruct (Nat.eqb n i) eqn:E; [|apply IH].
  apply Nat.eqb_eq in E. subst i. simpl.
  replace (List.filter (fun w => Nat.eqb w.1 n) (writes stock_trades (S n) l))
    with (@nil (nat * string)); [simpl; lia|].
  symmetry. apply filter_none.
  intros [j b] Hj. simpl.
  destruct (writes_positions _ _ _ _ _ Hj) as [Hle _].
  apply Nat.eqb_neq. lia.
Qed.

(** C7.  Override-once invariant: on a record produced by normalization,
    [mark_assigned_options] writes the label at most once, and only when
    the label is none of [ASSIGNED], [BOT], [SLD]; a record that enters as
    [BOT] or [SLD] is returned as it came. *)
Theorem action_overridden_at_most_once (trade_data : list Trade) (i : nat)
    (trade : Trade) :
  trade_data !! i = Some trade ->
  normalized trade ->
  (length (List.filter (fun w => Nat.eqb w.1 i)
             (mark_assigned_options_log trade_data).2) <= 1)%nat
  /\ ((exists a, In (i, a) (mark_assigned_options_log trade_data).2) ->
      classified (Action trade) = false)
  /\ (classified (Action trade) = true ->
      mark_assigned_options trade_data !! i = Some trade)
  /\ (Action trade = "BOT" \/ Action trade = "SLD" ->
      exists trade', mark_assigned_options trade_data !! i = Some trade'
                     /\ Action trade' = Action trade).
Proof.
  intros Hi Hn.
  rewrite mark_assigned_options_log_eq. simpl.
  assert (Hw : forall a, relabel (stock_index trade_data) trade = Some a ->
                         classified (Action trade) = false).
  { intros a Ha. destruct (normalized_action trade Hn) as [Hexp _].
    unfold relabel in Ha.
    destruct (negb (String.eqb (Security_Info trade) "STOCK")) ; simpl in Ha;
      [|discriminate].
    destruct ((Price trade =? 0)%float && (Commission trade =? 0)%float) eqn:Ez;
      [|discriminate].
    rewrite (Hexp eq_refl). reflexivity. }
  assert (Hkeep : classified (Action trade) = true ->
                  mark_assigned_options trade_data !! i = Some trade).
  { intros Hcl. rewrite mark_assigned_options_map, list_lookup_fmap, Hi. simpl.
    unfold mark_one.
    destruct (relabel (stock_index trade_data) trade) as [a|] eqn:Er; [|reflexivity].
    rewrite (Hw a eq_refl) in Hcl. discriminate. }
  split; [apply writes_once|].
  split.
  { intros [a Ha]. destruct (writes_positions _ _ _ _ _ Ha) as (_ & t & Ht & Hr).
    rewrite Nat.sub_0_r, Hi in Ht. injection Ht as <-. exact (Hw a Hr). }
  split; [exact Hkeep|].
  intros Hbs. exists trade. split; [|reflexivity].
  apply Hkeep. destruct Hbs as [-> | ->]; reflexivity.
Qed.

(** ** The record normalizer *)

(** C4.  Sentinel handling: when the commission entry of an execution
    carries a realized-PnL float whose magnitude is the sentinel, the
    record [process_executions] builds for it has an empty
    [Realized_PnL]. *)
Theorem sentinel_pnl_is_empty (app : TradingApp) (out : list Trade) (i : nat)
    (contract : Contract) (execution : Execution) (entry : CommissionEntry)
    (x : float) :
  process_executions app = Ok out ->
  executions app !! i = Some (contract, execution) ->
  commission_report app !! execId execution = Some entry ->
  realizedPNL entry = PnlFloat x ->
  (abs x =? MAX_FLOAT_SENTINEL)%float = true ->
  exists trade, out !! i = Some trade /\ Realized_PnL trade = None.
Proof.
  intros Hout Hi Hentry Hpnl Hx.
  destruct (process_executions_spec app out Hout) as [_ Hall].
  destruct (Hall i _ Hi) as (prev & r & Hn & Hr).
  exists r.1. split; [exact Hr|].
  destruct (normalize_fields _ _ _ _ Hn) as (_ & _ & _ & Hreal).
  rewrite Hreal. unfold commission_lookup. simpl. rewrite Hentry. simpl.
  rewrite Hpnl. simpl. rewrite Hx. reflexivity.
Qed.

(** C6.  The label normalization starts from is [BOT] when the side of
    the execution is [BOT] (bought) and [SLD] otherwise; the label of the
    record is that one, unless the zero-price, zero-commission override
    replaces it. *)
Theorem action_default_from_side (app : TradingApp) (out : list Trade) (i : nat)
    (contract : Contract) (execution : Execution) :
  process_executions app = Ok out ->
  executions app !! i = Some (contract, execution) ->
  (side execution = "BOT" -> initial_action execution = "BOT")
  /\ (side execution <> "BOT" -> initial_action execution = "SLD")
  /\ exists trade,
       out !! i = Some trade
       /\ Action trade
          = expired_override (price execution) (commission_lookup app execution).1
              (initial_action execution).
Proof.
  intros Hout Hi.
  split; [|split].
  - intros Hs. unfold initial_action. rewrite Hs. reflexivity.
  - intros Hs. unfold initial_action. apply String.eqb_neq in Hs. rewrite Hs. reflexivity.
  - destruct (process_executions_spec app out Hout) as [_ Hall].
    destruct (Hall i _ Hi) as (prev & r & Hn & Hr).
    exists r.1. split; [exact Hr|].
    destruct (normalize_fields _ _ _ _ Hn) as (Ha & _). exact Ha.
Qed.


(** ** The first loop of [process_combos]: a partition of the batch *)

Lemma classify_cases (trade : Trade) :
  (classify trade = Stocks /\ is_stocks trade = true /\ unparsed trade = false
   /\ forall k, in_group k trade = false)
  \/ (classify trade = ParseError /\ is_stocks trade = false /\ unparsed trade = true
      /\ forall k, in_group k trade = false)
  \/ (exists k0, classify trade = Grouped k0 /\ is_stocks trade = false
                 /\ unparsed trade = false
                 /\ forall k, in_group k trade = time_key_eqb k0 k).
Proof.
  unfold in_group, unparsed, is_stocks, classify.
  destruct (String.eqb (Security_Info trade) "STOCKS"); simpl.
  - left. auto.
  - destruct (strptime B (Date_Time trade) DISPLAY_FORMAT) as [dt|].
    + right. right. eexists. repeat split.
    + right. left. auto.
Qed.

Lemma groups_append_keys k0 t (gs : list ((string * string) * list Trade)) :
  map fst (groups_append k0 t gs)
  = if existsb (time_key_eqb k0) (map fst gs) then map fst gs else map fst gs ++ [k0].
Proof.
  induction gs as [|[k1 g1] gs IH]; simpl; [reflexivity|].
  destruct (time_key_eqb k0 k1); simpl; [reflexivity|].
  rewrite IH. destruct (existsb _ _); reflexivity.
Qed.

Lemma existsb_key_in k0 (ks : list (string * string)) :
  existsb (time_key_eqb k0) ks = true <-> In k0 ks.
Proof.
  rewrite existsb_exists. split.
  - intros (k & Hin & Hk). apply time_key_eqb_eq in Hk. subst. exact Hin.
  - intros Hin. exists k0. split; [exact Hin|apply time_key_eqb_refl].
Qed.

Lemma groups_append_in k0 t (gs : list ((string * string) * list Trade)) :
  NoDup (map fst gs) ->
  forall k g', In (k, g') (groups_append k0 t gs) ->
    (k <> k0 /\ In (k, g') gs)
    \/ (k = k0 /\ exists g0, g' = g0 ++ [t]
                   /\ (In (k0, g0) gs \/ (g0 = [] /\ ~ In k0 (map fst gs)))).
Proof.
  induction gs as [|[k1 g1] gs IH]; intros Hnd k g' Hin; simpl in Hin.
  - destruct Hin as [[= <- <-]|[]]. right. split; [reflexivity|].
    exists []. split; [reflexivity|]. right. split; [reflexivity|]. intros [].
  - simpl in Hnd. apply NoDup_cons in Hnd. destruct Hnd as [Hk1 Hnd].
    destruct (time_key_eqb k0 k1) eqn:E.
    + apply time_key_eqb_eq in E. subst k1.
      destruct Hin as [[= <- <-]|Hin].
      * right. split; [reflexivity|]. exists g1. split; [reflexivity|].
        left. left. reflexivity.
      * left. split; [|right; exact Hin].
        intros ->. apply Hk1. apply list_elem_of_In.
        change k0 with (fst (k0, g')). apply in_map. exact Hin.
    + apply time_key_eqb_neq in E.
      destruct Hin as [[= <- <-]|Hin].
      * left. split; [congruence|left; reflexivity].
      * destruct (IH Hnd _ _ Hin) as [[Hne Hold]|[-> (g0 & -> & Hg0)]].
        -- left. split; [exact Hne|right; exact Hold].
        -- right. split; [reflexivity|]. exists g0. split; [reflexivity|].
           destruct Hg0 as [Hold|[-> Hnot]].
           ++ left. right. exact Hold.
           ++ right. split; [reflexivity|]. simpl. intros [H|H]; [congruence|auto].
Qed.

Lemma bucket_step_inv (seen : list Trade) (st : buckets) (trade : Trade) :
  buckets_inv seen st -> buckets_inv (seen ++ [trade]) (bucket_step st trade).
Proof.
  intros (Hs & He & Hnd & Hg & Hc).
  unfold buckets_inv, bucket_step.
  destruct (classify_cases trade) as
    [(Hcl & His & Hun & Hin)|[(Hcl & His & Hun & Hin)|(k0 & Hcl & His & Hun & Hin)]];
    rewrite Hcl; simpl; rewrite !List.filter_app; simpl; rewrite His, Hun.
  - rewrite Hs, He, app_nil_r.
    split; [reflexivity|]. split; [reflexivity|]. split; [exact Hnd|]. split.
    + intros k g Hkg. rewrite List.filter_app. simpl. rewrite Hin, app_nil_r.
      apply Hg. exact Hkg.
    + intros k Hk. rewrite List.filter_app. simpl. rewrite Hin, app_nil_r. auto.
  - rewrite Hs, He, app_nil_r.
    split; [reflexivity|]. split; [reflexivity|]. split; [exact Hnd|]. split.
    + intros k g Hkg. rewrite List.filter_app. simpl. rewrite Hin, app_nil_r.
      apply Hg. exact Hkg.
    + intros k Hk. rewrite List.filter_app. simpl. rewrite Hin, app_nil_r. auto.
  - rewrite Hs, He, !app_nil_r. split; [reflexivity|]. split; [reflexivity|].
    split; [|split].
    + rewrite groups_append_keys.
      destruct (existsb (time_key_eqb k0) (map fst (trade_groups st))) eqn:E;
        [exact Hnd|].
      apply NoDup_app. split; [exact Hnd|]. split; [|apply NoDup_singleton].
      intros x Hx Hx0. apply list_elem_of_singleton in Hx0. subst x.
      apply list_elem_of_In, existsb_key_in in Hx. congruence.
    + intros k g' Hin'. rewrite List.filter_app. simpl. rewrite Hin.
      destruct (groups_append_in _ _ _ Hnd _ _ Hin') as [[Hne Hold]|[-> (g0 & -> & Hg0)]].
      * apply not_eq_sym, time_key_eqb_neq in Hne. rewrite Hne, app_nil_r.
        apply Hg. exact Hold.
      * rewrite time_key_eqb_refl. split.
        -- destruct Hg0 as [Hold|[-> Hnot]].
           ++ rewrite <- (proj1 (Hg _ _ Hold)). reflexivity.
           ++ rewrite (Hc _ Hnot). reflexivity.
        -- intros H. apply app_eq_nil in H. destruct H as [_ H]. discriminate.
    + intros k Hk. rewrite groups_append_keys in Hk. rewrite List.filter_app. simpl.
      rewrite Hin.
      destruct (existsb (time_key_eqb k0) (map fst (trade_groups st))) eqn:E.
      * apply existsb_key_in in E.
        assert (Hne : k0 <> k) by (intros ->; auto).
        apply time_key_eqb_neq in Hne. rewrite Hne, app_nil_r. auto.
      * assert (Hne : k0 <> k).
        { intros ->. apply Hk. apply in_or_app. right. left. reflexivity. }
        apply time_key_eqb_neq in Hne. rewrite Hne, app_nil_r.
        apply Hc. intros H. apply Hk. apply in_or_app. left. exact H.
Qed.

Lemma fill_buckets_inv (trade_data : list Trade) :
  buckets_inv trade_data (fill_buckets trade_data).
Proof.
  unfold fill_buckets.
  induction trade_data as [|t l IH] using rev_ind.
  - simpl. unfold buckets_inv. simpl.
    split; [reflexivity|]. split; [reflexivity|]. split; [apply NoDup_nil_2|].
    split.
    + intros k g [].
    + intros k _. reflexivity.
  - rewrite fold_left_app. simpl. apply bucket_step_inv. exact IH.
Qed.


Lemma fill_buckets_single (K : string * string) (l : list Trade) :
  l <> [] ->
  (forall t, In t l -> classify t = Grouped K) ->
  fill_buckets l = mk_buckets [(K, l)] [] [].
Proof.
  unfold fill_buckets.
  induction l as [|t l IH] using rev_ind; [congruence|].
  intros _ Hall. rewrite fold_left_app. simpl.
  assert (Ht : classify t = Grouped K).
  { apply Hall. apply in_or_app. right. left. reflexivity. }
  destruct l as [|t1 l1].
  - simpl. unfold bucket_step. rewrite Ht. reflexivity.
  - rewrite IH; [|discriminate|].
    + unfold bucket_step. rewrite Ht. simpl. rewrite time_key_eqb_refl. reflexivity.
    + intros t' Ht'. apply Hall. apply in_or_app. left. exact Ht'.
Qed.

(** ** Results of [mapM] *)

Lemma mapM_ok {A C : Type} (f : A -> result C) (l : list A) :
  forall ys, mapM f l = Ok ys -> Forall2 (fun x y => f x = Ok y) l ys.
Proof.
  induction l as [|x l IH]; intros ys H; simpl in H.
  - injection H as <-. constructor.
  - destruct (f x) as [y|e] eqn:Ex; simpl in H; [|discriminate].
    destruct (mapM f l) as [ys'|e]; simpl in H; [|discriminate].
    injection H as <-. constructor; [exact Ex|apply IH; reflexivity].
Qed.

Lemma mapM_raise {A C : Type} (f : A -> result C) (l : list A) (e : exn) :
  mapM f l = Raise e -> exists x, In x l /\ f x = Raise e.
Proof.
  induction l as [|x l IH]; intros H; simpl in H; [discriminate|].
  destruct (f x) as [y|e'] eqn:Ex; simpl in H.
  - destruct (mapM f l) as [ys'|e']; simpl in H; [discriminate|].
    injection H as ->. destruct (IH eq_refl) as (x' & Hin & Hx').
    exists x'. split; [right; exact Hin|exact Hx'].
  - injection H as ->. exists x. split; [left; reflexivity|exact Ex].
Qed.

Lemma mapM_total {A C : Type} (f : A -> result C) (l : list A) :
  (forall x, In x l -> exists y, f x = Ok y) -> exists ys, mapM f l = Ok ys.
Proof.
  induction l as [|x l IH]; intros H; simpl.
  - exists []. reflexivity.
  - destruct (H x (or_introl eq_refl)) as [y ->].
    destruct IH as [ys ->]; [intros z Hz; apply H; right; exact Hz|].
    simpl. eexists. reflexivity.
Qed.

Lemma mapM_fails {A C : Type} (f : A -> result C) (l : list A) (x : A) :
  In x l -> is_ok (f x) = false -> is_ok (mapM f l) = false.
Proof.
  intros Hin Hx. destruct (mapM f l) as [ys|e] eqn:E; [|reflexivity].
  apply mapM_ok in E. apply list_elem_of_In in Hin.
  destruct (proj1 (list_elem_of_lookup _ _) Hin) as [i Hi].
  destruct (Forall2_lookup_l _ _ _ _ _ E Hi) as (y & _ & Hy).
  rewrite Hy in Hx. discriminate.
Qed.

(** ** One group *)

Lemma merge_combo_ok (trades out : list Trade) :
  merge_combo trades = Ok out ->
  exists d, combined_info (non_smart trades) = Ok d
            /\ out = map (fold_into d (net_pnl (non_smart trades)))
                       (List.filter is_smart trades)
                     ++ (if existsb is_smart trades then [] else trades).
Proof.
  unfold merge_combo.
  destruct (combined_info (non_smart trades)) as [d|e]; simpl; [|discriminate].
  intros [= <-]. exists d. split; reflexivity.
Qed.

Lemma filter_smart_none (trades : list Trade) :
  existsb is_smart trades = false -> List.filter is_smart trades = [].
Proof.
  intros H. apply filter_none. intros t Ht.
  destruct (is_smart t) eqn:E; [|reflexivity].
  assert (existsb is_smart trades = true) by (apply existsb_exists; eauto).
  congruence.
Qed.

Lemma process_group_share (trades out : list Trade) :
  process_group trades = Ok out -> length out = ledger_share trades.
Proof.
  unfold process_group, ledger_share, merged.
  destruct (length trades <=? 1)%nat eqn:El.
  { intros [= <-]. apply Nat.leb_le in El.
    destruct (1 <? length trades)%nat eqn:E2; [apply Nat.ltb_lt in E2; lia|reflexivity]. }
  apply Nat.leb_gt in El. apply Nat.ltb_lt in El. rewrite El. simpl.
  destruct (has_negative trades); simpl; [|intros [= <-]; reflexivity].
  unfold merge_combo.
  destruct (combined_info (non_smart trades)) as [d|e]; simpl.
  - intros [= <-]. rewrite andb_true_r.
    destruct (existsb is_smart trades) eqn:Es.
    + rewrite app_nil_r, length_map. reflexivity.
    + rewrite (filter_smart_none _ Es). reflexivity.
  - rewrite andb_false_r. destruct e; intros [= <-]; reflexivity.
Qed.

(** ** The loop over the groups *)

Lemma process_groups_ok (gs : list ((string * string) * list Trade)) :
  forall acc out,
    process_groups gs acc = Ok out ->
    exists outs, out = acc ++ concat outs
                 /\ Forall2 (fun kg o => process_group kg.2 = Ok o) gs outs.
Proof.
  induction gs as [|[k g] gs IH]; intros acc out H; simpl in H.
  - injection H as <-. exists []. simpl. rewrite app_nil_r. split; constructor.
  - destruct (process_group g) as [o|e] eqn:Eg; simpl in H; [|discriminate].
    destruct (IH _ _ H) as (outs & -> & Hall).
    exists (o :: outs). simpl. rewrite app_assoc. split; [reflexivity|].
    constructor; [exact Eg|exact Hall].
Qed.

Lemma process_groups_total (gs : list ((string * string) * list Trade)) :
  (forall k g, In (k, g) gs -> exists o, process_group g = Ok o) ->
  forall acc, exists out, process_groups gs acc = Ok out.
Proof.
  induction gs as [|[k g] gs IH]; intros H acc; simpl.
  - eexists. reflexivity.
  - destruct (H k g (or_introl eq_refl)) as [o ->]. simpl.
    apply IH. intros k' g' Hin. apply (H k' g'). right. exact Hin.
Qed.

Lemma concat_lengths (gs : list ((string * string) * list Trade))
    (outs : list (list Trade)) :
  Forall2 (fun kg o => process_group kg.2 = Ok o) gs outs ->
  length (concat outs) = list_sum (map (fun kg => ledger_share kg.2) gs).
Proof.
  induction 1 as [|[k g] o gs outs Ho _ IH]; simpl; [reflexivity|].
  rewrite length_app, IH. rewrite (process_group_share _ _ Ho). reflexivity.
Qed.


(** ** Which exceptions the descriptor can raise *)

Lemma index_raise {A : Type} (l : list A) (i : nat) (e : exn) :
  index l i = Raise e -> e = IndexError.
Proof. unfold index, opt_or. destruct (l !! i); [discriminate|]. intros [= <-]. reflexivity. Qed.

Lemma strike_of_raise (trade : Trade) (e : exn) :
  strike_of trade = Raise e -> e = IndexError \/ e = ValueError.
Proof.
  unfold strike_of.
  destruct (index (split (Security_Info trade)) 1) as [tok|e1] eqn:E; simpl.
  - unfold opt_or. destruct (float_of_str B tok); [discriminate|].
    intros [= <-]. right. reflexivity.
  - intros [= <-]. left. exact (index_raise _ _ _ E).
Qed.

Lemma int_of_float_ok (x : float) :
  is_finite x = true -> exists n, int_of_float x = Ok n.
Proof.
  unfold is_finite, int_of_float.
  destruct (Prim2SF x); try discriminate; intros _; eexists; reflexivity.
Qed.

Lemma int_of_float_raise (x : float) (e : exn) :
  int_of_float x = Raise e ->
  e = ValueError \/ (e = OverflowError /\ is_inf x = true).
Proof.
  unfold is_inf, int_of_float.
  destruct (Prim2SF x); try discriminate; intros [= <-]; auto.
Qed.

Lemma map_snd_combine {A C : Type} (l : list A) :
  forall l' : list C, length l = length l' -> map snd (combine l l') = l'.
Proof.
  induction l as [|x l IH]; intros [|y l'] H; simpl in *; try discriminate.
  - reflexivity.
  - f_equal. apply IH. lia.
Qed.

Section Descriptor.

Hypothesis laws : PyLaws.

Lemma sorted_in {A : Type} (key : A -> float) (reverse : bool) (l : list A) (x : A) :
  In x (sorted B key reverse l) <-> In x l.
Proof.
  split; apply Permutation_in;
    [|symmetry]; apply (sorted_perm laws).
Qed.

(** The trades sorted by strike are the non-primary legs. *)
Lemma sorted_trades_perm (keys : list float) (legs : list Trade) :
  length keys = length legs ->
  Permutation (map snd (sorted B fst false (combine keys legs))) legs.
Proof.
  intros Hlen.
  transitivity (map snd (combine keys legs)).
  - apply Permutation_map. apply (sorted_perm laws).
  - rewrite map_snd_combine by exact Hlen. reflexivity.
Qed.

Lemma combined_info_raise (legs : list Trade) (e : exn) :
  (forall t x, In t legs -> strike_of t = Ok x -> is_inf x = false) ->
  combined_info legs = Raise e -> e = IndexError \/ e = ValueError.
Proof.
  intros Hfin. unfold combined_info.
  destruct legs as [|t0 legs']; [discriminate|].
  set (legs := t0 :: legs') in *.
  destruct (mapM strike_of legs) as [keys|e1] eqn:Ek; simpl.
  2: { intros [= <-]. destruct (mapM_raise _ _ _ Ek) as (x & _ & Hx).
       exact (strike_of_raise _ _ Hx). }
  assert (Hlen : length keys = length legs).
  { apply mapM_ok in Ek. symmetry. exact (Forall2_length _ _ _ Ek). }
  set (st := map snd (sorted B fst false (combine keys legs))).
  assert (Hst : forall t, In t st -> In t legs).
  { intros t. apply Permutation_in. apply sorted_trades_perm. exact Hlen. }
  destruct (mapM strike_of st) as [strikes|e2] eqn:Es; simpl.
  2: { intros [= <-]. destruct (mapM_raise _ _ _ Es) as (x & _ & Hx).
       exact (strike_of_raise _ _ Hx). }
  destruct (mapM (fun trade => index (split (Security_Info trade)) 2) st)
    as [types|e3] eqn:Et; simpl.
  2: { intros [= <-]. destruct (mapM_raise _ _ _ Et) as (x & _ & Hx).
       left. exact (index_raise _ _ _ Hx). }
  destruct (match st with
            | [] => Ok ""
            | first :: _ => index (split (Security_Info first)) 0
            end) as [expiry|e4] eqn:Ee; simpl.
  2: { intros [= <-]. destruct st; [discriminate|].
       left. exact (index_raise _ _ _ Ee). }
  destruct (nonempty_list strikes && nonempty_str expiry); [|discriminate].
  destruct (mapM _ (take 2 (sorted B (fun s => s) true strikes)))
    as [ft|e5] eqn:Ef; simpl; [discriminate|].
  intros [= <-]. destruct (mapM_raise _ _ _ Ef) as (s & Hs & Hraise).
  destruct (int_of_float s) as [n|e6] eqn:Ei; simpl in Hraise; [discriminate|].
  injection Hraise as ->.
  destruct (int_of_float_raise _ _ Ei) as [->|[-> Hinf]]; [right; reflexivity|].
  exfalso.
  apply list_elem_of_In, elem_of_take in Hs. destruct Hs as (j & Hj & _).
  assert (Hin : In s strikes).
  { apply (sorted_in (fun s => s) true). apply list_elem_of_In.
    eapply list_elem_of_lookup_2. exact Hj. }
  apply list_elem_of_In in Hin.
  destruct (proj1 (list_elem_of_lookup _ _) Hin) as [i Hi].
  apply mapM_ok in Es.
  destruct (Forall2_lookup_r _ _ _ _ _ Es Hi) as (t & Ht & Hts).
  assert (Hfalse : is_inf s = false).
  { apply (Hfin t); [|exact Hts]. apply Hst. apply list_elem_of_In.
    eapply list_elem_of_lookup_2. exact Ht. }
  congruence.
Qed.


Lemma non_smart_in (trades : list Trade) (t : Trade) :
  In t (non_smart trades) <-> In t trades /\ is_smart t = false.
Proof.
  unfold non_smart. rewrite List.filter_In, negb_true_iff. reflexivity.
Qed.

Lemma process_group_total (trades : list Trade) :
  (forall t x, In t trades -> strike_of t = Ok x -> is_inf x = false) ->
  exists out, process_group trades = Ok out.
Proof.
  intros Hfin. unfold process_group.
  destruct (length trades <=? 1)%nat; [eexists; reflexivity|].
  destruct (has_negative trades); [|eexists; reflexivity].
  unfold merge_combo.
  destruct (combined_info (non_smart trades)) as [d|e] eqn:Ec; simpl.
  - eexists. reflexivity.
  - destruct (combined_info_raise _ _
                (fun t x Ht => Hfin t x (proj1 (proj1 (non_smart_in _ _) Ht))) Ec)
      as [-> | ->]; eexists; reflexivity.
Qed.

(** ** The size of the ledger *)

Lemma process_groups_returns (trade_data : list Trade) :
  finite_strikes trade_data ->
  exists processed,
    process_groups (trade_groups (fill_buckets trade_data)) [] = Ok processed.
Proof.
  intros Hfin.
  destruct (fill_buckets_inv trade_data) as (_ & _ & _ & Hg & _).
  apply process_groups_total.
  intros k g Hkg. apply process_group_total. intros t x Ht.
  apply Hfin. destruct (Hg k g Hkg) as [-> _].
  apply List.filter_In in Ht. tauto.
Qed.


(** ** A merged group *)

Lemma string_of_list_nonempty (l : list ascii) :
  l <> [] -> nonempty_str (string_of_list_ascii l) = true.
Proof. destruct l; [congruence|reflexivity]. Qed.

Lemma split_go_tokens (s : string) :
  forall cur, Forall (fun tok => nonempty_str tok = true) (split_go cur s).
Proof.
  assert (Hflush : forall cur : list ascii,
            Forall (fun tok => nonempty_str tok = true)
              match cur with
              | [] => []
              | _ :: _ => [string_of_list_ascii (rev cur)]
              end).
  { intros [|c cur]; constructor; [|constructor].
    apply string_of_list_nonempty. simpl.
    intros H. apply app_eq_nil in H. destruct H as [_ H]. discriminate. }
  induction s as [|c s IH]; intros cur; simpl.
  - apply Hflush.
  - destruct (py_isspace c).
    + apply Forall_app. split; [apply Hflush|apply IH].
    + apply IH.
Qed.

Lemma first_token (s : string) (tok : string) :
  index (split s) 1 = Ok tok ->
  exists a, index (split s) 0 = Ok a /\ nonempty_str a = true.
Proof.
  unfold index, split.
  pose proof (split_go_tokens s []) as Htok.
  destruct (split_go [] s) as [|a [|b l]]; simpl; try discriminate.
  intros _. exists a. split; [reflexivity|].
  apply Forall_cons in Htok. tauto.
Qed.

Lemma fold_into_key (d : string) (p : float) (t : Trade) :
  Symbol (fold_into d p t) = Symbol t
  /\ Date_Time (fold_into d p t) = Date_Time t
  /\ Exchange (fold_into d p t) = Exchange t.
Proof.
  unfold fold_into.
  destruct (nonempty_str d), (negb (p =? 0)%float); simpl;
    try (destruct (Realized_PnL t) as [c|]; [destruct (truthy c)|]); simpl; auto.
Qed.

Lemma fold_into_info (d : string) (p : float) (t : Trade) :
  nonempty_str d = true -> Security_Info (fold_into d p t) = d.
Proof.
  intros Hd. unfold fold_into. rewrite Hd.
  destruct (negb (p =? 0)%float); simpl;
    try (destruct (Realized_PnL t) as [c|]; [destruct (truthy c)|]); reflexivity.
Qed.

(** Adding a number that is not zero to a zero gives that number: the
    branch of line 269 that drops a zero [current_pnl] computes the same
    value as the addition of line 267. *)
Lemma zero_plus (c x : float) :
  (c =? 0)%float = true -> (x =? 0)%float = false -> (c + x)%float = x.
Proof.
  intros Hc Hnz.
  apply Prim2SF_inj. rewrite add_spec.
  rewrite FloatAxioms.eqb_spec in Hc, Hnz.
  change (Prim2SF 0) with (S754_zero false) in Hc, Hnz.
  destruct (Prim2SF c) as [s|s| |s m e]; try destruct s; simpl in Hc; try discriminate;
    destruct (Prim2SF x) as [s'| | |]; simpl in Hnz; try discriminate; reflexivity.
Qed.

Lemma fold_into_pnl (d : string) (p : float) (t : Trade) :
  Realized_PnL (fold_into d p t) = folded_pnl p (Realized_PnL t).
Proof.
  unfold fold_into, folded_pnl.
  destruct (p =? 0)%float eqn:Ep; simpl.
  - destruct (nonempty_str d); reflexivity.
  - assert (Hr : Realized_PnL (if nonempty_str d then set_Security_Info d t else t)
                 = Realized_PnL t) by (destruct (nonempty_str d); reflexivity).
    rewrite Hr.
    destruct (Realized_PnL t) as [c|]; [|destruct (nonempty_str d); reflexivity].
    unfold truthy. destruct (c =? 0)%float eqn:Ec; simpl.
    + rewrite (zero_plus c p Ec Ep). destruct (nonempty_str d); reflexivity.
    + destruct (nonempty_str d); reflexivity.
Qed.

Lemma combined_info_ok (legs : list Trade) :
  legs <> [] ->
  (forall t, In t legs -> well_formed_leg t) ->
  exists d, combined_info legs = Ok d /\ nonempty_str d = true.
Proof.
  intros Hne Hwf. unfold combined_info.
  destruct legs as [|t0 legs']; [congruence|].
  set (legs := t0 :: legs') in *.
  destruct (mapM_total strike_of legs) as [keys Ek].
  { intros t Ht. destruct (Hwf t Ht) as (x & _ & Hx & _). eauto. }
  rewrite Ek. simpl.
  assert (Hlen : length keys = length legs).
  { apply mapM_ok in Ek. symmetry. exact (Forall2_length _ _ _ Ek). }
  pose proof (sorted_trades_perm keys legs Hlen) as Hperm.
  set (st := map snd (sorted B fst false (combine keys legs))) in *.
  assert (Hst : forall t, In t st -> In t legs).
  { intros t. apply Permutation_in. exact Hperm. }
  destruct (mapM_total strike_of st) as [strikes Es].
  { intros t Ht. destruct (Hwf t (Hst t Ht)) as (x & _ & Hx & _). eauto. }
  rewrite Es. simpl.
  destruct (mapM_total (fun trade => index (split (Security_Info trade)) 2) st)
    as [types Et].
  { intros t Ht. destruct (Hwf t (Hst t Ht)) as (_ & ty & _ & _ & Hty). eauto. }
  rewrite Et. simpl.
  pose proof (mapM_ok _ _ _ Es) as Hall.
  destruct st as [|first rest] eqn:Est.
  { apply Permutation_nil in Hperm. discriminate. }
  destruct (Hwf first (Hst first (or_introl eq_refl))) as (x0 & _ & Hx0 & _).
  assert (Hfirst : exists a, index (split (Security_Info first)) 0 = Ok a
                             /\ nonempty_str a = true).
  { unfold strike_of in Hx0.
    destruct (index (split (Security_Info first)) 1) as [tok|] eqn:E1;
      [|discriminate].
    exact (first_token _ _ E1). }
  destruct Hfirst as (a & Ha & Hane). rewrite Ha. simpl.
  inversion Hall as [|? s ? strikes' Hs0 Hrest]; subst. simpl. rewrite Hane.
  destruct (mapM_total (fun s => do n <- int_of_float s; Ok (str_of_int n))
              (take 2 (sorted B (fun s => s) true (s :: strikes')))) as [ft Ef].
  { intros y Hy.
    apply list_elem_of_In, elem_of_take in Hy. destruct Hy as (j & Hj & _).
    assert (Hin : In y (s :: strikes')).
    { apply (sorted_in (fun s => s) true). apply list_elem_of_In.
      eapply list_elem_of_lookup_2. exact Hj. }
    apply list_elem_of_In in Hin.
    destruct (proj1 (list_elem_of_lookup _ _) Hin) as [i Hi].
    destruct (Forall2_lookup_r _ _ _ _ _ Hall Hi) as (t & Ht & Hty).
    assert (Htl : In t legs).
    { apply Hst. apply list_elem_of_In. eapply list_elem_of_lookup_2. exact Ht. }
    destruct (Hwf t Htl) as (x & _ & Hx & Hfin & _).
    assert (x = y) by congruence. subst x.
    destruct (int_of_float_ok y Hfin) as [n ->]. simpl. eauto. }
  rewrite Ef. simpl. eexists. split; [reflexivity|].
  destruct a; [discriminate|reflexivity].
Qed.


Lemma in_group_fields (k : string * string) (t : Trade) :
  in_group k t = true ->
  is_stocks t = false
  /\ exists dt, strptime B (Date_Time t) DISPLAY_FORMAT = Some dt
                /\ k = (Symbol t, strftime B dt DISPLAY_FORMAT).
Proof.
  unfold in_group, classify, is_stocks.
  destruct (String.eqb (Security_Info t) "STOCKS"); [discriminate|].
  destruct (strptime B (Date_Time t) DISPLAY_FORMAT) as [dt|]; [|discriminate].
  intros H. apply time_key_eqb_eq in H. split; [reflexivity|]. eauto.
Qed.

Lemma process_group_members (trades out : list Trade) :
  process_group trades = Ok out ->
  forall t, In t out ->
    In t trades
    \/ exists t0 d p, In t0 trades /\ is_smart t0 = true /\ t = fold_into d p t0.
Proof.
  unfold process_group.
  destruct (length trades <=? 1)%nat; [intros [= <-]; auto|].
  destruct (has_negative trades); [|intros [= <-]; auto].
  destruct (merge_combo trades) as [o|e] eqn:Em.
  - intros [= <-] t Ht.
    destruct (merge_combo_ok _ _ Em) as (d & _ & ->).
    apply in_app_or in Ht. destruct Ht as [Ht|Ht].
    + apply in_map_iff in Ht. destruct Ht as (t0 & <- & Ht0).
      apply List.filter_In in Ht0. right. exists t0, d, (net_pnl (non_smart trades)).
      tauto.
    + destruct (existsb is_smart trades); [contradiction|auto].
  - destruct e; intros [= <-]; auto.
Qed.

Lemma merged_group_output (trades : list Trade) (d : string) :
  has_negative trades = true ->
  existsb is_smart trades = true ->
  non_smart trades <> [] ->
  combined_info (non_smart trades) = Ok d ->
  process_group trades
  = Ok (map (fold_into d (net_pnl (non_smart trades))) (List.filter is_smart trades)).
Proof.
  intros Hneg Hsm Hlegs Hd. unfold process_group.
  assert (Hlen : (length trades <=? 1)%nat = false).
  { apply Nat.leb_gt.
    apply existsb_exists in Hsm. destruct Hsm as (s & Hs & Hss).
    destruct (non_smart trades) as [|l ls] eqn:El; [congruence|].
    assert (Hl : In l trades /\ is_smart l = false).
    { apply non_smart_in. rewrite El. left. reflexivity. }
    destruct Hl as [Hl Hls].
    destruct trades as [|a [|b rest]]; simpl; [contradiction| |lia].
    destruct Hs as [<-|[]]. destruct Hl as [<-|[]]. congruence. }
  rewrite Hlen, Hneg. unfold merge_combo. rewrite Hd. simpl.
  rewrite Hsm, app_nil_r. reflexivity.
Qed.

(** ** The order of the floats *)

Lemma SFltb_trans (a b c : spec_float) :
  SFltb a b = true -> SFltb b c = true -> SFltb a c = true.
Proof.
  unfold SFltb, SFcompare.
  destruct a as [sa|sa| |sa ma ea], b as [sb|sb| |sb mb eb], c as [sc|sc| |sc mc ec];
    try destruct sa; try destruct sb; try destruct sc; simpl;
    try discriminate; try reflexivity.
  all: destruct (Z.compare_spec ea eb), (Z.compare_spec eb ec), (Z.compare_spec ea ec);
    try lia; try discriminate; try reflexivity; subst.
  all: rewrite ?Pos.compare_cont_spec; simpl;
    destruct (Pos.compare_spec ma mb), (Pos.compare_spec mb mc), (Pos.compare_spec ma mc);
    simpl; try lia; try discriminate; try reflexivity.
Qed.

Lemma SFltb_asym (a b : spec_float) : SFltb a b = true -> SFltb b a = false.
Proof.
  unfold SFltb, SFcompare.
  destruct a as [sa|sa| |sa ma ea], b as [sb|sb| |sb mb eb];
    try destruct sa; try destruct sb; simpl;
    try discriminate; try reflexivity.
  all: destruct (Z.compare_spec ea eb), (Z.compare_spec eb ea);
    try lia; try discriminate; try reflexivity; subst.
  all: rewrite ?Pos.compare_cont_spec; simpl;
    destruct (Pos.compare_spec ma mb), (Pos.compare_spec mb ma);
    simpl; try lia; try discriminate; try reflexivity.
Qed.

Lemma SFltb_neg_trans (a b c : spec_float) :
  SFltb a b = true -> SFltb c b = false -> c <> S754_nan -> SFltb a c = true.
Proof.
  unfold SFltb, SFcompare.
  destruct a as [sa|sa| |sa ma ea], b as [sb|sb| |sb mb eb], c as [sc|sc| |sc mc ec];
    try destruct sa; try destruct sb; try destruct sc; simpl;
    try discriminate; try reflexivity; try congruence.
  all: destruct (Z.compare_spec ea eb), (Z.compare_spec ec eb), (Z.compare_spec ea ec);
    try lia; try discriminate; try reflexivity; subst.
  all: rewrite ?Pos.compare_cont_spec; simpl;
    destruct (Pos.compare_spec ma mb), (Pos.compare_spec mc mb), (Pos.compare_spec ma mc);
    simpl; try lia; try discriminate; try reflexivity.
Qed.

Lemma ltb_trans (x y z : float) :
  (x <? y)%float = true -> (y <? z)%float = true -> (x <? z)%float = true.
Proof. rewrite !ltb_spec. apply SFltb_trans. Qed.

Lemma ltb_asym (x y : float) : (x <? y)%float = true -> (y <? x)%float = false.
Proof. rewrite !ltb_spec. apply SFltb_asym. Qed.

Lemma ltb_irrefl (x : float) : (x <? x)%float = false.
Proof.
  destruct (x <? x)%float eqn:E; [|reflexivity].
  rewrite (ltb_asym _ _ E) in E. discriminate.
Qed.

Lemma is_nan_spec (x : float) : is_nan x = false -> Prim2SF x <> S754_nan.
Proof.
  unfold is_nan. rewrite FloatAxioms.eqb_spec. intros H E. rewrite E in H. discriminate.
Qed.

Lemma ltb_neg_trans (x y z : float) :
  (x <? y)%float = true -> (z <? y)%float = false -> is_nan z = false ->
  (x <? z)%float = true.
Proof.
  rewrite !ltb_spec. intros Hxy Hzy Hz.
  exact (SFltb_neg_trans _ _ _ Hxy Hzy (is_nan_spec _ Hz)).
Qed.

Lemma finite_not_nan (x : float) : is_finite x = true -> is_nan x = false.
Proof.
  unfold is_finite, is_nan. rewrite FloatAxioms.eqb_spec.
  unfold SFeqb, SFcompare.
  destruct (Prim2SF x) as [s|s| |s m e]; try discriminate; intros _.
  - reflexivity.
  - destruct s; rewrite Z.compare_refl, Pos.compare_cont_refl; reflexivity.
Qed.

Lemma finite_not_inf (x : float) : is_finite x = true -> is_inf x = false.
Proof.
  unfold is_finite, is_inf. destruct (Prim2SF x); congruence.
Qed.

(** ** The insertion sort *)

Lemma insert_by_in {A : Type} (key : A -> float) (x z : A) (l : list A) :
  In z (insert_by key x l) <-> z = x \/ In z l.
Proof.
  induction l as [|y l IH]; simpl.
  - split; [intros [<-|[]]; auto|intros [->|[]]; auto].
  - destruct (key x <? key y)%float; simpl.
    + split; [intros [<-|H]; auto|intros [->|H]; auto].
    + rewrite IH. split; intros H; intuition.
Qed.

Lemma insert_by_sorted {A : Type} (key : A -> float) (x : A) (l : list A) :
  StronglySorted (fun a b => (key b <? key a)%float = false) l ->
  StronglySorted (fun a b => (key b <? key a)%float = false) (insert_by key x l).
Proof.
  induction 1 as [|y l Hl IH Hy]; simpl.
  - constructor; constructor.
  - destruct (key x <? key y)%float eqn:E.
    + constructor; [constructor; assumption|].
      constructor; [apply ltb_asym; exact E|].
      rewrite List.Forall_forall in Hy |- *. intros z Hz.
      destruct (key z <? key x)%float eqn:Ez; [|reflexivity].
      specialize (Hy z Hz). rewrite (ltb_trans _ _ _ Ez E) in Hy. discriminate.
    + constructor; [exact IH|].
      rewrite List.Forall_forall in Hy |- *. intros z Hz.
      apply insert_by_in in Hz. destruct Hz as [->|Hz]; [exact E|apply Hy; exact Hz].
Qed.

Lemma insertion_sorted {A : Type} (key : A -> float) (l : list A) :
  forall acc,
    StronglySorted (fun a b => (key b <? key a)%float = false) acc ->
    StronglySorted (fun a b => (key b <? key a)%float = false)
      (fold_left (fun acc x => insert_by key x acc) l acc).
Proof.
  induction l as [|x l IH]; intros acc Hacc; simpl; [exact Hacc|].
  apply IH. apply insert_by_sorted. exact Hacc.
Qed.

Lemma insertion_in {A : Type} (key : A -> float) (z : A) (l : list A) :
  forall acc,
    In z (fold_left (fun acc x => insert_by key x acc) l acc) <-> In z acc \/ In z l.
Proof.
  induction l as [|x l IH]; intros acc; simpl; [tauto|].
  rewrite IH, insert_by_in. intuition.
Qed.

(** The sort is stable at its head: the first record of the outcome is
    the first, in the order of the input, of the records of lowest key. *)
Lemma insertion_head {A : Type} (key : A -> float) (l : list A) :
  l <> [] ->
  Forall (fun x => is_nan (key x) = false) l ->
  exists before low after rest,
    l = before ++ low :: after
    /\ fold_left (fun acc x => insert_by key x acc) l [] = low :: rest
    /\ (forall z, In z before -> (key low <? key z)%float = true)
    /\ (forall z, In z after -> (key z <? key low)%float = false).
Proof.
  induction l as [|x l IH] using rev_ind; [congruence|].
  intros _ Hnan. apply Forall_app in Hnan. destruct Hnan as [Hl Hx].
  rewrite fold_left_app. simpl.
  assert (Hcase : l = [] \/ l <> []) by (destruct l; [left|right]; congruence).
  destruct Hcase as [->|Hne].
  - exists [], x, [], []. simpl. repeat split; intros z [].
  - destruct (IH Hne Hl) as (b & low & a & rest & Hdec & Hsort & Hb & Ha).
    rewrite Hsort. simpl.
    destruct (key x <? key low)%float eqn:E.
    + exists l, x, [], (low :: rest).
      split; [reflexivity|]. split; [reflexivity|]. split; [|intros z []].
      intros z Hz. rewrite Hdec in Hz. apply in_app_or in Hz.
      destruct Hz as [Hz|[<-|Hz]].
      * apply (ltb_trans _ _ _ E). apply Hb. exact Hz.
      * exact E.
      * apply (ltb_neg_trans _ _ _ E (Ha z Hz)).
        rewrite List.Forall_forall in Hl. apply Hl. rewrite Hdec.
        apply in_or_app. right. right. exact Hz.
    + exists b, low, (a ++ [x]), (insert_by key x rest).
      split; [rewrite Hdec, <- app_assoc; reflexivity|].
      split; [reflexivity|]. split; [exact Hb|].
      intros z Hz. apply in_app_or in Hz. destruct Hz as [Hz|[<-|[]]]; auto.
Qed.

Lemma StronglySorted_snoc {A : Type} (R : A -> A -> Prop) (l : list A) (x : A) :
  StronglySorted R l -> Forall (fun y => R y x) l -> StronglySorted R (l ++ [x]).
Proof.
  induction 1 as [|y l Hl IH Hy]; intros Hx; simpl.
  - constructor; constructor.
  - apply Forall_cons in Hx. destruct Hx as [Hyx Hx].
    constructor; [apply IH; exact Hx|].
    apply Forall_app. split; [exact Hy|constructor; [exact Hyx|constructor]].
Qed.

Lemma StronglySorted_rev {A : Type} (R : A -> A -> Prop) (l : list A) :
  StronglySorted R l -> StronglySorted (fun a b => R b a) (rev l).
Proof.
  induction 1 as [|y l Hl IH Hy]; simpl; [constructor|].
  apply StronglySorted_snoc; [exact IH|].
  rewrite List.Forall_forall in Hy |- *. intros z Hz. apply Hy. apply in_rev. exact Hz.
Qed.

Lemma stable_sort_highest_first (l : list float) :
  highest_first (stable_sort (fun s => s) true l).
Proof.
  unfold highest_first, stable_sort.
  apply (StronglySorted_rev (fun a b => (b <? a)%float = false)).
  apply (insertion_sorted (fun s : float => s)). constructor.
Qed.

(** ** The groups, read off the batch *)

Lemma in_group_keyed (k : string * string) (t : Trade) : in_group k t = keyed k t.
Proof.
  unfold in_group, keyed, classify, group_key, is_stocks.
  destruct (String.eqb (Security_Info t) "STOCKS"); [reflexivity|].
  destruct (strptime B (Date_Time t) DISPLAY_FORMAT); reflexivity.
Qed.

Lemma members_filter (k : string * string) (trade_data : list Trade) :
  List.filter (in_group k) trade_data = members k trade_data.
Proof. unfold members. apply List.filter_ext. intros t. apply in_group_keyed. Qed.

Lemma keyed_key (k : string * string) (t : Trade) :
  keyed k t = true <-> group_key t = Some k.
Proof.
  unfold keyed. destruct (group_key t) as [k'|].
  - rewrite time_key_eqb_eq. split; congruence.
  - split; discriminate.
Qed.

Lemma members_nonempty (k : string * string) (trade_data : list Trade) :
  members k trade_data <> [] <-> exists t, In t trade_data /\ group_key t = Some k.
Proof.
  unfold members. split.
  - intros H. destruct (List.filter (keyed k) trade_data) as [|t l] eqn:E; [congruence|].
    assert (Ht : In t (List.filter (keyed k) trade_data)) by (rewrite E; left; reflexivity).
    apply List.filter_In in Ht. destruct Ht as [Ht Hk].
    exists t. split; [exact Ht|apply keyed_key; exact Hk].
  - intros (t & Ht & Hk) E.
    assert (Hin : In t (List.filter (keyed k) trade_data)).
    { apply List.filter_In. split; [exact Ht|apply keyed_key; exact Hk]. }
    rewrite E in Hin. contradiction.
Qed.

Lemma group_is_members (trade_data : list Trade) (k : string * string) (g : list Trade) :
  In (k, g) (trade_groups (fill_buckets trade_data)) ->
  g = members k trade_data /\ g <> [].
Proof.
  intros H. destruct (fill_buckets_inv trade_data) as (_ & _ & _ & Hg & _).
  rewrite <- members_filter. apply Hg. exact H.
Qed.

Lemma members_is_group (trade_data : list Trade) (k : string * string) :
  members k trade_data <> [] ->
  In (k, members k trade_data) (trade_groups (fill_buckets trade_data)).
Proof.
  intros Hne. destruct (fill_buckets_inv trade_data) as (_ & _ & _ & Hg & Hc).
  destruct (in_dec (fun a b : string * string => decide (a = b)) k
              (map fst (trade_groups (fill_buckets trade_data)))) as [Hin|Hout].
  - apply in_map_iff in Hin. destruct Hin as ([k' g] & Hk & Hin). simpl in Hk. subst k'.
    destruct (Hg k g Hin) as [Heq _]. rewrite members_filter in Heq.
    rewrite <- Heq. exact Hin.
  - specialize (Hc k Hout). rewrite members_filter in Hc. congruence.
Qed.

Lemma group_keys_perm (trade_data : list Trade) :
  Permutation (map fst (trade_groups (fill_buckets trade_data))) (batch_keys trade_data).
Proof.
  destruct (fill_buckets_inv trade_data) as (_ & _ & Hnd & _).
  apply NoDup_Permutation; [exact Hnd|apply NoDup_remove_dups|].
  intros k. unfold batch_keys. rewrite elem_of_remove_dups, list_elem_of_omap.
  rewrite list_elem_of_In, in_map_iff. split.
  - intros ([k' g] & Hk & Hin). simpl in Hk. subst k'.
    destruct (group_is_members _ _ _ Hin) as [Heq Hne]. rewrite Heq in Hne.
    apply members_nonempty in Hne. destruct Hne as (t & Ht & Hk).
    exists t. split; [apply list_elem_of_In; exact Ht|exact Hk].
  - intros (t & Ht & Hk). exists (k, members k trade_data). split; [reflexivity|].
    apply members_is_group. apply members_nonempty.
    exists t. split; [apply list_elem_of_In; exact Ht|exact Hk].
Qed.

Lemma list_sum_perm (l l' : list nat) : Permutation l l' -> list_sum l = list_sum l'.
Proof. induction 1; simpl; lia. Qed.

(** ** The legs, read off their descriptors *)

Lemma leg_reads_spec (t : Trade) (e : string) (x : float) :
  leg_reads t = Some (e, x) ->
  strike_of t = Ok x
  /\ index (split (Security_Info t)) 0 = Ok e
  /\ nonempty_str e = true
  /\ exists ty, index (split (Security_Info t)) 2 = Ok ty.
Proof.
  unfold leg_reads, strike_of, index, split.
  pose proof (split_go_tokens (Security_Info t) []) as Htok.
  destruct (split_go [] (Security_Info t)) as [|a [|b [|c l]]]; try discriminate.
  simpl. destruct (float_of_str B b) as [y|]; [|discriminate].
  intros [= <- <-]. apply Forall_cons in Htok. destruct Htok as [Ha _].
  repeat split; try assumption. eauto.
Qed.

Lemma reads_spec (t : Trade) :
  reads t = is_ok (strike_of t) && is_ok (index (split (Security_Info t)) 2).
Proof.
  unfold reads, leg_reads, strike_of, index.
  destruct (split (Security_Info t)) as [|a [|b [|c l]]]; simpl; try reflexivity.
  - destruct (float_of_str B b); reflexivity.
  - destruct (float_of_str B b); reflexivity.
Qed.

Lemma combine_map_fst {A : Type} (f : A -> float) (l : list A) (p : float * A) :
  In p (combine (map f l) l) -> p.1 = f p.2.
Proof.
  induction l as [|x l IH]; simpl; [intros []|].
  intros [<-|H]; [reflexivity|apply IH; exact H].
Qed.

(** ** The descriptor of a combination *)

Lemma combined_info_descriptor (legs : list Trade) :
  legs <> [] ->
  (forall t, In t legs -> exists e x, leg_reads t = Some (e, x) /\ is_finite x = true) ->
  exists d, combined_info legs = Ok d /\ nonempty_str d = true
            /\ combo_descriptor legs d.
Proof.
  intros Hne Hwf.
  pose (sv := fun t => match leg_reads t with Some p => p.2 | None => 0%float end).
  assert (Hsvr : forall t e x, leg_reads t = Some (e, x) -> sv t = x).
  { intros t e x H. unfold sv. rewrite H. reflexivity. }
  assert (Hsv : forall l, (forall t, In t l -> In t legs) ->
                          mapM strike_of l = Ok (map sv l)).
  { induction l as [|t l IH]; intros Hl; simpl; [reflexivity|].
    destruct (Hwf t (Hl t (or_introl eq_refl))) as (e & x & Hr & _).
    destruct (leg_reads_spec _ _ _ Hr) as (-> & _). simpl.
    rewrite IH by (intros t' Ht'; apply Hl; right; exact Ht'). simpl.
    rewrite (Hsvr _ _ _ Hr). reflexivity. }
  assert (Hfin : forall t, In t legs -> is_finite (sv t) = true).
  { intros t Ht. destruct (Hwf t Ht) as (e & x & Hr & Hx).
    rewrite (Hsvr _ _ _ Hr). exact Hx. }
  assert (Hstr : forall l, (forall t, In t l -> In t legs) ->
                           leg_strikes l = map sv l).
  { induction l as [|t l IH]; intros Hl; [reflexivity|].
    destruct (Hwf t (Hl t (or_introl eq_refl))) as (e & x & Hr & _).
    change (leg_strikes (t :: l))
      with (match option_map snd (leg_reads t) with
            | Some y => y :: leg_strikes l
            | None => leg_strikes l
            end).
    rewrite Hr. simpl. rewrite (Hsvr _ _ _ Hr).
    rewrite IH by (intros t' Ht'; apply Hl; right; exact Ht'). reflexivity. }
  unfold combined_info.
  destruct legs as [|t0 legs'] eqn:Elegs; [congruence|]. rewrite <- Elegs in *.
  rewrite (Hsv legs) by auto. simpl.
  assert (Hlen : length (map sv legs) = length legs) by apply length_map.
  pose proof (sorted_trades_perm (map sv legs) legs Hlen) as Hperm.
  assert (Hnan : Forall (fun p : float * Trade => is_nan p.1 = false)
                   (combine (map sv legs) legs)).
  { apply List.Forall_forall. intros p Hp.
    rewrite (combine_map_fst sv legs p Hp). apply finite_not_nan. apply Hfin.
    destruct p as [y t]. exact (in_combine_r _ _ _ _ Hp). }
  rewrite (sorted_stable laws _ fst false _ Hnan) in Hperm |- *.
  unfold stable_sort in Hperm |- *.
  destruct (insertion_head fst (combine (map sv legs) legs))
    as (b & lowp & a & rest & Hdec & Hsort & Hb & Ha).
  { rewrite Elegs. discriminate. }
  { exact Hnan. }
  rewrite Hsort in Hperm |- *.
  set (st := map snd (lowp :: rest)) in *.
  assert (Hst : forall t, In t st -> In t legs).
  { intros t. apply Permutation_in. exact Hperm. }
  rewrite (Hsv st Hst). simpl.
  destruct (mapM_total (fun trade => index (split (Security_Info trade)) 2) st)
    as [types Et].
  { intros t Ht. destruct (Hwf t (Hst t Ht)) as (e & x & Hr & _).
    destruct (leg_reads_spec _ _ _ Hr) as (_ & _ & _ & ty & Hty). eauto. }
  pose proof Et as Et'. unfold st in Et'. simpl in Et'. rewrite Et'. simpl.
  assert (Hlow : In lowp.2 legs).
  { apply Hst. left. reflexivity. }
  destruct (Hwf _ Hlow) as (e0 & x0 & Hr0 & Hx0).
  destruct (leg_reads_spec _ _ _ Hr0) as (_ & He0 & Hne0 & _).
  rewrite He0. simpl. rewrite Hne0.
  set (strikes := sv lowp.2 :: map sv (map snd rest)).
  assert (Hstrikes : strikes = map sv st) by reflexivity.
  assert (Hsfin : forall y, In y strikes -> is_finite y = true).
  { intros y Hy. rewrite Hstrikes in Hy. apply in_map_iff in Hy.
    destruct Hy as (t & <- & Ht). apply Hfin. apply Hst. exact Ht. }
  assert (Hsnan : Forall (fun y : float => is_nan y = false) strikes).
  { apply List.Forall_forall. intros y Hy. apply finite_not_nan. apply Hsfin. exact Hy. }
  pose proof (sorted_perm laws _ (fun s : float => s) true strikes) as Hsp.
  pose proof (sorted_stable laws _ (fun s : float => s) true strikes Hsnan) as Hss.
  set (s := sorted B (fun s : float => s) true strikes) in *.
  destruct (mapM_total (fun y => do n <- int_of_float y; Ok (str_of_int n)) (take 2 s))
    as [strs Ef].
  { intros y Hy. apply list_elem_of_In, elem_of_take in Hy. destruct Hy as (j & Hj & _).
    assert (Hin : In y strikes).
    { apply (Permutation_in _ Hsp). apply list_elem_of_In.
      eapply list_elem_of_lookup_2. exact Hj. }
    destruct (int_of_float_ok y (Hsfin y Hin)) as [n ->]. simpl. eauto. }
  rewrite Ef. simpl. eexists. split; [reflexivity|].
  split; [destruct e0; [discriminate|reflexivity]|].
  assert (Hkey : forall p, In p (combine (map sv legs) legs) -> p.1 = sv p.2).
  { intros p. apply combine_map_fst. }
  assert (Hlk : lowp.1 = x0).
  { rewrite (Hkey lowp), (Hsvr _ _ _ Hr0); [reflexivity|].
    rewrite Hdec. apply in_or_app. right. left. reflexivity. }
  exists (map snd b), lowp.2, (map snd a), e0, x0, s, strs.
  split.
  { rewrite <- (map_snd_combine (map sv legs) legs Hlen) at 1.
    rewrite Hdec, map_app. reflexivity. }
  split; [exact Hr0|].
  split.
  { intros t e y Ht Hr. apply in_map_iff in Ht. destruct Ht as (p & <- & Hp).
    specialize (Hb p Hp). rewrite Hlk, (Hkey p) in Hb.
    - rewrite (Hsvr _ _ _ Hr) in Hb. exact Hb.
    - rewrite Hdec. apply in_or_app. left. exact Hp. }
  split.
  { intros t e y Ht Hr. apply in_map_iff in Ht. destruct Ht as (p & <- & Hp).
    specialize (Ha p Hp). rewrite Hlk, (Hkey p) in Ha.
    - rewrite (Hsvr _ _ _ Hr) in Ha. exact Ha.
    - rewrite Hdec. apply in_or_app. right. right. exact Hp. }
  split.
  { rewrite (Hstr legs) by auto. rewrite Hsp, Hstrikes. apply Permutation_map. exact Hperm. }
  split.
  { rewrite Hss. apply stable_sort_highest_first. }
  split; [|reflexivity].
  apply mapM_ok in Ef. eapply Forall2_impl; [exact Ef|].
  intros y str H. simpl in H.
  destruct (int_of_float y) as [n|]; simpl in H; [|discriminate].
  injection H as <-. eauto.
Qed.

Lemma forallb_false {A : Type} (f : A -> bool) (l : list A) :
  forallb f l = false -> exists x, In x l /\ f x = false.
Proof.
  induction l as [|y l IH]; simpl; [discriminate|].
  destruct (f y) eqn:E; simpl.
  - intros H. destruct (IH H) as (x & Hx & Hf). exists x. auto.
  - intros _. exists y. auto.
Qed.

(** On legs whose strikes are finite numbers the descriptor is computed
    exactly when every leg reads. *)
Lemma combined_info_reads (legs : list Trade) :
  (forall t x, In t legs -> strike_of t = Ok x -> is_finite x = true) ->
  is_ok (combined_info legs) = forallb reads legs.
Proof.
  intros Hnum. destruct (forallb reads legs) eqn:Er.
  - destruct legs as [|t0 legs'] eqn:El; [reflexivity|]. rewrite <- El in *.
    destruct (combined_info_descriptor legs) as (d & -> & _); [rewrite El; discriminate| |reflexivity].
    intros t Ht. rewrite forallb_forall in Er. specialize (Er t Ht).
    unfold reads in Er. destruct (leg_reads t) as [[e x]|] eqn:Hr; [|discriminate].
    exists e, x. split; [reflexivity|].
    apply (Hnum t x Ht). exact (proj1 (leg_reads_spec _ _ _ Hr)).
  - destruct (forallb_false _ _ Er) as (t & Ht & Hrt).
    rewrite reads_spec in Hrt. unfold combined_info.
    destruct legs as [|t0 legs'] eqn:El; [contradiction|]. rewrite <- El in *.
    destruct (mapM strike_of legs) as [keys|e1] eqn:Ek; simpl; [|reflexivity].
    assert (Hlen : length keys = length legs).
    { apply mapM_ok in Ek. symmetry. exact (Forall2_length _ _ _ Ek). }
    pose proof (sorted_trades_perm keys legs Hlen) as Hperm.
    set (st := map snd (sorted B fst false (combine keys legs))) in *.
    assert (Hts : In t st).
    { apply (Permutation_in _ (Permutation_sym Hperm)). exact Ht. }
    destruct (mapM strike_of st) as [strikes|e2] eqn:Es; simpl; [|reflexivity].
    assert (Hok : is_ok (strike_of t) = true).
    { destruct (is_ok (strike_of t)) eqn:E; [reflexivity|].
      pose proof (mapM_fails _ _ _ Hts E) as Hf. rewrite Es in Hf. discriminate. }
    rewrite Hok in Hrt. simpl in Hrt.
    pose proof (mapM_fails (fun trade => index (split (Security_Info trade)) 2)
                  _ _ Hts Hrt) as Hty.
    destruct (mapM (fun trade => index (split (Security_Info trade)) 2) st);
      [discriminate|reflexivity].
Qed.

Lemma merged_folds (g : list Trade) :
  (forall t x, In t g -> strike_of t = Ok x -> is_finite x = true) ->
  merged g = folds g.
Proof.
  intros Hnum. unfold merged, folds. f_equal.
  change (legs_of g) with (non_smart g).
  apply combined_info_reads. intros t x Ht. apply Hnum.
  apply non_smart_in in Ht. tauto.
Qed.

Lemma ledger_share_group_share (g : list Trade) :
  (forall t x, In t g -> strike_of t = Ok x -> is_finite x = true) ->
  ledger_share g = group_share g.
Proof.
  intros Hnum. unfold ledger_share, group_share. rewrite (merged_folds g Hnum).
  reflexivity.
Qed.

(** C3, as the code has it.  On a batch whose strike tokens, where they
    are numbers, are finite, [process_combos] returns, and the ledger
    has as many records as the batch has [STOCKS] records and other
    records whose time does not parse, plus, for every key of the batch,
    the share of its group: the number of its members on [SMART] when the
    group folds (more than one member, a negative price, a member on
    [SMART], legs that all read), and the number of its members when it
    does not.  Keys, groups and folding are those of the batch, not those
    of the run. *)
Theorem ledger_count (trade_data : list Trade) :
  numeric_strikes trade_data ->
  exists out,
    process_combos trade_data = Ok out
    /\ length out
       = (length (List.filter is_stocks trade_data)
          + length (List.filter unparsed trade_data)
          + list_sum (map (fun k => group_share (members k trade_data))
                        (batch_keys trade_data)))%nat.
Proof.
  intros Hnum.
  assert (Hfin : finite_strikes trade_data).
  { intros t x Ht Hx. apply finite_not_inf. exact (Hnum t x Ht Hx). }
  destruct (fill_buckets_inv trade_data) as (Hs & He & _).
  destruct (process_groups_returns trade_data Hfin) as [processed Hp].
  unfold process_combos. rewrite Hp. simpl. eexists. split; [reflexivity|].
  destruct (process_groups_ok _ _ _ Hp) as (outs & -> & Hall). simpl.
  rewrite !length_app, (concat_lengths _ _ Hall), Hs, He.
  assert (Hsum : map (fun kg : (string * string) * list Trade => ledger_share kg.2)
                   (trade_groups (fill_buckets trade_data))
                 = map (fun k => group_share (members k trade_data))
                     (map fst (trade_groups (fill_buckets trade_data)))).
  { rewrite map_map. apply map_ext_in. intros [k g] Hkg. simpl.
    destruct (group_is_members _ _ _ Hkg) as [Hg _]. rewrite <- Hg.
    apply ledger_share_group_share. intros t x Ht. apply Hnum.
    rewrite Hg in Ht. unfold members in Ht. apply List.filter_In in Ht. tauto. }
  rewrite Hsum.
  rewrite (list_sum_perm _ _
             (Permutation_map (fun k => group_share (members k trade_data))
                (group_keys_perm trade_data))).
  lia.
Qed.

(** ** The net of the legs and the record it is folded into *)

Lemma net_pnl_legs_net (legs : list Trade) : net_pnl legs = legs_net legs.
Proof.
  unfold net_pnl, legs_net.
  enough (H : forall a,
            fold_left pnl_step legs a
            = fold_left (fun sum x => (sum + x)%float)
                (omap (fun trade =>
                         match Realized_PnL trade with
                         | Some x => if (x =? 0)%float then None else Some x
                         | None => None
                         end) legs) a) by apply H.
  induction legs as [|t l IH]; intros a; [reflexivity|].
  change (fold_left pnl_step (t :: l) a) with (fold_left pnl_step l (pnl_step a t)).
  rewrite IH. unfold pnl_step, truthy. simpl.
  destruct (Realized_PnL t) as [x|]; [|reflexivity].
  destruct (x =? 0)%float; reflexivity.
Qed.

Lemma fold_into_absorbed (d : string) (p : float) (t : Trade) :
  nonempty_str d = true ->
  fold_into d p t = absorbed d (folded_pnl p (Realized_PnL t)) t.
Proof.
  intros Hd. unfold fold_into, folded_pnl, absorbed. rewrite Hd.
  destruct (p =? 0)%float eqn:Ep; simpl; [reflexivity|].
  destruct (Realized_PnL t) as [c|]; [|reflexivity].
  unfold truthy. destruct (c =? 0)%float eqn:Ec; simpl; [|reflexivity].
  rewrite (zero_plus c p Ec Ep). reflexivity.
Qed.

(** A merged group in the ledger, in the terms of the run: the members
    on [SMART] are there, updated by [fold_into]; the others are not. *)
Lemma merged_group_in_ledger (trade_data : list Trade)
    (k : string * string) (g : list Trade) :
  finite_strikes trade_data ->
  In (k, g) (trade_groups (fill_buckets trade_data)) ->
  has_negative g = true ->
  existsb is_smart g = true ->
  non_smart g <> [] ->
  (forall t, In t (non_smart g) -> well_formed_leg t) ->
  exists d out,
    combined_info (non_smart g) = Ok d
    /\ nonempty_str d = true
    /\ process_combos trade_data = Ok out
    /\ (forall t, In t g -> is_smart t = true ->
          In (fold_into d (net_pnl (non_smart g)) t) out
          /\ Security_Info (fold_into d (net_pnl (non_smart g)) t) = d
          /\ Realized_PnL (fold_into d (net_pnl (non_smart g)) t)
             = folded_pnl (net_pnl (non_smart g)) (Realized_PnL t))
    /\ (forall t, In t g -> is_smart t = false -> ~ In t out).
Proof.
  intros Hfin Hkg Hneg Hsm Hlegs Hwf.
  destruct (combined_info_ok _ Hlegs Hwf) as (d & Hd & Hdne).
  pose proof (merged_group_output g d Hneg Hsm Hlegs Hd) as Hgo.
  destruct (fill_buckets_inv trade_data) as (Hs & He & _ & Hg & _).
  destruct (process_groups_returns trade_data Hfin) as [processed Hp].
  exists d, (processed ++ stocks_trades (fill_buckets trade_data)
               ++ parse_error_trades (fill_buckets trade_data)).
  split; [exact Hd|]. split; [exact Hdne|].
  split; [unfold process_combos; rewrite Hp; reflexivity|].
  destruct (process_groups_ok _ _ _ Hp) as (outs & -> & Hall). simpl.
  apply list_elem_of_In in Hkg.
  destruct (proj1 (list_elem_of_lookup _ _) Hkg) as [i Hi].
  destruct (Forall2_lookup_l _ _ _ _ _ Hall Hi) as (o & Ho & Hgo').
  simpl in Hgo'. rewrite Hgo in Hgo'. injection Hgo' as <-.
  apply list_elem_of_In in Hkg. destruct (Hg k g Hkg) as [Hgk _].
  split.
  - intros t Ht Hst. split; [|split].
    + apply in_or_app. left. apply in_concat.
      eexists. split.
      * apply list_elem_of_In. eapply list_elem_of_lookup_2. exact Ho.
      * apply in_map. apply List.filter_In. auto.
    + apply fold_into_info. exact Hdne.
    + apply fold_into_pnl.
  - intros t Ht Hst Hin.
    assert (Htk : in_group k t = true).
    { rewrite Hgk in Ht. apply List.filter_In in Ht. tauto. }
    destruct (in_group_fields _ _ Htk) as (Hns & dt & Hdt & Hk).
    apply in_app_or in Hin. destruct Hin as [Hin|Hin].
    + apply in_concat in Hin. destruct Hin as (o' & Ho' & Hto').
      apply list_elem_of_In in Ho'.
      destruct (proj1 (list_elem_of_lookup _ _) Ho') as [j Hj].
      destruct (Forall2_lookup_r _ _ _ _ _ Hall Hj) as ([k' g'] & Hkg' & Hpg').
      simpl in Hpg'.
      assert (Hin' : In (k', g') (trade_groups (fill_buckets trade_data))).
      { apply list_elem_of_In. eapply list_elem_of_lookup_2. exact Hkg'. }
      destruct (Hg k' g' Hin') as [Hgk' _].
      assert (Hsame : forall t0, In t0 g' -> Symbol t0 = Symbol t ->
                        Date_Time t0 = Date_Time t -> g' = g).
      { intros t0 Ht0 Hsym Hdate.
        rewrite Hgk' in Ht0. apply List.filter_In in Ht0. destruct Ht0 as [_ Ht0].
        destruct (in_group_fields _ _ Ht0) as (_ & dt0 & Hdt0 & Hk').
        rewrite Hdate, Hdt in Hdt0. injection Hdt0 as <-.
        rewrite Hsym in Hk'. rewrite Hgk, Hgk'. congruence. }
      destruct (process_group_members _ _ Hpg' t Hto')
        as [Htg'|(t0 & d' & p' & Ht0 & Hs0 & ->)].
      * assert (Heq : g' = g) by (apply (Hsame t Htg'); reflexivity).
        rewrite Heq, Hgo in Hpg'. injection Hpg' as <-.
        apply in_map_iff in Hto'. destruct Hto' as (t1 & <- & Ht1).
        apply List.filter_In in Ht1. destruct Ht1 as [_ Ht1].
        unfold is_smart in Hst, Ht1.
        rewrite (proj2 (proj2 (fold_into_key _ _ _))) in Hst. congruence.
      * unfold is_smart in Hst, Hs0.
        rewrite (proj2 (proj2 (fold_into_key _ _ _))) in Hst. congruence.
    + apply in_app_or in Hin. destruct Hin as [Hin|Hin].
      * rewrite Hs in Hin. apply List.filter_In in Hin. destruct Hin as [_ Hin].
        congruence.
      * rewrite He in Hin. apply List.filter_In in Hin. destruct Hin as [_ Hin].
        unfold unparsed in Hin. rewrite Hdt, andb_false_r in Hin. discriminate.
Qed.

(** C10.  Which members are primary legs is decided by the exchange
    alone.  In a group of the batch with a member at a negative price, a
    member on [SMART] and at least one other member, every other member a
    leg that reads with a finite strike: every member on [SMART],
    whatever its [Security_Info], a stock record included, is in the
    ledger with the descriptor of the combination for [Security_Info]
    (the expiry token of the first leg of lowest strike, then the two
    highest strikes, highest first) and with the net of the legs folded
    into its [Realized_PnL] when that net is not zero, every other field
    as it was; no other member of the group is in the ledger. *)
Theorem smart_members_absorb_combo (trade_data : list Trade)
    (k : string * string) (g : list Trade) :
  finite_strikes trade_data ->
  members k trade_data = g ->
  existsb (fun trade => (Price trade <? 0)%float) g = true ->
  existsb on_smart g = true ->
  legs_of g <> [] ->
  (forall t, In t (legs_of g) ->
     exists e x, leg_reads t = Some (e, x) /\ is_finite x = true) ->
  exists d out,
    combo_descriptor (legs_of g) d
    /\ process_combos trade_data = Ok out
    /\ (forall t, In t g -> on_smart t = true ->
          In (absorbed d (folded_pnl (legs_net (legs_of g)) (Realized_PnL t)) t) out)
    /\ (forall t, In t g -> on_smart t = false -> ~ In t out).
Proof.
  intros Hfin Hg Hneg Hsm Hlegs Hreads.
  assert (Hkg : In (k, g) (trade_groups (fill_buckets trade_data))).
  { rewrite <- Hg. apply members_is_group. rewrite Hg. intros ->. apply Hlegs. reflexivity. }
  assert (Hwf : forall t, In t (non_smart g) -> well_formed_leg t).
  { intros t Ht. destruct (Hreads t Ht) as (e & x & Hr & Hx).
    destruct (leg_reads_spec _ _ _ Hr) as (Hs & _ & _ & ty & Hty).
    exists x, ty. auto. }
  destruct (merged_group_in_ledger trade_data k g Hfin Hkg Hneg Hsm Hlegs Hwf)
    as (d & out & Hd & Hdne & Hout & Hin & Hnot).
  destruct (combined_info_descriptor (legs_of g) Hlegs Hreads) as (d' & Hd' & _ & Hdesc).
  assert (d' = d).
  { change (legs_of g) with (non_smart g) in Hd'. congruence. }
  subst d'. exists d, out.
  split; [exact Hdesc|]. split; [exact Hout|]. split; [|exact Hnot].
  intros t Ht Hst. destruct (Hin t Ht Hst) as (Hi & _).
  rewrite (fold_into_absorbed _ _ _ Hdne), net_pnl_legs_net in Hi. exact Hi.
Qed.

Lemma strike_failure_caught (trades : list Trade) (t : Trade) :
  In t trades -> is_smart t = false -> is_ok (strike_of t) = false ->
  process_group trades = Ok trades.
Proof.
  intros Ht Hsm Hfail. unfold process_group.
  destruct (length trades <=? 1)%nat; [reflexivity|].
  destruct (has_negative trades); [|reflexivity].
  assert (Hleg : In t (non_smart trades)) by (apply non_smart_in; auto).
  unfold merge_combo, combined_info.
  destruct (non_smart trades) as [|t0 legs'] eqn:El; [contradiction|].
  pose proof (mapM_fails strike_of _ t Hleg Hfail) as Hm.
  destruct (mapM strike_of (t0 :: legs')) as [keys|e] eqn:Ek; [discriminate|].
  simpl. destruct (mapM_raise _ _ _ Ek) as (x & _ & Hx).
  destruct (strike_of_raise _ _ Hx) as [-> | ->]; reflexivity.
Qed.



(** A leg off [SMART] whose strike does not read leaves its group as it
    came: the handler of line 278 takes the [IndexError] or the
    [ValueError], and nothing is raised. *)
Lemma failed_strike_passes_group (trades : list Trade) (t : Trade) :
  In t trades -> is_smart t = false -> is_ok (strike_of t) = false ->
  process_group trades = Ok trades
  /\ forall r, In r trades -> exists out, process_group trades = Ok out /\ In r out.
Proof.
  intros Ht Hsm Hfail.
  pose proof (strike_failure_caught trades t Ht Hsm Hfail) as H.
  split; [exact H|]. intros r Hr. exists trades. split; assumption.
Qed.

(** On a batch without an infinite strike token, the members of a group
    with a leg whose strike does not read are all in the ledger, as they
    came. *)
Lemma failed_strike_group_in_ledger (trade_data : list Trade)
    (k : string * string) (g : list Trade) (t : Trade) :
  finite_strikes trade_data ->
  In (k, g) (trade_groups (fill_buckets trade_data)) ->
  In t g -> is_smart t = false -> is_ok (strike_of t) = false ->
  exists out,
    process_combos trade_data = Ok out /\ forall r, In r g -> In r out.
Proof.
  intros Hfin Hkg Ht Hsm Hfail.
  destruct (process_groups_returns trade_data Hfin) as [processed Hp].
  unfold process_combos. rewrite Hp. simpl. eexists. split; [reflexivity|].
  destruct (process_groups_ok _ _ _ Hp) as (outs & -> & Hall). simpl.
  apply list_elem_of_In in Hkg.
  destruct (proj1 (list_elem_of_lookup _ _) Hkg) as [i Hi].
  destruct (Forall2_lookup_l _ _ _ _ _ Hall Hi) as (o & Ho & Hgo).
  simpl in Hgo. rewrite (strike_failure_caught g t Ht Hsm Hfail) in Hgo.
  injection Hgo as <-.
  intros r Hr. apply in_or_app. left. apply in_concat.
  exists g. split; [|exact Hr].
  apply list_elem_of_In. eapply list_elem_of_lookup_2. exact Ho.
Qed.

(** ** The combo netting example *)

Lemma Permutation_filter_bool {A : Type} (f : A -> bool) (l l' : list A) :
  Permutation l l' -> Permutation (List.filter f l) (List.filter f l').
Proof.
  induction 1 as [|x l l' _ IH|x y l|l l' l'' _ IH1 _ IH2]; simpl.
  - constructor.
  - destruct (f x); [constructor|]; exact IH.
  - destruct (f x), (f y); try reflexivity. constructor.
  - etransitivity; eassumption.
Qed.

Section Example.

Variables leg1 leg2 : Trade.
Hypothesis H100 : float_of_str B "100" = Some 100%float.
Hypothesis H105 : float_of_str B "105" = Some 105%float.
Hypothesis Hsi1 : Security_Info leg1 = "MAR'15'24 100 CALL".
Hypothesis Hsi2 : Security_Info leg2 = "MAR'15'24 105 CALL".
Hypothesis Hpnl1 : Realized_PnL leg1 = Some 50%float.
Hypothesis Hpnl2 : Realized_PnL leg2 = Some (-20)%float.

Lemma strike_leg1 : strike_of leg1 = Ok 100%float.
Proof.
  unfold strike_of. rewrite Hsi1.
  change (split "MAR'15'24 100 CALL") with ["MAR'15'24"; "100"; "CALL"].
  simpl. rewrite H100. reflexivity.
Qed.

Lemma strike_leg2 : strike_of leg2 = Ok 105%float.
Proof.
  unfold strike_of. rewrite Hsi2.
  change (split "MAR'15'24 105 CALL") with ["MAR'15'24"; "105"; "CALL"].
  simpl. rewrite H105. reflexivity.
Qed.

Lemma example_descriptor (legs : list Trade) :
  legs = [leg1; leg2] \/ legs = [leg2; leg1] ->
  combined_info legs = Ok "MAR'15'24 105/100".
Proof.
  intros [-> | ->]; unfold combined_info; simpl;
    rewrite strike_leg1, strike_leg2; simpl;
    (rewrite (sorted_stable laws) by (repeat constructor)).
  - change (stable_sort fst false [(100%float, leg1); (105%float, leg2)])
      with [(100%float, leg1); (105%float, leg2)].
    simpl. rewrite strike_leg1, strike_leg2. simpl.
    rewrite Hsi1, Hsi2.
    change (split "MAR'15'24 100 CALL") with ["MAR'15'24"; "100"; "CALL"].
    change (split "MAR'15'24 105 CALL") with ["MAR'15'24"; "105"; "CALL"].
    simpl.
    rewrite (sorted_stable laws) by (repeat constructor).
    vm_compute. reflexivity.
  - change (stable_sort fst false [(105%float, leg2); (100%float, leg1)])
      with [(100%float, leg1); (105%float, leg2)].
    simpl. rewrite strike_leg1, strike_leg2. simpl.
    rewrite Hsi1, Hsi2.
    change (split "MAR'15'24 100 CALL") with ["MAR'15'24"; "100"; "CALL"].
    change (split "MAR'15'24 105 CALL") with ["MAR'15'24"; "105"; "CALL"].
    simpl.
    rewrite (sorted_stable laws) by (repeat constructor).
    vm_compute. reflexivity.
Qed.

Lemma example_net (legs : list Trade) :
  legs = [leg1; leg2] \/ legs = [leg2; leg1] -> net_pnl legs = 30%float.
Proof.
  intros [-> | ->]; unfold net_pnl, pnl_step; simpl;
    rewrite Hpnl1, Hpnl2; vm_compute; reflexivity.
Qed.

End Example.

(** The example for any record on [SMART] whose [Security_Info] is not
    the plural marker [STOCKS], which the first loop sets aside. *)
Lemma combo_netting_general (leg1 leg2 smart : Trade) (trade_data : list Trade)
    (dt : datetime) :
  strptime B "01.03.2024 15:30:00" DISPLAY_FORMAT = Some dt ->
  float_of_str B "100" = Some 100%float ->
  float_of_str B "105" = Some 105%float ->
  Permutation trade_data [leg1; leg2; smart] ->
  (forall t, In t [leg1; leg2; smart] ->
     Symbol t = "XYZ" /\ Date_Time t = "01.03.2024 15:30:00") ->
  Exchange leg1 <> "SMART" ->
  Security_Info leg1 = "MAR'15'24 100 CALL" ->
  Realized_PnL leg1 = Some 50%float ->
  Exchange leg2 <> "SMART" ->
  Security_Info leg2 = "MAR'15'24 105 CALL" ->
  Realized_PnL leg2 = Some (-20)%float ->
  (Price leg1 <? 0)%float = true \/ (Price leg2 <? 0)%float = true ->
  Exchange smart = "SMART" ->
  Security_Info smart <> "STOCKS" ->
  exists merged_leg,
    process_combos trade_data = Ok [merged_leg]
    /\ merged_leg
       = set_Realized_PnL
           match Realized_PnL smart with
           | Some current => (current + 30)%float
           | None => 30%float
           end
           (set_Security_Info "MAR'15'24 105/100" smart)
    /\ ~ In leg1 [merged_leg] /\ ~ In leg2 [merged_leg].
Proof.
  intros Hdt H100 H105 Hperm Hkey Hx1 Hsi1 Hp1 Hx2 Hsi2 Hp2 Hneg Hxs Hsis.
  set (K := ("XYZ", strftime B dt DISPLAY_FORMAT)).
  assert (Hin : forall t, In t trade_data -> In t [leg1; leg2; smart]).
  { intros t. apply Permutation_in. exact Hperm. }
  assert (Hni : forall t, In t [leg1; leg2; smart] -> In t trade_data).
  { intros t. apply Permutation_in. symmetry. exact Hperm. }
  assert (Hs1 : is_smart leg1 = false) by (apply String.eqb_neq; exact Hx1).
  assert (Hs2 : is_smart leg2 = false) by (apply String.eqb_neq; exact Hx2).
  assert (Hss : is_smart smart = true) by (apply String.eqb_eq; exact Hxs).
  assert (Hcl : forall t, In t trade_data -> classify t = Grouped K).
  { intros t Ht. destruct (Hkey t (Hin t Ht)) as [Hsym Hdate].
    unfold classify. rewrite Hsym, Hdate, Hdt.
    assert (Hns : String.eqb (Security_Info t) "STOCKS" = false).
    { destruct (Hin t Ht) as [<-|[<-|[<-|[]]]].
      - rewrite Hsi1. reflexivity.
      - rewrite Hsi2. reflexivity.
      - apply String.eqb_neq. exact Hsis. }
    rewrite Hns. reflexivity. }
  assert (Hne : trade_data <> []).
  { intros ->. apply Permutation_nil in Hperm. discriminate. }
  assert (Hsm : List.filter is_smart trade_data = [smart]).
  { apply Permutation_length_1_inv. symmetry.
    rewrite (Permutation_filter_bool is_smart _ _ Hperm). simpl.
    rewrite Hs1, Hs2, Hss. reflexivity. }
  assert (Hlegs : non_smart trade_data = [leg1; leg2]
                  \/ non_smart trade_data = [leg2; leg1]).
  { apply Permutation_length_2_inv. symmetry. unfold non_smart.
    rewrite (Permutation_filter_bool _ _ _ Hperm). simpl.
    rewrite Hs1, Hs2, Hss. reflexivity. }
  assert (Hexs : existsb is_smart trade_data = true).
  { apply existsb_exists. exists smart. split; [|exact Hss].
    apply Hni. simpl. auto. }
  assert (Hnegs : has_negative trade_data = true).
  { apply existsb_exists. destruct Hneg as [H|H]; [exists leg1|exists leg2];
      (split; [apply Hni; simpl; auto|exact H]). }
  assert (Hnel : non_smart trade_data <> []).
  { destruct Hlegs as [-> | ->]; discriminate. }
  pose proof (example_descriptor leg1 leg2 H100 H105 Hsi1 Hsi2 _ Hlegs) as Hd.
  pose proof (example_net leg1 leg2 Hp1 Hp2 _ Hlegs) as Hnet.
  pose proof (merged_group_output trade_data _ Hnegs Hexs Hnel Hd) as Hgo.
  rewrite Hsm, Hnet in Hgo. simpl in Hgo.
  eexists. split; [|split].
  - unfold process_combos. rewrite (fill_buckets_single K _ Hne Hcl). simpl.
    rewrite Hgo. simpl. reflexivity.
  - unfold fold_into. simpl.
    change (negb (30 =? 0)%float) with true. simpl.
    destruct (Realized_PnL smart) as [c|]; [|reflexivity].
    unfold truthy. destruct (c =? 0)%float eqn:Ec; simpl; [|reflexivity].
    rewrite (zero_plus c 30 Ec eq_refl). reflexivity.
  - assert (Hex : Exchange (fold_into "MAR'15'24 105/100" 30 smart) = "SMART").
    { rewrite (proj2 (proj2 (fold_into_key _ _ _))). exact Hxs. }
    split; intros [H|[]]; rewrite H in Hex; congruence.
Qed.

(** C1.  The combo netting example.  Three records on symbol [XYZ] at
    [01.03.2024 15:30:00], in any order: two off [SMART] with the
    descriptors [MAR'15'24 100 CALL] (realized PnL 50) and
    [MAR'15'24 105 CALL] (realized PnL -20), one of them at a negative
    price, and one on [SMART] with the descriptor [MAR'15'24 100 CALL].
    The ledger is the [SMART] record alone, with [MAR'15'24 105/100] for
    [Security_Info] and 30 added to its realized PnL (30 if it was
    empty); the two other records are not in it. *)
Theorem combo_netting_example (leg1 leg2 smart : Trade) (trade_data : list Trade)
    (dt : datetime) :
  strptime B "01.03.2024 15:30:00" DISPLAY_FORMAT = Some dt ->
  float_of_str B "100" = Some 100%float ->
  float_of_str B "105" = Some 105%float ->
  Permutation trade_data [leg1; leg2; smart] ->
  (forall t, In t [leg1; leg2; smart] ->
     Symbol t = "XYZ" /\ Date_Time t = "01.03.2024 15:30:00") ->
  Exchange leg1 <> "SMART" ->
  Security_Info leg1 = "MAR'15'24 100 CALL" ->
  Realized_PnL leg1 = Some 50%float ->
  Exchange leg2 <> "SMART" ->
  Security_Info leg2 = "MAR'15'24 105 CALL" ->
  Realized_PnL leg2 = Some (-20)%float ->
  (Price leg1 <? 0)%float = true \/ (Price leg2 <? 0)%float = true ->
  Exchange smart = "SMART" ->
  Security_Info smart = "MAR'15'24 100 CALL" ->
  exists merged_leg,
    process_combos trade_data = Ok [merged_leg]
    /\ merged_leg
       = set_Realized_PnL
           match Realized_PnL smart with
           | Some current => (current + 30)%float
           | None => 30%float
           end
           (set_Security_Info "MAR'15'24 105/100" smart)
    /\ ~ In leg1 [merged_leg] /\ ~ In leg2 [merged_leg].
Proof.
  intros Hdt H100 H105 Hperm Hkey Hx1 Hsi1 Hp1 Hx2 Hsi2 Hp2 Hneg Hxs Hsis.
  apply (combo_netting_general leg1 leg2 smart trade_data dt); try assumption.
  rewrite Hsis. discriminate.
Qed.


(** ** Which exceptions [process_combos] lets out *)

Lemma combined_info_raise_cases (legs : list Trade) (e : exn) :
  combined_info legs = Raise e ->
  e = IndexError \/ e = ValueError
  \/ (e = OverflowError
      /\ exists t x, In t legs /\ strike_of t = Ok x /\ is_inf x = true).
Proof.
  unfold combined_info.
  destruct legs as [|t0 legs']; [discriminate|].
  set (legs := t0 :: legs') in *.
  destruct (mapM strike_of legs) as [keys|e1] eqn:Ek; simpl.
  2: { intros [= <-]. destruct (mapM_raise _ _ _ Ek) as (x & _ & Hx).
       destruct (strike_of_raise _ _ Hx); auto. }
  assert (Hlen : length keys = length legs).
  { apply mapM_ok in Ek. symmetry. exact (Forall2_length _ _ _ Ek). }
  set (st := map snd (sorted B fst false (combine keys legs))).
  assert (Hst : forall t, In t st -> In t legs).
  { intros t. apply Permutation_in. apply sorted_trades_perm. exact Hlen. }
  destruct (mapM strike_of st) as [strikes|e2] eqn:Es; simpl.
  2: { intros [= <-]. destruct (mapM_raise _ _ _ Es) as (x & _ & Hx).
       destruct (strike_of_raise _ _ Hx); auto. }
  destruct (mapM (fun trade => index (split (Security_Info trade)) 2) st)
    as [types|e3] eqn:Et; simpl.
  2: { intros [= <-]. destruct (mapM_raise _ _ _ Et) as (x & _ & Hx).
       left. exact (index_raise _ _ _ Hx). }
  destruct (match st with
            | [] => Ok ""
            | first :: _ => index (split (Security_Info first)) 0
            end) as [expiry|e4] eqn:Ee; simpl.
  2: { intros [= <-]. destruct st; [discriminate|].
       left. exact (index_raise _ _ _ Ee). }
  destruct (nonempty_list strikes && nonempty_str expiry); [|discriminate].
  destruct (mapM _ (take 2 (sorted B (fun s => s) true strikes)))
    as [ft|e5] eqn:Ef; simpl; [discriminate|].
  intros [= <-]. destruct (mapM_raise _ _ _ Ef) as (s & Hs & Hraise).
  destruct (int_of_float s) as [n|e6] eqn:Ei; simpl in Hraise; [discriminate|].
  injection Hraise as ->.
  destruct (int_of_float_raise _ _ Ei) as [->|[-> Hinf]]; [auto|].
  right. right. split; [reflexivity|].
  apply list_elem_of_In, elem_of_take in Hs. destruct Hs as (j & Hj & _).
  assert (Hin : In s strikes).
  { apply (sorted_in (fun s => s) true). apply list_elem_of_In.
    eapply list_elem_of_lookup_2. exact Hj. }
  apply list_elem_of_In in Hin.
  destruct (proj1 (list_elem_of_lookup _ _) Hin) as [i Hi].
  apply mapM_ok in Es.
  destruct (Forall2_lookup_r _ _ _ _ _ Es Hi) as (t & Ht & Hts).
  exists t, s. split; [|split; assumption].
  apply Hst. apply list_elem_of_In. eapply list_elem_of_lookup_2. exact Ht.
Qed.

Lemma process_group_raise_cases (trades : list Trade) (e : exn) :
  process_group trades = Raise e ->
  e = OverflowError
  /\ has_negative trades = true
  /\ exists t x, In t trades /\ is_smart t = false
                 /\ strike_of t = Ok x /\ is_inf x = true.
Proof.
  unfold process_group.
  destruct (length trades <=? 1)%nat; [discriminate|].
  destruct (has_negative trades); [|discriminate].
  unfold merge_combo.
  destruct (combined_info (non_smart trades)) as [d|e'] eqn:Ec; simpl; [discriminate|].
  destruct (combined_info_raise_cases _ _ Ec) as [->|[->|[-> (t & x & Ht & Hx & Hi)]]];
    try discriminate.
  intros [= <-]. split; [reflexivity|]. split; [reflexivity|].
  apply non_smart_in in Ht. destruct Ht as [Ht Hs].
  exists t, x. auto.
Qed.

Lemma process_groups_raise (gs : list ((string * string) * list Trade)) :
  forall acc e,
    process_groups gs acc = Raise e ->
    exists k g, In (k, g) gs /\ process_group g = Raise e.
Proof.
  induction gs as [|[k g] gs IH]; intros acc e H; simpl in H; [discriminate|].
  destruct (process_group g) as [o|e'] eqn:Eg; simpl in H.
  - destruct (IH _ _ H) as (k' & g' & Hin & Hg'). exists k', g'. split; [right|]; auto.
  - injection H as ->. exists k, g. split; [left; reflexivity|exact Eg].
Qed.

(** X3.  [process_combos] lets out no exception but [OverflowError], and
    that one only when a record off [SMART], in a group with a negative
    price, has a strike token that reads as an infinity. *)
Theorem process_combos_raises_overflow_only (trade_data : list Trade) (e : exn) :
  process_combos trade_data = Raise e ->
  e = OverflowError
  /\ exists k g t x,
       In (k, g) (trade_groups (fill_buckets trade_data))
       /\ has_negative g = true
       /\ In t g /\ In t trade_data /\ is_smart t = false
       /\ strike_of t = Ok x /\ is_inf x = true.
Proof.
  unfold process_combos.
  destruct (process_groups (trade_groups (fill_buckets trade_data)) [])
    as [processed|e'] eqn:Hp; simpl; [discriminate|].
  intros [= <-].
  destruct (process_groups_raise _ _ _ Hp) as (k & g & Hkg & Hg).
  destruct (process_group_raise_cases _ _ Hg) as (-> & Hneg & t & x & Ht & Hs & Hx & Hi).
  split; [reflexivity|]. exists k, g, t, x.
  destruct (fill_buckets_inv trade_data) as (_ & _ & _ & Hgr & _).
  destruct (Hgr k g Hkg) as [Hgk _].
  repeat split; try assumption.
  rewrite Hgk in Ht. apply List.filter_In in Ht. tauto.
Qed.

End Descriptor.


(** ** The buckets hold the batch *)

Lemma groups_append_contents k t (gs : list ((string * string) * list Trade)) :
  Permutation (concat (map snd (groups_append k t gs)))
              (concat (map snd gs) ++ [t]).
Proof.
  induction gs as [|[k1 g1] gs IH]; simpl; [reflexivity|].
  destruct (time_key_eqb k k1); simpl.
  - rewrite <- !app_assoc. apply Permutation_app_head. apply Permutation_app_comm.
  - rewrite IH, app_assoc. reflexivity.
Qed.

Lemma bucket_step_contents (st : buckets) (t : Trade) :
  Permutation (bucket_contents (bucket_step st t)) (bucket_contents st ++ [t]).
Proof.
  unfold bucket_contents, bucket_step.
  destruct (classify t); simpl.
  - rewrite <- !app_assoc. apply Permutation_app_head.
    apply Permutation_app_head. apply Permutation_app_comm.
  - rewrite groups_append_contents, <- !app_assoc. apply Permutation_app_head.
    rewrite (app_assoc (stocks_trades st)). apply Permutation_app_comm.
  - rewrite <- !app_assoc. reflexivity.
Qed.

Lemma fill_buckets_contents (trade_data : list Trade) :
  Permutation (bucket_contents (fill_buckets trade_data)) trade_data.
Proof.
  unfold fill_buckets.
  induction trade_data as [|t l IH] using rev_ind; [reflexivity|].
  rewrite fold_left_app. simpl. rewrite bucket_step_contents, IH. reflexivity.
Qed.

Lemma group_members_in (trade_data : list Trade) (k : string * string)
    (g : list Trade) :
  In (k, g) (trade_groups (fill_buckets trade_data)) ->
  forall t, In t g -> In t trade_data /\ in_group k t = true.
Proof.
  intros Hkg t Ht.
  destruct (fill_buckets_inv trade_data) as (_ & _ & _ & Hg & _).
  destruct (Hg k g Hkg) as [Hgk _]. rewrite Hgk in Ht.
  apply List.filter_In in Ht. exact Ht.
Qed.

Lemma process_groups_unchanged (gs : list ((string * string) * list Trade)) :
  (forall k g, In (k, g) gs -> process_group g = Ok g) ->
  forall acc, process_groups gs acc = Ok (acc ++ concat (map snd gs)).
Proof.
  induction gs as [|[k g] gs IH]; intros H acc; simpl.
  - rewrite app_nil_r. reflexivity.
  - rewrite (H k g (or_introl eq_refl)). simpl.
    rewrite IH; [rewrite <- app_assoc; reflexivity|].
    intros k' g' Hin. apply (H k' g'). right. exact Hin.
Qed.

(** X4.  A batch without a negative price goes through [process_combos]
    untouched: the call returns, and the ledger is the batch, permuted
    (groups in the order of their first record, then the [STOCKS]
    records, then the records whose time does not parse). *)
Theorem no_negative_price_no_merge (trade_data : list Trade) :
  (forall t, In t trade_data -> (Price t <? 0)%float = false) ->
  process_combos trade_data = Ok (bucket_contents (fill_buckets trade_data))
  /\ Permutation (bucket_contents (fill_buckets trade_data)) trade_data.
Proof.
  intros Hpos. split; [|apply fill_buckets_contents].
  unfold process_combos, bucket_contents.
  rewrite process_groups_unchanged; [reflexivity|].
  intros k g Hkg. unfold process_group.
  destruct (length g <=? 1)%nat; [reflexivity|].
  assert (Hneg : has_negative g = false).
  { unfold has_negative. apply not_true_is_false. intros H.
    apply existsb_exists in H. destruct H as (t & Ht & Hlt).
    rewrite (Hpos t (proj1 (group_members_in _ _ _ Hkg t Ht))) in Hlt. discriminate. }
  rewrite Hneg. reflexivity.
Qed.

(** X5.  The ledger [process_combos] returns ends with the [STOCKS]
    records of the batch followed by its other records whose time does
    not parse, both unchanged and in the order of the batch. *)
Theorem ledger_tail (trade_data out : list Trade) :
  process_combos trade_data = Ok out ->
  exists processed,
    out = processed ++ List.filter is_stocks trade_data
                    ++ List.filter unparsed trade_data.
Proof.
  unfold process_combos.
  destruct (process_groups (trade_groups (fill_buckets trade_data)) [])
    as [processed|e]; simpl; [|discriminate].
  intros [= <-]. exists processed.
  destruct (fill_buckets_inv trade_data) as (-> & -> & _). reflexivity.
Qed.

Lemma fold_into_frame (d : string) (p : float) (t : Trade) :
  same_but_info_pnl t (fold_into d p t)
  /\ (Realized_PnL t <> None -> Realized_PnL (fold_into d p t) <> None).
Proof.
  unfold same_but_info_pnl, fold_into.
  destruct (nonempty_str d), (negb (p =? 0)%float); simpl;
    try (destruct (Realized_PnL t) as [c|] eqn:Ec; [destruct (truthy c)|]); simpl;
    repeat split; try congruence.
Qed.

Lemma same_but_info_pnl_refl (t : Trade) : same_but_info_pnl t t.
Proof. unfold same_but_info_pnl. repeat split. Qed.

Lemma ledger_share_le (trades : list Trade) :
  (ledger_share trades <= length trades)%nat.
Proof.
  unfold ledger_share. destruct (merged trades); [|lia].
  apply List.filter_length_le.
Qed.

Lemma shares_le (gs : list ((string * string) * list Trade)) :
  (list_sum (map (fun kg => ledger_share kg.2) gs)
   <= length (concat (map snd gs)))%nat.
Proof.
  induction gs as [|[k g] gs IH]; simpl; [lia|].
  rewrite length_app. pose proof (ledger_share_le g). lia.
Qed.

Lemma ledger_origin (trade_data out : list Trade) :
  process_combos trade_data = Ok out ->
  forall r, In r out ->
    exists t, In t trade_data
              /\ same_but_info_pnl t r
              /\ (is_smart r = false -> r = t)
              /\ (Realized_PnL t <> None -> Realized_PnL r <> None).
Proof.
  intros Hout. pose proof Hout as Hout'.
  unfold process_combos in Hout.
  destruct (process_groups (trade_groups (fill_buckets trade_data)) [])
    as [processed|e] eqn:Hp; simpl in Hout; [|discriminate].
  injection Hout as <-.
  destruct (process_groups_ok _ _ _ Hp) as (outs & -> & Hall). simpl.
  destruct (fill_buckets_inv trade_data) as (Hs & He & _).
  assert (Hsame : forall t, In t trade_data ->
              exists t0, In t0 trade_data /\ same_but_info_pnl t0 t
                         /\ (is_smart t = false -> t = t0)
                         /\ (Realized_PnL t0 <> None -> Realized_PnL t <> None)).
  { intros t Ht. exists t. split; [exact Ht|].
    split; [apply same_but_info_pnl_refl|]. auto. }
  intros r Hr. apply in_app_or in Hr. destruct Hr as [Hr|Hr].
  + apply in_concat in Hr. destruct Hr as (o & Ho & Hro).
    apply list_elem_of_In in Ho.
    destruct (proj1 (list_elem_of_lookup _ _) Ho) as [j Hj].
    destruct (Forall2_lookup_r _ _ _ _ _ Hall Hj) as ([k g] & Hkg & Hpg).
    simpl in Hpg.
    assert (Hin : In (k, g) (trade_groups (fill_buckets trade_data))).
    { apply list_elem_of_In. eapply list_elem_of_lookup_2. exact Hkg. }
    destruct (process_group_members _ _ Hpg r Hro)
      as [Hrg|(t0 & d & p & Ht0 & Hs0 & ->)].
    * apply Hsame. exact (proj1 (group_members_in _ _ _ Hin r Hrg)).
    * exists t0. split; [exact (proj1 (group_members_in _ _ _ Hin t0 Ht0))|].
      destruct (fold_into_frame d p t0) as [Hf Hp0].
      split; [exact Hf|]. split; [|exact Hp0].
      unfold is_smart in *. rewrite (proj2 (proj2 (fold_into_key _ _ _))).
      congruence.
  + apply Hsame. apply in_app_or in Hr. destruct Hr as [Hr|Hr].
    * rewrite Hs in Hr. apply List.filter_In in Hr. tauto.
    * rewrite He in Hr. apply List.filter_In in Hr. tauto.
Qed.

(** X6.  [process_combos] adds no record and writes two fields only:
    every record of the ledger it returns is a record of the batch, but
    possibly for [Security_Info] and [Realized_PnL]; a record off [SMART]
    is in the ledger as it came or not at all; a numeric [Realized_PnL]
    stays numeric; and the ledger is no longer than the batch. *)
Theorem ledger_records_from_batch (trade_data out : list Trade) :
  process_combos trade_data = Ok out ->
  (length out <= length trade_data)%nat
  /\ forall r, In r out ->
       exists t, In t trade_data
                 /\ same_but_info_pnl t r
                 /\ (is_smart r = false -> r = t)
                 /\ (Realized_PnL t <> None -> Realized_PnL r <> None).
Proof.
  intros Hout. pose proof Hout as Hout'.
  unfold process_combos in Hout.
  destruct (process_groups (trade_groups (fill_buckets trade_data)) [])
    as [processed|e] eqn:Hp; simpl in Hout; [|discriminate].
  injection Hout as <-.
  destruct (process_groups_ok _ _ _ Hp) as (outs & -> & Hall). simpl.
  destruct (fill_buckets_inv trade_data) as (Hs & He & _).
  split.
  - rewrite <- (Permutation_length (fill_buckets_contents trade_data)).
    unfold bucket_contents. rewrite !length_app, (concat_lengths _ _ Hall).
    pose proof (shares_le (trade_groups (fill_buckets trade_data))). lia.
  - apply ledger_origin. exact Hout'.
Qed.


(** ** Running [process_combos] on its own ledger *)

Lemma groups_append_fresh k t (gs : list ((string * string) * list Trade)) :
  ~ In k (map fst gs) -> groups_append k t gs = gs ++ [(k, [t])].
Proof.
  induction gs as [|[k1 g1] gs IH]; intros Hk; simpl; [reflexivity|].
  simpl in Hk.
  destruct (time_key_eqb k k1) eqn:E.
  - apply time_key_eqb_eq in E. subst. tauto.
  - rewrite IH by tauto. reflexivity.
Qed.

Lemma groups_append_last k t (gs : list ((string * string) * list Trade)) g0 :
  ~ In k (map fst gs) ->
  groups_append k t (gs ++ [(k, g0)]) = gs ++ [(k, g0 ++ [t])].
Proof.
  induction gs as [|[k1 g1] gs IH]; intros Hk; simpl.
  - rewrite time_key_eqb_refl. reflexivity.
  - simpl in Hk. destruct (time_key_eqb k k1) eqn:E.
    + apply time_key_eqb_eq in E. subst. tauto.
    + rewrite IH by tauto. reflexivity.
Qed.

Lemma fill_group_more k (g : list Trade) :
  (forall t, In t g -> classify t = Grouped k) ->
  forall gs g0 S E,
    ~ In k (map fst gs) ->
    fold_left bucket_step g (mk_buckets (gs ++ [(k, g0)]) S E)
    = mk_buckets (gs ++ [(k, g0 ++ g)]) S E.
Proof.
  induction g as [|t g IH]; intros Hcl gs g0 S E Hk; simpl.
  - rewrite app_nil_r. reflexivity.
  - unfold bucket_step at 2. rewrite (Hcl t (or_introl eq_refl)).
    cbn [trade_groups stocks_trades parse_error_trades].
    rewrite (groups_append_last k t gs g0 Hk).
    rewrite IH; [|intros t' Ht'; apply Hcl; right; exact Ht'|exact Hk].
    rewrite <- app_assoc. reflexivity.
Qed.

Lemma fill_group k (g : list Trade) gs S E :
  g <> [] ->
  (forall t, In t g -> classify t = Grouped k) ->
  ~ In k (map fst gs) ->
  fold_left bucket_step g (mk_buckets gs S E) = mk_buckets (gs ++ [(k, g)]) S E.
Proof.
  intros Hne Hcl Hk. destruct g as [|t g]; [congruence|]. simpl.
  unfold bucket_step at 2. rewrite (Hcl t (or_introl eq_refl)).
  cbn [trade_groups stocks_trades parse_error_trades].
  rewrite (groups_append_fresh k t gs Hk).
  apply fill_group_more; [|exact Hk].
  intros t' Ht'. apply Hcl. right. exact Ht'.
Qed.

Lemma fill_groups (gs' : list ((string * string) * list Trade)) :
  forall gs S E,
    NoDup (map fst (gs ++ gs')) ->
    (forall k g, In (k, g) gs' ->
       g <> [] /\ forall t, In t g -> classify t = Grouped k) ->
    fold_left bucket_step (concat (map snd gs')) (mk_buckets gs S E)
    = mk_buckets (gs ++ gs') S E.
Proof.
  induction gs' as [|[k g] gs' IH]; intros gs S E Hnd Hall; simpl.
  - rewrite app_nil_r. reflexivity.
  - destruct (Hall k g (or_introl eq_refl)) as [Hne Hcl].
    rewrite fold_left_app, (fill_group k); [|exact Hne|exact Hcl|].
    + rewrite IH.
      * rewrite <- app_assoc. reflexivity.
      * rewrite <- app_assoc. exact Hnd.
      * intros k' g' Hin. apply Hall. right. exact Hin.
    + rewrite map_app in Hnd. apply NoDup_app in Hnd.
      destruct Hnd as (_ & Hdis & _). intros Hin.
      apply (Hdis k); [apply list_elem_of_In; exact Hin|].
      simpl. left.
Qed.

Lemma fill_stocks (l : list Trade) :
  (forall t, In t l -> classify t = Stocks) ->
  forall gs S E,
    fold_left bucket_step l (mk_buckets gs S E) = mk_buckets gs (S ++ l) E.
Proof.
  induction l as [|t l IH]; intros Hcl gs S E; simpl.
  - rewrite app_nil_r. reflexivity.
  - unfold bucket_step at 2. rewrite (Hcl t (or_introl eq_refl)).
    cbn [trade_groups stocks_trades parse_error_trades].
    rewrite IH; [rewrite <- app_assoc; reflexivity|].
    intros t' Ht'. apply Hcl. right. exact Ht'.
Qed.

Lemma fill_errors (l : list Trade) :
  (forall t, In t l -> classify t = ParseError) ->
  forall gs S E,
    fold_left bucket_step l (mk_buckets gs S E) = mk_buckets gs S (E ++ l).
Proof.
  induction l as [|t l IH]; intros Hcl gs S E; simpl.
  - rewrite app_nil_r. reflexivity.
  - unfold bucket_step at 2. rewrite (Hcl t (or_introl eq_refl)).
    cbn [trade_groups stocks_trades parse_error_trades].
    rewrite IH; [rewrite <- app_assoc; reflexivity|].
    intros t' Ht'. apply Hcl. right. exact Ht'.
Qed.

Lemma has_blank_append (a b : string) : has_blank (a +:+ " " +:+ b) = true.
Proof.
  induction a as [|c a IH]; simpl; [reflexivity|].
  rewrite IH. apply orb_true_r.
Qed.


Lemma blank_not_stocks (d : string) :
  has_blank d = true -> String.eqb d "STOCKS" = false.
Proof.
  intros H. apply String.eqb_neq. intros ->. discriminate.
Qed.

Lemma combined_info_not_stocks (legs : list Trade) (d : string) :
  combined_info legs = Ok d -> String.eqb d "STOCKS" = false.
Proof.
  unfold combined_info.
  destruct (match legs with
            | [] => Ok []
            | _ :: _ =>
                do keys <- mapM strike_of legs;
                Ok (map snd (sorted B fst false (combine keys legs)))
            end) as [st|e]; simpl; [|discriminate].
  destruct (mapM strike_of st) as [strikes|e]; simpl; [|discriminate].
  destruct (mapM _ st) as [types|e]; simpl; [|discriminate].
  destruct (match st with
            | [] => Ok ""
            | first :: _ => index (split (Security_Info first)) 0
            end) as [expiry|e]; simpl; [|discriminate].
  destruct (nonempty_list strikes && nonempty_str expiry).
  - destruct (mapM _ _) as [ft|e]; simpl; [|discriminate].
    intros [= <-]. apply blank_not_stocks. apply has_blank_append.
  - intros [= <-]. reflexivity.
Qed.

Lemma classify_fold_into (d : string) (p : float) (t : Trade) (k : string * string) :
  String.eqb d "STOCKS" = false ->
  classify t = Grouped k -> classify (fold_into d p t) = Grouped k.
Proof.
  intros Hd. unfold classify.
  destruct (fold_into_key d p t) as (-> & -> & _).
  destruct (String.eqb (Security_Info t) "STOCKS") eqn:Es; [discriminate|].
  assert (Hsi : String.eqb (Security_Info (fold_into d p t)) "STOCKS" = false).
  { unfold fold_into.
    destruct (nonempty_str d), (negb (p =? 0)%float); simpl;
      try (destruct (Realized_PnL t) as [c|]; [destruct (truthy c)|]); simpl;
      assumption. }
  rewrite Hsi. auto.
Qed.

Lemma filter_all {A : Type} (f : A -> bool) (l : list A) :
  (forall x, In x l -> f x = true) -> List.filter f l = l.
Proof.
  induction l as [|x l IH]; intros H; simpl; [reflexivity|].
  rewrite (H x (or_introl eq_refl)). f_equal. apply IH.
  intros y Hy. apply H. right. exact Hy.
Qed.

Lemma all_smart_stable (o : list Trade) :
  (forall r, In r o -> is_smart r = true) -> process_group o = Ok o.
Proof.
  intros Hall. unfold process_group.
  destruct (length o <=? 1)%nat eqn:El; [reflexivity|].
  destruct (has_negative o); [|reflexivity].
  assert (Hns : non_smart o = []).
  { apply filter_none. intros r Hr. rewrite (Hall r Hr). reflexivity. }
  assert (Hs : List.filter is_smart o = o).
  { apply filter_all. exact Hall. }
  assert (Hex : existsb is_smart o = true).
  { destruct o as [|r o]; [discriminate|]. simpl.
    rewrite (Hall r (or_introl eq_refl)). reflexivity. }
  unfold merge_combo. rewrite Hns. simpl. rewrite Hs, Hex, app_nil_r.
  f_equal. rewrite <- (map_id o) at 2. apply map_ext. intros r. reflexivity.
Qed.

Lemma process_group_output_stable (k : string * string) (g o : list Trade) :
  g <> [] ->
  (forall t, In t g -> classify t = Grouped k) ->
  process_group g = Ok o ->
  o <> [] /\ (forall r, In r o -> classify r = Grouped k) /\ process_group o = Ok o.
Proof.
  intros Hne Hcl Hgo.
  assert (Hsame : o = g -> o <> [] /\ (forall r, In r o -> classify r = Grouped k)
                           /\ process_group o = Ok o).
  { intros ->. auto. }
  pose proof Hgo as Hgo'. unfold process_group in Hgo'.
  destruct (length g <=? 1)%nat; [injection Hgo' as <-; auto|].
  destruct (has_negative g); [|injection Hgo' as <-; auto].
  destruct (merge_combo g) as [o'|e] eqn:Em.
  2: { destruct e; try discriminate; injection Hgo' as <-; auto. }
  injection Hgo' as ->.
  destruct (merge_combo_ok _ _ Em) as (d & Hd & Ho).
  destruct (existsb is_smart g) eqn:Es.
  - rewrite app_nil_r in Ho. subst o.
    pose proof (combined_info_not_stocks _ _ Hd) as Hds.
    split; [|split].
    + apply existsb_exists in Es. destruct Es as (s & Hs & Hss).
      intros H. apply map_eq_nil in H.
      assert (Hin : In s (List.filter is_smart g)) by (apply List.filter_In; auto).
      rewrite H in Hin. contradiction.
    + intros r Hr. apply in_map_iff in Hr. destruct Hr as (t & <- & Ht).
      apply List.filter_In in Ht. apply classify_fold_into; [exact Hds|].
      apply Hcl. tauto.
    + apply all_smart_stable. intros r Hr.
      apply in_map_iff in Hr. destruct Hr as (t & <- & Ht).
      apply List.filter_In in Ht. unfold is_smart in *.
      rewrite (proj2 (proj2 (fold_into_key _ _ _))). tauto.
  - apply Hsame. rewrite Ho, (filter_smart_none _ Es). reflexivity.
Qed.

Lemma map_fst_combine {A C : Type} (l : list A) :
  forall l' : list C, length l = length l' -> map fst (combine l l') = l.
Proof.
  induction l as [|x l IH]; intros [|y l'] H; simpl in *; try discriminate.
  - reflexivity.
  - f_equal. apply IH. lia.
Qed.

(** X7.  [process_combos] is idempotent: the ledger it returns is returned
    again, record for record and in the same order, when it is given back
    to [process_combos]. *)
Theorem process_combos_idempotent (trade_data out : list Trade) :
  process_combos trade_data = Ok out -> process_combos out = Ok out.
Proof.
  intros Hout. unfold process_combos in Hout.
  destruct (process_groups (trade_groups (fill_buckets trade_data)) [])
    as [processed|e] eqn:Hp; simpl in Hout; [|discriminate].
  injection Hout as <-.
  destruct (process_groups_ok _ _ _ Hp) as (outs & -> & Hall). simpl.
  destruct (fill_buckets_inv trade_data) as (Hs & He & Hnd & Hg & _).
  set (gs := trade_groups (fill_buckets trade_data)) in *.
  set (gs2 := combine (map fst gs) outs).
  assert (Hlen : length (map fst gs) = length outs).
  { rewrite length_map. exact (Forall2_length _ _ _ Hall). }
  assert (Hk2 : map fst gs2 = map fst gs) by (apply map_fst_combine; exact Hlen).
  assert (Ho2 : map snd gs2 = outs) by (apply map_snd_combine; exact Hlen).
  assert (Hgs2 : forall k o, In (k, o) gs2 ->
            o <> [] /\ (forall r, In r o -> classify r = Grouped k)
            /\ process_group o = Ok o).
  { intros k o Hin. apply list_elem_of_In in Hin.
    destruct (proj1 (list_elem_of_lookup _ _) Hin) as [i Hi].
    unfold gs2 in Hi. apply lookup_zip_with_Some in Hi.
    destruct Hi as (k' & o' & Heq & Hki & Hoi).
    injection Heq as -> ->.
    rewrite list_lookup_fmap in Hki.
    destruct (gs !! i) as [[k0 g]|] eqn:Egi; [|discriminate].
    simpl in Hki. injection Hki as ->.
    destruct (Forall2_lookup_l _ _ _ _ _ Hall Egi) as (o2 & Ho2' & Hpg).
    rewrite Hoi in Ho2'. injection Ho2' as <-. simpl in Hpg.
    assert (Hin' : In (k', g) gs).
    { apply list_elem_of_In. eapply list_elem_of_lookup_2. exact Egi. }
    destruct (Hg k' g Hin') as [Hgk Hgne].
    apply (process_group_output_stable k' g o'); [exact Hgne| |exact Hpg].
    intros t Ht. rewrite Hgk in Ht. apply List.filter_In in Ht.
    destruct Ht as [_ Ht]. unfold in_group in Ht.
    destruct (classify t) as [|k1|]; try discriminate.
    apply time_key_eqb_eq in Ht. congruence. }
  assert (Hfill : fill_buckets (concat outs ++ stocks_trades (fill_buckets trade_data)
                                  ++ parse_error_trades (fill_buckets trade_data))
                  = mk_buckets gs2 (stocks_trades (fill_buckets trade_data))
                      (parse_error_trades (fill_buckets trade_data))).
  { unfold fill_buckets at 1. rewrite !fold_left_app, <- Ho2.
    rewrite (fill_groups gs2 [] [] []).
    - rewrite fill_stocks, fill_errors; [reflexivity| |].
      + intros t Ht. rewrite He in Ht. apply List.filter_In in Ht.
        destruct (classify_cases t) as [(_ & _ & Hu & _)|[(Hc & _)|(k0 & _ & _ & Hu & _)]];
          [|exact Hc|]; destruct Ht as [_ Ht]; congruence.
      + intros t Ht. rewrite Hs in Ht. apply List.filter_In in Ht.
        destruct (classify_cases t) as [(Hc & _)|[(_ & Hi & _)|(k0 & _ & Hi & _)]];
          [exact Hc| |]; destruct Ht as [_ Ht]; congruence.
    - simpl. rewrite Hk2. exact Hnd.
    - intros k o Hin. destruct (Hgs2 k o Hin) as (H1 & H2 & _). auto. }
  unfold process_combos. rewrite Hfill. simpl.
  rewrite process_groups_unchanged.
  - simpl. rewrite Ho2. reflexivity.
  - intros k o Hin. apply (Hgs2 k o Hin).
Qed.


(** ** What [process_combos] keeps *)

Lemma process_group_unmerged (trades out : list Trade) :
  process_group trades = Ok out -> merged trades = false -> out = trades.
Proof.
  unfold process_group, merged.
  destruct (length trades <=? 1)%nat eqn:El; [intros [= <-]; reflexivity|].
  apply Nat.leb_gt in El. apply Nat.ltb_lt in El. rewrite El. simpl.
  destruct (has_negative trades); simpl; [|intros [= <-]; reflexivity].
  unfold merge_combo.
  destruct (combined_info (non_smart trades)) as [d|e]; simpl.
  - intros [= <-]. rewrite andb_true_r. intros Hs.
    rewrite Hs, (filter_smart_none _ Hs). reflexivity.
  - destruct e; intros [= <-]; reflexivity.
Qed.

Lemma process_group_keeps_smart (trades out : list Trade) (t : Trade) :
  process_group trades = Ok out -> In t trades -> is_smart t = true ->
  exists r, In r out /\ same_but_info_pnl t r.
Proof.
  intros Hgo Ht Hs.
  assert (Hsame : out = trades -> exists r, In r out /\ same_but_info_pnl t r).
  { intros ->. exists t. split; [exact Ht|apply same_but_info_pnl_refl]. }
  unfold process_group in Hgo.
  destruct (length trades <=? 1)%nat; [injection Hgo as <-; auto|].
  destruct (has_negative trades); [|injection Hgo as <-; auto].
  destruct (merge_combo trades) as [o|e] eqn:Em.
  2: { destruct e; try discriminate; injection Hgo as <-; auto. }
  injection Hgo as ->. destruct (merge_combo_ok _ _ Em) as (d & _ & ->).
  exists (fold_into d (net_pnl (non_smart trades)) t). split.
  - apply in_or_app. left. apply in_map. apply List.filter_In. auto.
  - apply fold_into_frame.
Qed.

(** X8.  What [process_combos] never drops.  In a ledger it returns: a
    [STOCKS] record and a record whose time does not parse are there as
    they came; so is every member of a group that is not merged (a single
    record, no negative price, no member on [SMART], or a descriptor that
    raised); and a record on [SMART] is always there, possibly with a new
    [Security_Info] and [Realized_PnL]. *)
Theorem ledger_keeps (trade_data out : list Trade) :
  process_combos trade_data = Ok out ->
  forall t, In t trade_data ->
    (is_stocks t = true \/ unparsed t = true -> In t out)
    /\ (is_smart t = true -> exists r, In r out /\ same_but_info_pnl t r)
    /\ (forall k g, In (k, g) (trade_groups (fill_buckets trade_data)) ->
          In t g -> merged g = false -> In t out).
Proof.
  intros Hout t Ht. unfold process_combos in Hout.
  destruct (process_groups (trade_groups (fill_buckets trade_data)) [])
    as [processed|e] eqn:Hp; simpl in Hout; [|discriminate].
  injection Hout as <-.
  destruct (process_groups_ok _ _ _ Hp) as (outs & -> & Hall). simpl.
  destruct (fill_buckets_inv trade_data) as (Hs & He & _ & Hg & Hc).
  assert (Hgroup : forall k g, In (k, g) (trade_groups (fill_buckets trade_data)) ->
            exists o, process_group g = Ok o /\ forall r, In r o -> In r (concat outs)).
  { intros k g Hkg. apply list_elem_of_In in Hkg.
    destruct (proj1 (list_elem_of_lookup _ _) Hkg) as [i Hi].
    destruct (Forall2_lookup_l _ _ _ _ _ Hall Hi) as (o & Ho & Hgo).
    exists o. split; [exact Hgo|]. intros r Hr. apply in_concat.
    exists o. split; [|exact Hr].
    apply list_elem_of_In. eapply list_elem_of_lookup_2. exact Ho. }
  split; [|split].
  - intros [H|H]; apply in_or_app; right; apply in_or_app.
    + left. rewrite Hs. apply List.filter_In. auto.
    + right. rewrite He. apply List.filter_In. auto.
  - intros Hsm.
    destruct (classify_cases t) as
      [(_ & His & _)|[(_ & _ & Hun & _)|(k0 & _ & _ & _ & Hin)]].
    + exists t. split; [|apply same_but_info_pnl_refl].
      apply in_or_app. right. apply in_or_app. left.
      rewrite Hs. apply List.filter_In. auto.
    + exists t. split; [|apply same_but_info_pnl_refl].
      apply in_or_app. right. apply in_or_app. right.
      rewrite He. apply List.filter_In. auto.
    + assert (Hk0 : In k0 (map fst (trade_groups (fill_buckets trade_data)))).
      { destruct (existsb (time_key_eqb k0)
                    (map fst (trade_groups (fill_buckets trade_data)))) eqn:Ex;
          [apply existsb_key_in; exact Ex|].
        assert (Hnot : ~ In k0 (map fst (trade_groups (fill_buckets trade_data)))).
        { intros H. apply existsb_key_in in H. congruence. }
        exfalso. pose proof (Hc k0 Hnot) as Hnil.
        assert (Hin' : In t (List.filter (in_group k0) trade_data)).
        { apply List.filter_In. split; [exact Ht|].
          rewrite Hin. apply time_key_eqb_refl. }
        rewrite Hnil in Hin'. contradiction. }
      apply in_map_iff in Hk0. destruct Hk0 as ([k1 g] & Hk1 & Hkg).
      simpl in Hk1. subst k1.
      destruct (Hgroup k0 g Hkg) as (o & Hgo & Hsub).
      assert (Htg : In t g).
      { destruct (Hg k0 g Hkg) as [-> _]. apply List.filter_In.
        split; [exact Ht|]. rewrite Hin. apply time_key_eqb_refl. }
      destruct (process_group_keeps_smart _ _ _ Hgo Htg Hsm) as (r & Hr & Hsame).
      exists r. split; [|exact Hsame]. apply in_or_app. left. auto.
  - intros k g Hkg Htg Hm.
    destruct (Hgroup k g Hkg) as (o & Hgo & Hsub).
    rewrite (process_group_unmerged _ _ Hgo Hm) in Hsub.
    apply in_or_app. left. auto.
Qed.


(** ** More on the assignment classifier *)

Lemma mark_one_frame stock_trades (t : Trade) :
  same_but_action t (mark_one stock_trades t).
Proof.
  unfold mark_one, same_but_action.
  destruct (relabel stock_trades t); simpl; repeat split.
Qed.

Lemma relabel_none stock_trades (t : Trade) :
  Security_Info t = "STOCK" \/ (Price t =? 0)%float = false
  \/ (Commission t =? 0)%float = false ->
  relabel stock_trades t = None.
Proof.
  unfold relabel. intros [H|[H|H]]; rewrite H; simpl;
    rewrite ?andb_false_r; reflexivity.
Qed.

(** X9.  [mark_assigned_options] keeps the length and the order of the
    batch and writes [Action] only: every other field of every record is
    as it came; a stock record, and a record with a price or a commission
    that is not zero, is returned unchanged. *)
Theorem mark_assigned_options_frame (trade_data : list Trade) :
  length (mark_assigned_options trade_data) = length trade_data
  /\ forall i t, trade_data !! i = Some t ->
       exists r, mark_assigned_options trade_data !! i = Some r
                 /\ same_but_action t r
                 /\ (Security_Info t = "STOCK" \/ (Price t =? 0)%float = false
                     \/ (Commission t =? 0)%float = false -> r = t).
Proof.
  rewrite mark_assigned_options_map. split; [apply length_map|].
  intros i t Hi. exists (mark_one (stock_index trade_data) t).
  split; [rewrite list_lookup_fmap, Hi; reflexivity|].
  split; [apply mark_one_frame|].
  intros H. unfold mark_one. rewrite (relabel_none _ _ H). reflexivity.
Qed.

(** X10.  The decision of [mark_assigned_options] on any batch.  A record
    that is not a stock and has zero price and zero commission becomes
    [ASSIGNED] when the batch holds a stock record of the same symbol and
    time, whatever its label was, [BOT] and [SLD] included; with no such
    stock record it becomes [EXPIRED] unless its label is one of
    [ASSIGNED], [BOT], [SLD], which it then keeps. *)
Theorem mark_assigned_options_decision (trade_data : list Trade) (i : nat)
    (t : Trade) :
  trade_data !! i = Some t ->
  Security_Info t <> "STOCK" ->
  (Price t =? 0)%float = true ->
  (Commission t =? 0)%float = true ->
  (stock_at_same_key trade_data t ->
   mark_assigned_options trade_data !! i = Some (set_Action "ASSIGNED" t))
  /\ (~ stock_at_same_key trade_data t -> classified (Action t) = false ->
      mark_assigned_options trade_data !! i = Some (set_Action "EXPIRED" t))
  /\ (~ stock_at_same_key trade_data t -> classified (Action t) = true ->
      mark_assigned_options trade_data !! i = Some t).
Proof.
  intros Hi Hsi Hp Hc.
  rewrite mark_assigned_options_map, list_lookup_fmap, Hi. simpl.
  rewrite stock_at_same_key_iff.
  unfold mark_one, relabel. rewrite Hp, Hc.
  apply String.eqb_neq in Hsi. rewrite Hsi. simpl.
  destruct (has_key (Symbol t, Date_Time t) (stock_index trade_data)).
  - split; [reflexivity|]. split; intros H; congruence.
  - split; [discriminate|]. split; intros _ ->; reflexivity.
Qed.

Lemma existsb_perm {A : Type} (f : A -> bool) (l l' : list A) :
  Permutation l l' -> existsb f l = existsb f l'.
Proof.
  intros Hp. apply eq_true_iff_eq. rewrite !existsb_exists.
  split; intros (x & Hx & Hf); exists x; split; try exact Hf.
  - eapply Permutation_in; eassumption.
  - eapply Permutation_in; [symmetry|]; eassumption.
Qed.

(** X11.  [mark_assigned_options] does not depend on the order of the
    batch: on a permuted batch it returns the same records, permuted the
    same way. *)
Theorem mark_assigned_options_permutation (l l' : list Trade) :
  Permutation l l' ->
  Permutation (mark_assigned_options l) (mark_assigned_options l').
Proof.
  intros Hp. rewrite !mark_assigned_options_map.
  rewrite (map_ext (mark_one (stock_index l)) (mark_one (stock_index l'))).
  - apply Permutation_map. exact Hp.
  - intros t. apply mark_one_ext. intros key.
    rewrite !has_key_stock_index. apply existsb_perm. exact Hp.
Qed.

Lemma stock_index_step_lookup key stock_trades (t : Trade) :
  stock_index_step stock_trades t !! key
  = if stock_at key t then Some (default [] (stock_trades !! key) ++ [t])
    else stock_trades !! key.
Proof.
  unfold stock_index_step, stock_at.
  destruct (String.eqb (Security_Info t) "STOCK"); simpl; [|reflexivity].
  destruct (time_key_eqb (Symbol t, Date_Time t) key) eqn:E.
  - apply time_key_eqb_eq in E. subst key. rewrite lookup_insert_eq.
    unfold has_key. destruct (stock_trades !! (Symbol t, Date_Time t)) eqn:El.
    + rewrite El. reflexivity.
    + rewrite lookup_insert_eq. reflexivity.
  - apply time_key_eqb_neq in E. rewrite lookup_insert_ne by exact E.
    destruct (has_key (Symbol t, Date_Time t) stock_trades); [reflexivity|].
    rewrite lookup_insert_ne by exact E. reflexivity.
Qed.

Lemma stock_index_fold_lookup key (l : list Trade) :
  forall stock_trades,
    fold_left stock_index_step l stock_trades !! key
    = match List.filter (stock_at key) l with
      | [] => stock_trades !! key
      | _ :: _ => Some (default [] (stock_trades !! key) ++ List.filter (stock_at key) l)
      end.
Proof.
  induction l as [|t l IH]; intros m; simpl; [reflexivity|].
  rewrite IH, stock_index_step_lookup.
  destruct (stock_at key t); simpl.
  - destruct (List.filter (stock_at key) l); simpl.
    + reflexivity.
    + rewrite <- app_assoc. reflexivity.
  - reflexivity.
Qed.

(** X12.  The index of the first loop of [mark_assigned_options]: under a
    (symbol, time) key it holds the stock records of the batch with that
    symbol and time, all of them and in the order of the batch; a key
    with no such record is absent. *)
Theorem stock_index_lookup (trade_data : list Trade) (key : string * string) :
  stock_index trade_data !! key
  = match List.filter (stock_at key) trade_data with
    | [] => None
    | _ :: _ => Some (List.filter (stock_at key) trade_data)
    end.
Proof.
  unfold stock_index. rewrite stock_index_fold_lookup, lookup_empty. reflexivity.
Qed.


(** ** More on the record normalizer *)

Lemma month_index_ok (i : Z) :
  is_ok (index_Z month_names i) = (-12 <=? i)%Z && (i <? 12)%Z.
Proof.
  unfold index_Z. change (Z.of_nat (length month_names)) with 12%Z.
  assert (Hlook : forall n, (n < 12)%nat ->
            is_ok (opt_or (month_names !! n) IndexError) = true).
  { intros n Hn. destruct (lookup_lt_is_Some_2 month_names n) as [x ->];
      [exact Hn|reflexivity]. }
  change (Z.opp 12) with (-12)%Z.
  destruct (0 <=? i)%Z eqn:E1, (i <? 12)%Z eqn:E2,
           (-12 <=? i)%Z eqn:E3, (i <? 0)%Z eqn:E4; simpl;
    try reflexivity; try lia; apply Hlook; lia.
Qed.

Lemma option_security_info_ok (contract : Contract) :
  is_ok (option_security_info contract) = expiry_reads contract.
Proof.
  unfold option_security_info, expiry_reads.
  destruct (int_of_str B (slice 0 4 (lastTradeDateOrContractMonth contract)))
    as [y|]; simpl; [|reflexivity].
  destruct (int_of_str B (slice 4 6 (lastTradeDateOrContractMonth contract)))
    as [m|]; simpl; [|reflexivity].
  destruct (int_of_str B (slice 6 8 (lastTradeDateOrContractMonth contract)))
    as [d|]; simpl; [|reflexivity].
  pose proof (month_index_ok (m - 1)) as Hm.
  destruct (index_Z month_names (m - 1)) as [mn|e]; simpl in *; rewrite Hm;
    apply eq_true_iff_eq; rewrite !andb_true_iff, !Z.leb_le, Z.ltb_lt; lia.
Qed.

Lemma normalize_ok (app : TradingApp) (prev : option string)
    (x : Contract * Execution) :
  is_ok (normalize app prev x)
  = descriptor_ok x && (known_class x.1 || is_ok (opt_or prev ValueError)).
Proof.
  unfold normalize, descriptor_ok, is_option_class, known_class, security_info_after.
  destruct (String.eqb (secType x.1) "STK"); simpl; [reflexivity|].
  destruct (String.eqb (secType x.1) "OPT" || String.eqb (secType x.1) "FOP"); simpl.
  - rewrite <- option_security_info_ok.
    destruct (option_security_info x.1); reflexivity.
  - destruct prev; reflexivity.
Qed.

Lemma normalize_bound (app : TradingApp) (prev : option string)
    (x : Contract * Execution) r :
  normalize app prev x = Ok r ->
  r.2 = Some (Security_Info r.1)
  /\ (secType x.1 = "STK" -> Security_Info r.1 = "STOCK")
  /\ (known_class x.1 = false -> prev = Some (Security_Info r.1))
  /\ (Security_Info r.1 = "STOCK" \/ has_blank (Security_Info r.1) = true
      \/ prev = Some (Security_Info r.1)).
Proof.
  unfold normalize, known_class, security_info_after.
  destruct (String.eqb (secType x.1) "STK") eqn:E1; simpl.
  - intros [= <-]. simpl. repeat split; auto. discriminate.
  - apply String.eqb_neq in E1.
    destruct (String.eqb (secType x.1) "OPT" || String.eqb (secType x.1) "FOP"); simpl.
    + destruct (option_security_info x.1) as [s|e] eqn:Eo; simpl; [|discriminate].
      intros [= <-]. simpl. repeat split; try congruence.
      right. left. unfold option_security_info in Eo.
      destruct (opt_or (int_of_str B _) ValueError); simpl in Eo; [|discriminate].
      destruct (opt_or (int_of_str B _) ValueError); simpl in Eo; [|discriminate].
      destruct (opt_or (int_of_str B _) ValueError); simpl in Eo; [|discriminate].
      destruct (index_Z month_names _) as [mn|]; simpl in Eo; [|discriminate].
      injection Eo as <-.
      apply has_blank_append.
    + destruct prev as [s|]; simpl; [|discriminate].
      intros [= <-]. simpl. repeat split; auto. congruence.
Qed.


Lemma process_loop_ok (app : TradingApp) (l : list (Contract * Execution)) :
  forall prev acc,
    is_ok (process_loop app prev l acc)
    = (is_ok (opt_or prev ValueError)
       || match l with
          | [] => true
          | exec_info :: _ => known_class exec_info.1
          end)
      && forallb descriptor_ok l.
Proof.
  induction l as [|x l IH]; intros prev acc; simpl.
  - rewrite orb_true_r. reflexivity.
  - pose proof (normalize_ok app prev x) as Hn.
    destruct (normalize app prev x) as [r|e] eqn:En; simpl in *.
    + rewrite IH. destruct (normalize_bound _ _ _ _ En) as (-> & _).
      simpl. symmetry in Hn. apply andb_true_iff in Hn. destruct Hn as [-> Hk].
      rewrite orb_comm, Hk. reflexivity.
    + rewrite orb_comm. destruct (descriptor_ok x); simpl in *.
      * rewrite <- Hn. reflexivity.
      * rewrite andb_false_r. reflexivity.
Qed.

Lemma process_loop_first_unknown (app : TradingApp) x l acc :
  known_class x.1 = false ->
  process_loop app None (x :: l) acc = Raise UnboundLocalError.
Proof.
  intros Hk. simpl. unfold normalize, security_info_after.
  unfold known_class in Hk. rewrite <- orb_assoc in Hk.
  apply orb_false_iff in Hk. destruct Hk as [-> ->].
  reflexivity.
Qed.

Lemma process_executions_returns_iff_aux (app : TradingApp) :
  is_ok (process_executions app) = can_normalize app.
Proof.
  unfold process_executions, can_normalize. rewrite process_loop_ok. reflexivity.
Qed.

(** X13.  When [process_executions] returns: exactly on the batches whose
    first execution, if there is one, is a stock, an option or a future
    option, and whose options and future options all have an expiry that
    reads.  A batch that starts with another instrument class raises
    [UnboundLocalError]. *)
Theorem process_executions_returns_iff (app : TradingApp) :
  is_ok (process_executions app) = can_normalize app
  /\ forall x l, executions app = x :: l -> known_class x.1 = false ->
       process_executions app = Raise UnboundLocalError.
Proof.
  unfold process_executions, can_normalize. split.
  - rewrite process_loop_ok. reflexivity.
  - intros x l -> Hk. apply process_loop_first_unknown. exact Hk.
Qed.

Lemma process_loop_prev (app : TradingApp) (l : list (Contract * Execution)) :
  forall prev acc out,
    process_loop app prev l acc = Ok out ->
    exists news,
      out = acc ++ news /\ length news = length l /\
      forall i x, l !! i = Some x ->
        exists r,
          normalize app
            match i with
            | O => prev
            | S j => option_map Security_Info (news !! j)
            end x = Ok r
          /\ news !! i = Some r.1.
Proof.
  induction l as [|x l IH]; intros prev acc out H; simpl in H.
  - injection H as <-. exists []. rewrite app_nil_r.
    repeat split. intros i y Hy. rewrite lookup_nil in Hy. discriminate.
  - destruct (normalize app prev x) as [r|e] eqn:En; simpl in H; [|discriminate].
    destruct (IH _ _ _ H) as (news & -> & Hlen & Hall).
    exists (r.1 :: news). rewrite <- app_assoc. simpl.
    repeat split; [congruence|].
    intros [|i] y Hy; simpl in Hy.
    + injection Hy as <-. exists r. split; [exact En|reflexivity].
    + destruct (Hall i y Hy) as (r' & Hr' & Hlook). exists r'. split; [|exact Hlook].
      destruct i as [|j]; simpl.
      * destruct (normalize_bound _ _ _ _ En) as (Hb & _). rewrite <- Hb. exact Hr'.
      * exact Hr'.
Qed.

(** X14.  An execution of an instrument class other than stock, option
    and future option, when it is not the first of its batch, gets the
    [Security_Info] of the record built just before it. *)
Theorem unknown_class_inherits_descriptor (app : TradingApp) (out : list Trade)
    (i : nat) (contract : Contract) (execution : Execution) :
  process_executions app = Ok out ->
  executions app !! S i = Some (contract, execution) ->
  known_class contract = false ->
  exists before record,
    out !! i = Some before /\ out !! S i = Some record
    /\ Security_Info record = Security_Info before.
Proof.
  intros Hout Hi Hk.
  destruct (process_loop_prev _ _ _ _ _ Hout) as (news & -> & Hlen & Hall).
  simpl. destruct (Hall (S i) _ Hi) as (r & Hr & Hlook).
  destruct (normalize_bound _ _ _ _ Hr) as (_ & _ & Hprev & _).
  specialize (Hprev Hk).
  destruct (news !! i) as [before|] eqn:Eb; simpl in Hprev; [|discriminate].
  exists before, r.1. split; [reflexivity|]. split; [exact Hlook|]. congruence.
Qed.

Lemma process_loop_descriptors (app : TradingApp) (l : list (Contract * Execution)) :
  forall prev acc out,
    (forall s, prev = Some s -> s = "STOCK" \/ has_blank s = true) ->
    process_loop app prev l acc = Ok out ->
    exists news, out = acc ++ news
      /\ forall t, In t news ->
           Security_Info t = "STOCK" \/ has_blank (Security_Info t) = true.
Proof.
  induction l as [|x l IH]; intros prev acc out Hprev H; simpl in H.
  - injection H as <-. exists []. rewrite app_nil_r. split; [reflexivity|]. intros t [].
  - destruct (normalize app prev x) as [r|e] eqn:En; simpl in H; [|discriminate].
    destruct (normalize_bound _ _ _ _ En) as (Hb & _ & _ & Hcases).
    assert (Hr : Security_Info r.1 = "STOCK" \/ has_blank (Security_Info r.1) = true).
    { destruct Hcases as [H1|[H1|H1]]; auto. }
    destruct (IH r.2 _ _ ltac:(intros s Hs; rewrite Hb in Hs; injection Hs as <-; exact Hr) H)
      as (news & -> & Hall).
    exists (r.1 :: news). rewrite <- app_assoc. split; [reflexivity|].
    intros t [<-|Ht]; auto.
Qed.

Lemma normalized_descriptor (t : Trade) :
  normalized t -> Security_Info t = "STOCK" \/ has_blank (Security_Info t) = true.
Proof.
  intros (app & out & Hout & Hin).
  destruct (process_loop_descriptors _ _ None [] out ltac:(discriminate) Hout)
    as (news & -> & Hall).
  apply Hall. exact Hin.
Qed.

(** X15.  [process_executions] never builds the plural marker: the
    [Security_Info] of a record it produces is [STOCK] or holds a space,
    so it is never [STOCKS], and in the ledger of a batch that went
    through [process_executions] and [mark_assigned_options] the
    [STOCKS] branch of [process_combos] (lines 215-217) takes no
    record. *)
Theorem normalization_never_builds_stocks (app : TradingApp) (trade_data : list Trade) :
  process_executions app = Ok trade_data ->
  (forall t, In t trade_data -> is_stocks t = false)
  /\ stocks_trades (fill_buckets (mark_assigned_options trade_data)) = [].
Proof.
  intros Hout.
  assert (Hns : forall t, In t trade_data -> is_stocks t = false).
  { intros t Ht. unfold is_stocks.
    destruct (normalized_descriptor t) as [-> | Hb].
    - exists app, trade_data. auto.
    - reflexivity.
    - apply blank_not_stocks. exact Hb. }
  split; [exact Hns|].
  destruct (fill_buckets_inv (mark_assigned_options trade_data)) as (-> & _).
  apply filter_none. intros r Hr.
  rewrite mark_assigned_options_map in Hr. apply in_map_iff in Hr.
  destruct Hr as (t & <- & Ht).
  unfold is_stocks. destruct (mark_one_frame (stock_index trade_data) t)
    as (_ & _ & _ & _ & -> & _).
  apply Hns. exact Ht.
Qed.


(** ** The callbacks *)

Lemma receive_snoc (self : Client) (ms : list callback) (m : callback) :
  receive self (ms ++ [m]) = deliver (receive self ms) m.
Proof. unfold receive. rewrite fold_left_app. reflexivity. Qed.

Lemma exec_details_snoc (ms : list callback) (m : callback) :
  exec_details (ms ++ [m])
  = exec_details ms ++ match m with
                       | ExecDetails _ contract execution => [(contract, execution)]
                       | _ => []
                       end.
Proof.
  unfold exec_details. rewrite flat_map_app. simpl. rewrite app_nil_r. reflexivity.
Qed.

Lemma last_report_snoc (id : string) (ms : list callback) (m : callback) :
  last_report id (ms ++ [m])
  = match m with
    | CommissionReportOf commreport =>
        if String.eqb (report_execId commreport) id then Some commreport
        else last_report id ms
    | _ => last_report id ms
    end.
Proof.
  unfold last_report, reports. rewrite flat_map_app, List.filter_app. simpl.
  destruct m as [r c x|r|commreport]; simpl; rewrite ?app_nil_r; try reflexivity.
  destruct (String.eqb (report_execId commreport) id); simpl.
  - apply last_snoc.
  - rewrite app_nil_r. reflexivity.
Qed.

Lemma receive_feeds (self : Client) (ms : list callback) :
  executions (feeds (receive self ms)) = executions (feeds self) ++ exec_details ms
  /\ forall id,
       commission_report (feeds (receive self ms)) !! id
       = match last_report id ms with
         | Some commreport => Some (entry_of commreport)
         | None => commission_report (feeds self) !! id
         end.
Proof.
  induction ms as [|m ms [IHe IHr]] using rev_ind.
  - simpl. rewrite app_nil_r. split; [reflexivity|]. intros id. reflexivity.
  - rewrite receive_snoc, exec_details_snoc. split.
    + destruct m; simpl; rewrite IHe, ?app_nil_r, <- ?app_assoc; reflexivity.
    + intros id. rewrite last_report_snoc. destruct m as [r c x|r|commreport]; simpl;
        try apply IHr.
      destruct (String.eqb (report_execId commreport) id) eqn:E.
      * apply String.eqb_eq in E. subst id. apply lookup_insert_eq.
      * apply String.eqb_neq in E. rewrite lookup_insert_ne by exact E. apply IHr.
Qed.

(** X18.  What the callbacks collect.  After any run of calls, the
    executions of the object are those it had followed by the executions
    delivered, in the order of delivery and with repetitions; under each
    [execId] stands the entry of the last report delivered for it, or the
    entry it had when none came; the flag [is_ready] is set once an end
    mark has come and is never cleared; the client id and the port stay. *)
Theorem callbacks_collect (self : Client) (ms : list callback) :
  executions (feeds (receive self ms)) = executions (feeds self) ++ exec_details ms
  /\ (forall id,
        commission_report (feeds (receive self ms)) !! id
        = match last_report id ms with
          | Some commreport => Some (entry_of commreport)
          | None => commission_report (feeds self) !! id
          end)
  /\ is_ready (receive self ms) = is_ready self || ended ms
  /\ client_id (receive self ms) = client_id self
  /\ port (receive self ms) = port self.
Proof.
  destruct (receive_feeds self ms) as [He Hr].
  split; [exact He|]. split; [exact Hr|].
  unfold receive, ended. revert self He Hr.
  induction ms as [|m ms IH]; intros self _ _; simpl.
  - rewrite orb_false_r. auto.
  - destruct (receive_feeds (deliver self m) ms) as [He Hr].
    destruct (IH (deliver self m) He Hr) as (-> & -> & ->).
    destruct m; simpl; rewrite ?orb_true_r; auto.
Qed.

(** X19.  From the callbacks to the records.  When [process_executions]
    returns on the object the callbacks have filled, the ledger has one
    record for each execution delivered, in the order of delivery, and the
    commission and the realized PnL of a record are read from the last
    report delivered for its [execId], whether it came before or after the
    execution; with no report the commission is 0 and the realized PnL is
    empty. *)
Theorem records_of_callbacks (client port : Z) (ms : list callback)
    (out : list Trade) (i : nat) (contract : Contract) (execution : Execution) :
  process_executions (feeds (receive (TradingApp_init client port) ms)) = Ok out ->
  exec_details ms !! i = Some (contract, execution) ->
  length out = length (exec_details ms)
  /\ exists trade,
       out !! i = Some trade
       /\ match last_report (execId execution) ms with
          | Some commreport =>
              Commission trade = report_commission commreport
              /\ Realized_PnL trade = realized_pnl_of (report_realizedPNL commreport)
          | None => Commission trade = 0%float /\ Realized_PnL trade = None
          end.
Proof.
  intros Hout Hi.
  destruct (receive_feeds (TradingApp_init client port) ms) as [He Hr].
  simpl in He.
  destruct (process_executions_spec _ _ Hout) as [Hlen Hall].
  rewrite He in Hlen, Hall. split; [exact Hlen|].
  destruct (Hall i _ Hi) as (prev & r & Hn & Hlook).
  exists r.1. split; [exact Hlook|].
  destruct (normalize_fields _ _ _ _ Hn) as (_ & _ & Hc & Hp).
  rewrite Hc, Hp. unfold commission_lookup. simpl. rewrite Hr.
  destruct (last_report (execId execution) ms); simpl; split; reflexivity.
Qed.


(** ** The fields of a record *)

Lemma normalize_copies app prev x r :
  normalize app prev x = Ok r ->
  Account r.1 = acctNumber x.2
  /\ Date_Time r.1 = exec_time x.2
  /\ Quantity r.1 = shares x.2
  /\ Symbol r.1 = symbol x.1
  /\ Currency r.1 = currency x.1
  /\ Exchange r.1 = exchange x.1
  /\ Unrealized_PnL r.1
     = if contains "OptTrader" (orderRef x.2)
       then Some (Price r.1 * 100 - Commission r.1)%float else None.
Proof.
  unfold normalize.
  destruct (security_info_after prev x.1) as [bound|e]; simpl; [|discriminate].
  destruct bound as [s|]; simpl; [|discriminate].
  intros [= <-]. simpl. repeat split.
Qed.

Lemma normalize_label app prev x r :
  normalize app prev x = Ok r ->
  if (Price r.1 =? 0)%float && (Commission r.1 =? 0)%float
  then Action r.1 = "EXPIRED"
  else Action r.1 = "BOT" \/ Action r.1 = "SLD".
Proof.
  intros Hn. destruct (normalize_fields _ _ _ _ Hn) as (Ha & Hp & Hc & _).
  rewrite Ha, Hp, Hc. unfold expired_override.
  destruct ((price x.2 =? 0)%float && ((commission_lookup app x.2).1 =? 0)%float).
  - reflexivity.
  - apply initial_action_cases.
Qed.

Lemma normalized_label (t : Trade) :
  normalized t ->
  if (Price t =? 0)%float && (Commission t =? 0)%float
  then Action t = "EXPIRED"
  else Action t = "BOT" \/ Action t = "SLD".
Proof.
  intros Hn. destruct (normalized_from_step t Hn) as (app & prev & x & r & Hr & ->).
  eapply normalize_label. exact Hr.
Qed.

(** X16.  [process_executions] builds one record for each execution, in
    the order of the executions.  The record takes the account, the
    quantity and the price of the execution and the symbol, the currency
    and the exchange of the contract as they are; its time is the time of
    the execution in the display format, or as it came when it does not
    read; its unrealized PnL is a hundred times the price less the
    commission when the order reference holds [OptTrader], and empty
    otherwise; and a stock has the descriptor [STOCK]. *)
Theorem process_executions_records (app : TradingApp) (out : list Trade)
    (i : nat) (contract : Contract) (execution : Execution) :
  process_executions app = Ok out ->
  executions app !! i = Some (contract, execution) ->
  length out = length (executions app)
  /\ exists trade,
       out !! i = Some trade
       /\ Account trade = acctNumber execution
       /\ Quantity trade = shares execution
       /\ Price trade = price execution
       /\ Symbol trade = symbol contract
       /\ Currency trade = currency contract
       /\ Exchange trade = exchange contract
       /\ Date_Time trade
          = match strptime B (time execution) TWS_FORMAT with
            | Some dt => strftime B dt DISPLAY_FORMAT
            | None => time execution
            end
       /\ Unrealized_PnL trade
          = (if contains "OptTrader" (orderRef execution)
             then Some (price execution * 100 - Commission trade)%float else None)
       /\ (secType contract = "STK" -> Security_Info trade = "STOCK").
Proof.
  intros Hout Hi.
  destruct (process_executions_spec _ _ Hout) as [Hlen Hall].
  split; [exact Hlen|].
  destruct (Hall i _ Hi) as (prev & r & Hn & Hlook).
  exists r.1. split; [exact Hlook|].
  destruct (normalize_copies _ _ _ _ Hn) as (Ha & Hd & Hq & Hs & Hc & He & Hu).
  destruct (normalize_fields _ _ _ _ Hn) as (_ & Hp & _).
  destruct (normalize_bound _ _ _ _ Hn) as (_ & Hstk & _).
  rewrite Hu, Hp. repeat split; assumption.
Qed.

(** X17.  The labels [process_executions] gives: a record is [EXPIRED]
    when its price and its commission are both zero, whatever its
    instrument, a stock and an execution whose commission report has not
    come included; and every other record is [BOT] or [SLD]. *)
Theorem process_executions_labels (app : TradingApp) (out : list Trade)
    (trade : Trade) :
  process_executions app = Ok out ->
  In trade out ->
  if (Price trade =? 0)%float && (Commission trade =? 0)%float
  then Action trade = "EXPIRED"
  else Action trade = "BOT" \/ Action trade = "SLD".
Proof.
  intros Hout Hin. apply normalized_label. exists app, out. auto.
Qed.

(** ** One connection *)

(** X20.  [get_trade_data_from_connection] returns all the records of a
    connection or none: when the connection fails, and when
    [process_executions] raises on what was delivered (a first execution
    that is no stock, option or future option; an option whose expiry
    does not read), it returns the empty list; otherwise one record for
    each execution delivered.  Every record it returns is one
    [process_executions] built. *)
Theorem connection_all_or_nothing (port client : Z) (l : link) :
  (forall t, In t (get_trade_data_from_connection port client l) -> normalized t)
  /\ match l with
     | Delivered ms =>
         length (get_trade_data_from_connection port client l)
         = if can_normalize (feeds (receive (TradingApp_init client port) ms))
           then length (exec_details ms) else 0%nat
     | _ => get_trade_data_from_connection port client l = []
     end.
Proof.
  destruct l as [| |ms]; simpl; try (split; [intros t []|reflexivity]).
  pose proof (process_executions_returns_iff_aux
                (feeds (receive (TradingApp_init client port) ms))) as Hiff.
  destruct (process_executions (feeds (receive (TradingApp_init client port) ms)))
    as [trade_data|e] eqn:Hp; simpl in Hiff; rewrite <- Hiff.
  - split.
    + intros t Ht. exists (feeds (receive (TradingApp_init client port) ms)), trade_data.
      auto.
    + destruct (process_executions_spec _ _ Hp) as [-> _].
      destruct (receive_feeds (TradingApp_init client port) ms) as [-> _].
      reflexivity.
  - split; [intros t []|reflexivity].
Qed.


(** ** [main] *)

Lemma main_loop_pooled (links : list (Z * link)) :
  forall i all_trade_data,
    main_loop i links all_trade_data
    = all_trade_data
      ++ concat (imap (fun j pl =>
                         get_trade_data_from_connection pl.1 (i + Z.of_nat j + 1) pl.2)
                      links).
Proof.
  induction links as [|[port l] links IH]; intros i all_trade_data; simpl.
  - rewrite app_nil_r. reflexivity.
  - rewrite IH. rewrite Z.add_0_r.
    assert (Hext : imap (fun j pl =>
                           get_trade_data_from_connection pl.1
                             (i + 1 + Z.of_nat j + 1) pl.2) links
                   = imap ((fun j pl =>
                              get_trade_data_from_connection pl.1
                                (i + Z.of_nat j + 1) pl.2) ∘ S) links).
    { apply imap_ext. intros j pl _. simpl. f_equal. lia. }
    rewrite Hext.
    destruct (get_trade_data_from_connection port (i + 1) l); simpl.
    + reflexivity.
    + rewrite <- app_assoc. reflexivity.
Qed.

Lemma main_is_pipeline (links : list (Z * link)) :
  main links
  = match pooled links with
    | [] => Ok None
    | _ :: _ =>
        do processed_data <- process_combos (mark_assigned_options (pooled links));
        Ok (Some processed_data)
    end.
Proof.
  unfold main. rewrite main_loop_pooled. simpl.
  assert (Hp : concat (imap (fun j pl =>
                         get_trade_data_from_connection pl.1 (0 + Z.of_nat j + 1) pl.2)
                      links) = pooled links).
  { reflexivity. }
  rewrite Hp. unfold save_to_excel_rows. destruct (pooled links); reflexivity.
Qed.

Lemma pooled_normalized (links : list (Z * link)) (t : Trade) :
  In t (pooled links) -> normalized t.
Proof.
  unfold pooled. intros Ht. apply in_concat in Ht. destruct Ht as (l & Hl & Ht).
  apply list_elem_of_In, list_elem_of_lookup in Hl. destruct Hl as [i Hi].
  rewrite list_lookup_imap in Hi.
  destruct (links !! i) as [pl|]; simpl in Hi; [|discriminate].
  injection Hi as <-.
  destruct pl as [port [| |ms]]; simpl in Ht; try contradiction.
  destruct (process_executions
              (feeds (receive (TradingApp_init (Z.of_nat i + 1) port) ms)))
    as [trade_data|e] eqn:Hp; [|contradiction].
  eexists _, trade_data. split; [exact Hp|exact Ht].
Qed.


Lemma mark_one_label stock_trades (t : Trade) :
  normalized t ->
  if (Price t =? 0)%float && (Commission t =? 0)%float
  then Action (mark_one stock_trades t) = "EXPIRED"
       \/ Action (mark_one stock_trades t) = "ASSIGNED"
  else Action (mark_one stock_trades t) = "BOT"
       \/ Action (mark_one stock_trades t) = "SLD".
Proof.
  intros Hn. pose proof (normalized_label t Hn) as Hl.
  unfold mark_one, relabel.
  destruct ((Price t =? 0)%float) eqn:Ep; simpl in *.
  - destruct ((Commission t =? 0)%float) eqn:Ec; simpl in *.
    + destruct (negb (String.eqb (Security_Info t) "STOCK")); simpl; [|auto].
      destruct (has_key _ _); simpl; [auto|].
      rewrite Hl. simpl. auto.
    + rewrite andb_false_r. exact Hl.
  - rewrite andb_false_r. simpl. exact Hl.
Qed.

(** X23.  The labels of the rows [main] saves: a row with zero price and
    zero commission is [EXPIRED] or [ASSIGNED], every other row is [BOT]
    or [SLD]; no other label is ever saved. *)
Theorem main_labels (links : list (Z * link)) (out : list Trade) (r : Trade) :
  main links = Ok (Some out) ->
  In r out ->
  if (Price r =? 0)%float && (Commission r =? 0)%float
  then Action r = "EXPIRED" \/ Action r = "ASSIGNED"
  else Action r = "BOT" \/ Action r = "SLD".
Proof.
  rewrite main_is_pipeline. intros Hm Hr.
  destruct (pooled links) as [|t0 l0] eqn:Hpool; [discriminate|].
  rewrite <- Hpool in Hm.
  destruct (process_combos (mark_assigned_options (pooled links)))
    as [processed|e] eqn:Hp; simpl in Hm; [|discriminate].
  injection Hm as ->.
  destruct (ledger_origin _ _ Hp r Hr) as (t & Ht & Hsame & _).
  destruct Hsame as (_ & Ha & _ & _ & _ & _ & Hprice & Hcomm & _).
  rewrite Ha, Hprice, Hcomm.
  rewrite mark_assigned_options_map in Ht. apply in_map_iff in Ht.
  destruct Ht as (t' & <- & Ht').
  pose proof (mark_one_label (stock_index (pooled links)) t'
                (pooled_normalized links t' Ht')) as Hl.
  destruct (mark_one_frame (stock_index (pooled links)) t')
    as (_ & _ & _ & _ & _ & _ & -> & -> & _).
  exact Hl.
Qed.


Section Program.

Hypothesis laws : PyLaws.

(** X22.  The one exception [main] lets out is the [OverflowError] of
    [process_combos], and then nothing is saved for any account: it takes
    a collected record off [SMART] whose strike token reads as an
    infinity.  A failed connection and a batch [process_executions]
    raises on never stop [main]. *)
Theorem main_raises_overflow_only (links : list (Z * link)) (e : exn) :
  main links = Raise e ->
  e = OverflowError
  /\ exists t x, In t (pooled links) /\ is_smart t = false
                 /\ strike_of t = Ok x /\ is_inf x = true.
Proof.
  rewrite main_is_pipeline. intros Hm.
  destruct (pooled links) as [|t0 l0] eqn:Hpool; [discriminate|].
  rewrite <- Hpool in *.
  unfold process_combos in Hm.
  destruct (process_groups
              (trade_groups (fill_buckets (mark_assigned_options (pooled links)))) [])
    as [processed|e'] eqn:Hp; simpl in Hm; [discriminate|].
  injection Hm as ->.
  destruct (process_groups_raise _ _ _ Hp) as (k & g & Hkg & Hg).
  destruct (process_group_raise_cases laws _ _ Hg)
    as (-> & _ & t & x & Ht & Hs & Hx & Hi).
  split; [reflexivity|].
  pose proof (proj1 (group_members_in _ _ _ Hkg t Ht)) as Hin.
  rewrite mark_assigned_options_map in Hin. apply in_map_iff in Hin.
  destruct Hin as (t' & <- & Ht').
  destruct (mark_one_frame (stock_index (pooled links)) t')
    as (_ & _ & _ & _ & Hinfo & _ & _ & _ & _ & _ & Hex).
  exists t', x. split; [exact Ht'|].
  unfold is_smart, strike_of in *. rewrite Hex, Hinfo in *. auto.
Qed.

End Program.


(** ** The descriptor of an option *)

Lemma index_Z_wraps {A : Type} (l : list A) (i : Z) (x : A) :
  index_Z l i = Ok x ->
  (- Z.of_nat (length l) <= i < Z.of_nat (length l))%Z
  /\ l !! Z.to_nat (i mod Z.of_nat (length l)) = Some x.
Proof.
  unfold index_Z.
  destruct ((0 <=? i)%Z && (i <? Z.of_nat (length l))%Z) eqn:E1.
  - apply andb_true_iff in E1. destruct E1 as [H0 Hn].
    apply Z.leb_le in H0. apply Z.ltb_lt in Hn.
    rewrite Z.mod_small by lia.
    destruct (l !! Z.to_nat i) as [y|]; simpl; [|discriminate].
    intros [= ->]. split; [lia|reflexivity].
  - destruct ((- Z.of_nat (length l) <=? i)%Z && (i <? 0)%Z) eqn:E2; [|discriminate].
    apply andb_true_iff in E2. destruct E2 as [Hn H0].
    apply Z.leb_le in Hn. apply Z.ltb_lt in H0.
    assert (Hmod : (i mod Z.of_nat (length l) = Z.of_nat (length l) + i)%Z).
    { symmetry. apply (Z.mod_unique_pos _ _ (-1)); lia. }
    rewrite Hmod.
    destruct (l !! Z.to_nat (Z.of_nat (length l) + i)) as [y|]; simpl; [|discriminate].
    intros [= ->]. split; [lia|reflexivity].
Qed.

(** X24.  The descriptor [process_executions] gives an option or a future
    option: the month name, the day on two digits at least and the last
    two digits of the year, each between quotes, then the strike as
    Python prints the float, then [CALL] when the right is [C] and [PUT]
    for every other right.  The month is read as a Python index: the
    months 1 to 12 give their names, the months 0 down to -11 count from
    [DEC] backwards, and neither the day nor the year is checked. *)
Theorem option_descriptor (app : TradingApp) (out : list Trade) (i : nat)
    (contract : Contract) (execution : Execution) :
  process_executions app = Ok out ->
  executions app !! i = Some (contract, execution) ->
  secType contract = "OPT" \/ secType contract = "FOP" ->
  exists trade year month day month_name,
    out !! i = Some trade
    /\ int_of_str B (slice 0 4 (lastTradeDateOrContractMonth contract)) = Some year
    /\ int_of_str B (slice 4 6 (lastTradeDateOrContractMonth contract)) = Some month
    /\ int_of_str B (slice 6 8 (lastTradeDateOrContractMonth contract)) = Some day
    /\ (-11 <= month <= 12)%Z
    /\ month_names !! Z.to_nat ((month - 1) mod 12) = Some month_name
    /\ Security_Info trade
       = (month_name +:+ "'" +:+ format_02d day +:+ "'" +:+ last_two (str_of_int year))
         +:+ " " +:+ str_of_float B (strike contract) +:+ " "
         +:+ (if String.eqb (right contract) "C" then "CALL" else "PUT").
Proof.
  intros Hout Hi Hclass.
  destruct (process_executions_spec _ _ Hout) as [_ Hall].
  destruct (Hall i _ Hi) as (prev & r & Hn & Hlook).
  unfold normalize, security_info_after in Hn. simpl in Hn.
  assert (Hstk : String.eqb (secType contract) "STK" = false).
  { destruct Hclass as [-> | ->]; reflexivity. }
  assert (Hopt : String.eqb (secType contract) "OPT"
                 || String.eqb (secType contract) "FOP" = true).
  { destruct Hclass as [-> | ->]; reflexivity. }
  rewrite Hstk, Hopt in Hn. unfold option_security_info in Hn.
  destruct (int_of_str B (slice 0 4 (lastTradeDateOrContractMonth contract)))
    as [year|]; simpl in Hn; [|discriminate].
  destruct (int_of_str B (slice 4 6 (lastTradeDateOrContractMonth contract)))
    as [month|]; simpl in Hn; [|discriminate].
  destruct (int_of_str B (slice 6 8 (lastTradeDateOrContractMonth contract)))
    as [day|]; simpl in Hn; [|discriminate].
  destruct (index_Z month_names (month - 1)) as [month_name|e] eqn:Em;
    simpl in Hn; [|discriminate].
  injection Hn as <-. simpl in Hlook.
  destruct (index_Z_wraps _ _ _ Em) as [Hrange Hname].
  change (Z.of_nat (length month_names)) with 12%Z in Hrange, Hname.
  eexists _, year, month, day, month_name.
  split; [exact Hlook|]. repeat split; try lia. exact Hname.
Qed.

End Ledger.

(** * The executable instance satisfies the laws *)

Lemma insert_by_perm {A : Type} (key : A -> float) (x : A) (l : list A) :
  Permutation (insert_by key x l) (x :: l).
Proof.
  induction l as [|y l IH]; simpl; [reflexivity|].
  destruct (key x <? key y)%float; [reflexivity|].
  rewrite IH. apply perm_swap.
Qed.

Lemma insertion_perm {A : Type} (key : A -> float) (l : list A) :
  forall acc,
    Permutation (fold_left (fun acc x => insert_by key x acc) l acc) (acc ++ l).
Proof.
  induction l as [|x l IH]; intros acc; simpl.
  - rewrite app_nil_r. reflexivity.
  - rewrite IH, insert_by_perm. apply Permutation_middle.
Qed.

Lemma stable_sort_perm {A : Type} (key : A -> float) (reverse : bool) (l : list A) :
  Permutation (stable_sort key reverse l) l.
Proof.
  unfold stable_sort. destruct reverse.
  - rewrite <- Permutation_rev, insertion_perm. simpl. symmetry. apply Permutation_rev.
  - rewrite insertion_perm. reflexivity.
Qed.

Lemma py_ref_laws : PyLaws py_ref.
Proof.
  split.
  - intros A key reverse l. apply stable_sort_perm.
  - intros A key reverse l _. reflexivity.
Qed.
(** * Concrete batches *)

(** ** The combo netting example *)

Lemma combo_netting_example_witness :
  exists merged_leg,
    process_combos py_ref [ex_leg_105; ex_primary; ex_leg_100] = Ok [merged_leg]
    /\ merged_leg
       = set_Realized_PnL 42.5 (set_Security_Info "MAR'15'24 105/100" ex_primary)
    /\ ~ In ex_leg_100 [merged_leg] /\ ~ In ex_leg_105 [merged_leg].
Proof.
  apply (combo_netting_example py_ref py_ref_laws ex_leg_100 ex_leg_105 ex_primary
           [ex_leg_105; ex_primary; ex_leg_100] (mk_datetime 2024 3 1 15 30 0)).
  - vm_compute. reflexivity.
  - vm_compute. reflexivity.
  - vm_compute. reflexivity.
  - apply perm_trans with [ex_leg_105; ex_leg_100; ex_primary].
    + apply perm_skip. apply perm_swap.
    + apply perm_swap.
  - intros t [<-|[<-|[<-|[]]]]; split; reflexivity.
  - discriminate.
  - reflexivity.
  - reflexivity.
  - discriminate.
  - reflexivity.
  - reflexivity.
  - left. vm_compute. reflexivity.
  - reflexivity.
  - reflexivity.
Defined.

(** ** A group with two primary legs *)

Lemma two_primaries_numeric : numeric_strikes py_ref two_primaries.
Proof.
  intros t x [<-|[<-|[<-|[]]]] H; vm_compute in H; injection H as <-; reflexivity.
Qed.

Lemma ledger_count_witness :
  exists out,
    process_combos py_ref two_primaries = Ok out
    /\ length out
       = (length (List.filter is_stocks two_primaries)
          + length (List.filter (unparsed py_ref) two_primaries)
          + list_sum (map (fun k => group_share py_ref (members py_ref k two_primaries))
                        (batch_keys py_ref two_primaries)))%nat.
Proof.
  apply (ledger_count py_ref py_ref_laws two_primaries).
  exact two_primaries_numeric.
Defined.

(** The batch [two_primaries] has one key; its group is the batch, it
    folds, and its share is 2. *)
Example two_primaries_share :
  batch_keys py_ref two_primaries = [ex_key]
  /\ members py_ref ex_key two_primaries = two_primaries
  /\ folds py_ref two_primaries = true
  /\ group_share py_ref two_primaries = 2%nat
  /\ process_combos py_ref two_primaries
     = Ok [set_Realized_PnL 62.5 (set_Security_Info "MAR'15'24 100" ex_primary);
           set_Realized_PnL 50 (set_Security_Info "MAR'15'24 100" ex_primary_b)].
Proof. repeat split; vm_compute; reflexivity. Qed.

(** C3 as stated gives every group one record or all of its records.
    The group of [two_primaries] has three members and leaves its two
    [SMART] members in the ledger: neither one nor three, whichever
    groups are taken to collapse. *)
Lemma ledger_count_two_primaries :
  exists out,
    process_combos py_ref two_primaries = Ok out
    /\ length out = 2%nat
    /\ forall collapses : list Trade -> bool,
         one_or_all_count py_ref collapses two_primaries <> length out.
Proof.
  eexists. split; [vm_compute; reflexivity|]. split; [reflexivity|].
  intros collapses. unfold one_or_all_count.
  destruct two_primaries_share as (Hk & Hm & _). rewrite Hk.
  change (List.filter is_stocks two_primaries) with (@nil Trade).
  change (List.filter (unparsed py_ref) two_primaries) with (@nil Trade).
  cbn [map list_sum length Nat.add]. rewrite Hm.
  destruct (collapses two_primaries); discriminate.
Qed.

(** ** A stock record as primary leg *)

Lemma stock_combo_finite : finite_strikes py_ref stock_combo.
Proof.
  intros t x [<-|[<-|[<-|[]]]] H; vm_compute in H;
    first [discriminate | injection H as <-; reflexivity].
Qed.

Lemma stock_combo_legs (t : Trade) :
  In t (legs_of stock_combo) ->
  exists e x, leg_reads py_ref t = Some (e, x) /\ is_finite x = true.
Proof.
  intros [<-|[<-|[]]].
  - exists "MAR'15'24", 100%float. split; vm_compute; reflexivity.
  - exists "MAR'15'24", 105%float. split; vm_compute; reflexivity.
Qed.

Lemma smart_members_absorb_combo_witness :
  exists d out,
    combo_descriptor py_ref (legs_of stock_combo) d
    /\ process_combos py_ref stock_combo = Ok out
    /\ (forall t, In t stock_combo -> on_smart t = true ->
          In (absorbed d
                (folded_pnl (legs_net (legs_of stock_combo)) (Realized_PnL t)) t) out)
    /\ (forall t, In t stock_combo -> on_smart t = false -> ~ In t out).
Proof.
  apply (smart_members_absorb_combo py_ref py_ref_laws stock_combo ex_key stock_combo).
  - exact stock_combo_finite.
  - vm_compute. reflexivity.
  - vm_compute. reflexivity.
  - vm_compute. reflexivity.
  - vm_compute. discriminate.
  - exact stock_combo_legs.
Defined.

(** The descriptor and the net of the two legs of [stock_combo], and the
    stock record once they are folded into it. *)
Example stock_combo_descriptor :
  combo_descriptor py_ref (legs_of stock_combo) "MAR'15'24 105/100"
  /\ legs_net (legs_of stock_combo) = 30%float
  /\ absorbed "MAR'15'24 105/100"
       (folded_pnl 30 (Realized_PnL ex_stock_primary)) ex_stock_primary
     = set_Realized_PnL 30 (set_Security_Info "MAR'15'24 105/100" ex_stock_primary).
Proof.
  split; [|split; vm_compute; reflexivity].
  exists [], ex_leg_100, [ex_leg_105], "MAR'15'24", 100%float,
         [105%float; 100%float], ["105"; "100"].
  split; [reflexivity|]. split; [vm_compute; reflexivity|].
  split; [intros t e y []|].
  split.
  { intros t e y [<-|[]] H. vm_compute in H. injection H as _ <-. reflexivity. }
  split; [vm_compute; apply perm_swap|].
  split.
  { repeat constructor. }
  split; [|reflexivity].
  constructor; [exists 105%Z; split; vm_compute; reflexivity|].
  constructor; [exists 100%Z; split; vm_compute; reflexivity|constructor].
Qed.

(** The stock record takes the descriptor of the option legs and their
    net PnL; the legs are gone. *)
Example stock_primary_is_overwritten :
  process_combos py_ref stock_combo
  = Ok [set_Realized_PnL 30 (set_Security_Info "MAR'15'24 105/100" ex_stock_primary)].
Proof. vm_compute. reflexivity. Qed.

(** C10 as stated asks only that the strikes of the other legs parse.  A
    leg whose descriptor stops after the strike has a strike that parses,
    100, and no third token: line 241 raises [IndexError], the handler
    passes the group through, the [SMART] record keeps its descriptor and
    the leg stays in the ledger. *)
Lemma two_token_leg_blocks_merge :
  has_negative [ex_stock_primary; ex_leg_two_tokens] = true
  /\ is_smart ex_stock_primary = true
  /\ non_smart [ex_stock_primary; ex_leg_two_tokens] = [ex_leg_two_tokens]
  /\ strike_of py_ref ex_leg_two_tokens = Ok 100%float
  /\ process_combos py_ref [ex_stock_primary; ex_leg_two_tokens]
     = Ok [ex_stock_primary; ex_leg_two_tokens].
Proof. repeat split; vm_compute; reflexivity. Qed.

(** ** A batch of raw executions *)

Lemma assignment_app_ledger :
  process_executions py_ref assignment_app = Ok assignment_ledger.
Proof. vm_compute. reflexivity. Qed.

Lemma assignment_ledger_normalized (t : Trade) :
  In t assignment_ledger -> normalized py_ref t.
Proof.
  intros Ht. exists assignment_app, assignment_ledger.
  split; [exact assignment_app_ledger|exact Ht].
Qed.

Example delivery_is_assigned :
  mark_assigned_options assignment_ledger
  = [set_Action "ASSIGNED" rec_delivery; rec_shares; rec_opening].
Proof. vm_compute. reflexivity. Qed.

Lemma assigned_or_expired_witness :
  exists trade',
    mark_assigned_options assignment_ledger !! 0%nat = Some trade'
    /\ (stock_at_same_key assignment_ledger rec_delivery -> Action trade' = "ASSIGNED")
    /\ (~ stock_at_same_key assignment_ledger rec_delivery -> Action trade' = "EXPIRED").
Proof.
  apply (assigned_or_expired py_ref assignment_ledger 0 rec_delivery).
  - reflexivity.
  - apply assignment_ledger_normalized. simpl. auto.
  - discriminate.
  - vm_compute. reflexivity.
  - vm_compute. reflexivity.
Defined.

Lemma action_overridden_at_most_once_witness :
  (length (List.filter (fun w => Nat.eqb w.1 2)
             (mark_assigned_options_log assignment_ledger).2) <= 1)%nat
  /\ ((exists a, In (2%nat, a) (mark_assigned_options_log assignment_ledger).2) ->
      classified (Action rec_opening) = false)
  /\ (classified (Action rec_opening) = true ->
      mark_assigned_options assignment_ledger !! 2%nat = Some rec_opening)
  /\ (Action rec_opening = "BOT" \/ Action rec_opening = "SLD" ->
      exists trade', mark_assigned_options assignment_ledger !! 2%nat = Some trade'
                     /\ Action trade' = Action rec_opening).
Proof.
  apply (action_overridden_at_most_once py_ref assignment_ledger 2 rec_opening).
  - reflexivity.
  - apply assignment_ledger_normalized. simpl. auto.
Defined.

Lemma sentinel_pnl_is_empty_witness :
  exists trade, assignment_ledger !! 2%nat = Some trade /\ Realized_PnL trade = None.
Proof.
  apply (sentinel_pnl_is_empty py_ref assignment_app assignment_ledger 2
           xyz_call exec_opening entry_opening MAX_FLOAT_SENTINEL).
  - exact assignment_app_ledger.
  - reflexivity.
  - vm_compute. reflexivity.
  - reflexivity.
  - vm_compute. reflexivity.
Defined.

Lemma action_default_from_side_witness :
  (side exec_opening = "BOT" -> initial_action exec_opening = "BOT")
  /\ (side exec_opening <> "BOT" -> initial_action exec_opening = "SLD")
  /\ exists trade,
       assignment_ledger !! 2%nat = Some trade
       /\ Action trade
          = expired_override (price exec_opening)
              (commission_lookup assignment_app exec_opening).1
              (initial_action exec_opening).
Proof.
  apply (action_default_from_side py_ref assignment_app assignment_ledger 2
           xyz_call exec_opening).
  - exact assignment_app_ledger.
  - reflexivity.
Defined.

(** ** Batches on which the core raises *)

(** C2.  The core does raise: [UnboundLocalError] when the first execution
    of a batch is of an instrument class other than [STK], [OPT] and
    [FOP], whatever the library routines; [ValueError] on an expiry that
    is no number; [IndexError] on a month out of range; [OverflowError]
    from [process_combos] on an infinite strike. *)
Theorem core_pipeline_raises :
  (forall B : PyBuiltins,
     core_pipeline B (one_execution eur_usd) = Raise UnboundLocalError)
  /\ core_pipeline py_ref (one_execution xyz_call_no_expiry) = Raise ValueError
  /\ core_pipeline py_ref (one_execution xyz_call_month_13) = Raise IndexError
  /\ core_pipeline py_ref unbounded_app = Raise OverflowError.
Proof.
  split; [intros B; reflexivity|].
  repeat split; vm_compute; reflexivity.
Qed.

(** After an execution of a known class, one of an unknown class is given
    the descriptor of the execution before it. *)
Example stale_security_info :
  process_executions py_ref
    {| executions := [(xyz_stock, exec_shares); (eur_usd, exec_opening)];
       commission_report := ∅ |}
  = Ok [mk_trade "U100" "SLD" "15.03.2024 16:00:00" 100 "XYZ" "STOCK"
          "USD" 100 0 None None "NYSE";
        mk_trade "U100" "SLD" "01.03.2024 15:30:00" 1 "EUR" "STOCK"
          "USD" 2.5 0 (Some 250%float) None "IDEALPRO"].
Proof. vm_compute. reflexivity. Qed.

(** ** A strike that does not parse beside a strike that overflows *)

(** C8.  The group [ABC] has a negative price and a member off [SMART]
    whose strike token does not parse, and it is passed through by its
    own processing; the call of [process_combos] on the batch still ends
    in an [OverflowError], raised by the group [XYZ], and returns no
    ledger. *)
Theorem strike_failure_beside_overflow :
  trade_groups (fill_buckets py_ref overflow_batch)
  = [(("ABC", "01.03.2024 15:30:00"), [abc_stock_leg; abc_option]);
     (("XYZ", "01.03.2024 15:30:00"), [xyz_unbounded_leg; ex_primary])]
  /\ has_negative [abc_stock_leg; abc_option] = true
  /\ is_smart abc_stock_leg = false
  /\ strike_of py_ref abc_stock_leg = Raise IndexError
  /\ process_group py_ref [abc_stock_leg; abc_option] = Ok [abc_stock_leg; abc_option]
  /\ process_combos py_ref overflow_batch = Raise OverflowError.
Proof. repeat split; vm_compute; reflexivity. Qed.

(** ** A group passed through *)

Lemma failed_strike_passes_group_witness :
  process_group py_ref [abc_stock_leg; abc_option] = Ok [abc_stock_leg; abc_option]
  /\ forall r, In r [abc_stock_leg; abc_option] ->
       exists out, process_group py_ref [abc_stock_leg; abc_option] = Ok out /\ In r out.
Proof.
  apply (failed_strike_passes_group py_ref [abc_stock_leg; abc_option] abc_stock_leg).
  - left. reflexivity.
  - reflexivity.
  - vm_compute. reflexivity.
Defined.

Lemma passed_group_finite : finite_strikes py_ref [abc_stock_leg; abc_option].
Proof.
  intros t x [<-|[<-|[]]] H; vm_compute in H;
    first [discriminate | injection H as <-; reflexivity].
Qed.

Lemma failed_strike_group_in_ledger_witness :
  exists out,
    process_combos py_ref [abc_stock_leg; abc_option] = Ok out
    /\ forall r, In r [abc_stock_leg; abc_option] -> In r out.
Proof.
  apply (failed_strike_group_in_ledger py_ref py_ref_laws
           [abc_stock_leg; abc_option] ("ABC", "01.03.2024 15:30:00")
           [abc_stock_leg; abc_option] abc_stock_leg).
  - exact passed_group_finite.
  - vm_compute. left. reflexivity.
  - left. reflexivity.
  - reflexivity.
  - vm_compute. reflexivity.
Defined.

(** ** The ledger of [process_combos] on the batches above *)

Lemma combo_batch_ledger :
  process_combos py_ref [ex_leg_105; ex_primary; ex_leg_100] = Ok [ex_merged].
Proof. vm_compute. reflexivity. Qed.

Lemma process_combos_raises_overflow_only_witness :
  OverflowError = OverflowError
  /\ exists k g t x,
       In (k, g) (trade_groups (fill_buckets py_ref overflow_batch))
       /\ has_negative g = true
       /\ In t g /\ In t overflow_batch /\ is_smart t = false
       /\ strike_of py_ref t = Ok x /\ is_inf x = true.
Proof.
  apply (process_combos_raises_overflow_only py_ref py_ref_laws overflow_batch
           OverflowError).
  vm_compute. reflexivity.
Defined.

Lemma no_negative_price_no_merge_witness :
  process_combos py_ref assignment_ledger
  = Ok (bucket_contents (fill_buckets py_ref assignment_ledger))
  /\ Permutation (bucket_contents (fill_buckets py_ref assignment_ledger))
       assignment_ledger.
Proof.
  apply (no_negative_price_no_merge py_ref assignment_ledger).
  intros t [<-|[<-|[<-|[]]]]; vm_compute; reflexivity.
Defined.

Lemma ledger_tail_witness :
  exists processed,
    [ex_leg_100; ex_leg_105; ex_primary_stocks]
    = processed
      ++ List.filter is_stocks [ex_leg_100; ex_leg_105; ex_primary_stocks]
      ++ List.filter (unparsed py_ref) [ex_leg_100; ex_leg_105; ex_primary_stocks].
Proof.
  apply (ledger_tail py_ref [ex_leg_100; ex_leg_105; ex_primary_stocks]
           [ex_leg_100; ex_leg_105; ex_primary_stocks]).
  vm_compute. reflexivity.
Defined.

Lemma ledger_records_from_batch_witness :
  (length [ex_merged] <= length [ex_leg_105; ex_primary; ex_leg_100])%nat
  /\ forall r, In r [ex_merged] ->
       exists t, In t [ex_leg_105; ex_primary; ex_leg_100]
                 /\ same_but_info_pnl t r
                 /\ (is_smart r = false -> r = t)
                 /\ (Realized_PnL t <> None -> Realized_PnL r <> None).
Proof.
  apply (ledger_records_from_batch py_ref [ex_leg_105; ex_primary; ex_leg_100]
           [ex_merged]).
  vm_compute. reflexivity.
Defined.

Lemma process_combos_idempotent_witness :
  process_combos py_ref [ex_merged] = Ok [ex_merged].
Proof.
  apply (process_combos_idempotent py_ref [ex_leg_105; ex_primary; ex_leg_100]
           [ex_merged]).
  vm_compute. reflexivity.
Defined.

Lemma ledger_keeps_witness :
  (is_stocks ex_primary = true \/ unparsed py_ref ex_primary = true ->
   In ex_primary [ex_merged])
  /\ (is_smart ex_primary = true ->
      exists r, In r [ex_merged] /\ same_but_info_pnl ex_primary r)
  /\ (forall k g,
        In (k, g) (trade_groups
                     (fill_buckets py_ref [ex_leg_105; ex_primary; ex_leg_100])) ->
        In ex_primary g -> merged py_ref g = false -> In ex_primary [ex_merged]).
Proof.
  apply (ledger_keeps py_ref [ex_leg_105; ex_primary; ex_leg_100] [ex_merged]).
  - vm_compute. reflexivity.
  - right. left. reflexivity.
Defined.

(** ** The assignment classifier on the delivery *)

Lemma mark_assigned_options_decision_witness :
  (stock_at_same_key assignment_ledger rec_delivery ->
   mark_assigned_options assignment_ledger !! 0%nat
   = Some (set_Action "ASSIGNED" rec_delivery))
  /\ (~ stock_at_same_key assignment_ledger rec_delivery ->
      classified (Action rec_delivery) = false ->
      mark_assigned_options assignment_ledger !! 0%nat
      = Some (set_Action "EXPIRED" rec_delivery))
  /\ (~ stock_at_same_key assignment_ledger rec_delivery ->
      classified (Action rec_delivery) = true ->
      mark_assigned_options assignment_ledger !! 0%nat = Some rec_delivery).
Proof.
  apply (mark_assigned_options_decision assignment_ledger 0 rec_delivery).
  - reflexivity.
  - discriminate.
  - vm_compute. reflexivity.
  - vm_compute. reflexivity.
Defined.

Lemma mark_assigned_options_permutation_witness :
  Permutation (mark_assigned_options [rec_delivery; rec_shares])
              (mark_assigned_options [rec_shares; rec_delivery]).
Proof.
  apply (mark_assigned_options_permutation [rec_delivery; rec_shares]
           [rec_shares; rec_delivery]).
  apply perm_swap.
Defined.

(** ** The normalizer on the batches above *)

Lemma mixed_app_ledger : process_executions py_ref mixed_app = Ok mixed_ledger.
Proof. vm_compute. reflexivity. Qed.

Lemma unknown_class_inherits_descriptor_witness :
  exists before record,
    mixed_ledger !! 0%nat = Some before /\ mixed_ledger !! 1%nat = Some record
    /\ Security_Info record = Security_Info before.
Proof.
  apply (unknown_class_inherits_descriptor py_ref mixed_app mixed_ledger 0
           eur_usd exec_opening).
  - exact mixed_app_ledger.
  - reflexivity.
  - reflexivity.
Defined.

Lemma normalization_never_builds_stocks_witness :
  (forall t, In t assignment_ledger -> is_stocks t = false)
  /\ stocks_trades (fill_buckets py_ref (mark_assigned_options assignment_ledger)) = [].
Proof.
  apply (normalization_never_builds_stocks py_ref assignment_app assignment_ledger).
  exact assignment_app_ledger.
Defined.

Lemma process_executions_records_witness :
  length assignment_ledger = length (executions assignment_app)
  /\ exists trade,
       assignment_ledger !! 2%nat = Some trade
       /\ Account trade = acctNumber exec_opening
       /\ Quantity trade = shares exec_opening
       /\ Price trade = price exec_opening
       /\ Symbol trade = symbol xyz_call
       /\ Currency trade = currency xyz_call
       /\ Exchange trade = exchange xyz_call
       /\ Date_Time trade
          = match strptime py_ref (time exec_opening) TWS_FORMAT with
            | Some dt => strftime py_ref dt DISPLAY_FORMAT
            | None => time exec_opening
            end
       /\ Unrealized_PnL trade
          = (if contains "OptTrader" (orderRef exec_opening)
             then Some (price exec_opening * 100 - Commission trade)%float else None)
       /\ (secType xyz_call = "STK" -> Security_Info trade = "STOCK").
Proof.
  apply (process_executions_records py_ref assignment_app assignment_ledger 2
           xyz_call exec_opening).
  - exact assignment_app_ledger.
  - reflexivity.
Defined.

Lemma process_executions_labels_witness :
  if (Price rec_delivery =? 0)%float && (Commission rec_delivery =? 0)%float
  then Action rec_delivery = "EXPIRED"
  else Action rec_delivery = "BOT" \/ Action rec_delivery = "SLD".
Proof.
  apply (process_executions_labels py_ref assignment_app assignment_ledger rec_delivery).
  - exact assignment_app_ledger.
  - left. reflexivity.
Defined.

(** ** From the callbacks to the rows *)

Lemma assignment_calls_ledger :
  process_executions py_ref (feeds (receive (TradingApp_init 1 7496) assignment_calls))
  = Ok assignment_ledger.
Proof. vm_compute. reflexivity. Qed.

Lemma records_of_callbacks_witness :
  length assignment_ledger = length (exec_details assignment_calls)
  /\ exists trade,
       assignment_ledger !! 1%nat = Some trade
       /\ match last_report (execId exec_shares) assignment_calls with
          | Some commreport =>
              Commission trade = report_commission commreport
              /\ Realized_PnL trade
                 = realized_pnl_of py_ref (report_realizedPNL commreport)
          | None => Commission trade = 0%float /\ Realized_PnL trade = None
          end.
Proof.
  apply (records_of_callbacks py_ref 1 7496 assignment_calls assignment_ledger 1
           xyz_stock exec_shares).
  - exact assignment_calls_ledger.
  - reflexivity.
Defined.

Lemma main_raises_overflow_only_witness :
  OverflowError = OverflowError
  /\ exists t x, In t (pooled py_ref unbounded_port) /\ is_smart t = false
                 /\ strike_of py_ref t = Ok x /\ is_inf x = true.
Proof.
  apply (main_raises_overflow_only py_ref py_ref_laws unbounded_port OverflowError).
  vm_compute. reflexivity.
Defined.

Lemma main_labels_witness :
  if (Price (set_Action "ASSIGNED" rec_delivery) =? 0)%float
     && (Commission (set_Action "ASSIGNED" rec_delivery) =? 0)%float
  then Action (set_Action "ASSIGNED" rec_delivery) = "EXPIRED"
       \/ Action (set_Action "ASSIGNED" rec_delivery) = "ASSIGNED"
  else Action (set_Action "ASSIGNED" rec_delivery) = "BOT"
       \/ Action (set_Action "ASSIGNED" rec_delivery) = "SLD".
Proof.
  apply (main_labels py_ref two_ports
           [set_Action "ASSIGNED" rec_delivery; rec_shares; rec_opening]
           (set_Action "ASSIGNED" rec_delivery)).
  - vm_compute. reflexivity.
  - left. reflexivity.
Defined.

Lemma option_descriptor_witness :
  exists trade year month day month_name,
    assignment_ledger !! 0%nat = Some trade
    /\ int_of_str py_ref (slice 0 4 (lastTradeDateOrContractMonth xyz_call)) = Some year
    /\ int_of_str py_ref (slice 4 6 (lastTradeDateOrContractMonth xyz_call)) = Some month
    /\ int_of_str py_ref (slice 6 8 (lastTradeDateOrContractMonth xyz_call)) = Some day
    /\ (-11 <= month <= 12)%Z
    /\ month_names !! Z.to_nat ((month - 1) mod 12) = Some month_name
    /\ Security_Info trade
       = (month_name +:+ "'" +:+ format_02d day +:+ "'" +:+ last_two (str_of_int year))
         +:+ " " +:+ str_of_float py_ref (strike xyz_call) +:+ " "
         +:+ (if String.eqb (right xyz_call) "C" then "CALL" else "PUT").
Proof.
  apply (option_descriptor py_ref assignment_app assignment_ledger 0
           xyz_call exec_delivery).
  - exact assignment_app_ledger.
  - reflexivity.
  - left. reflexivity.
Defined.
